(** * Minefield generation and flood reveal: a shallow embedding

    The game keeps its state in global variables ([dimension], [grid],
    [minables], [currentId], the counters).  Here they are the fields of
    one record, [Game], threaded explicitly through every procedure.
    Positions are integer pairs, the grid is the JavaScript array seen as
    a finite map from indices to cell objects, and the random source is a
    stream of naturals consumed one draw at a time. *)

From Stdlib Require Import ZArith List Bool Lia.
From Stdlib Require QArith Qround Lqa String Ascii DecimalString.
From stdpp Require Import base numbers option list gmap.
Import ListNotations.

Open Scope Z_scope.

(** ** The functional wrapper around lists *)

Module Iterator.

Definition filter {A} (func : A -> bool) (l : list A) : list A :=
  List.filter func l.

Definition map {A B} (func : A -> B) (l : list A) : list B :=
  List.map func l.

Definition all {A} (func : A -> bool) (l : list A) : bool :=
  forallb func l.

Definition any {A} (func : A -> bool) (l : list A) : bool :=
  existsb func l.

(** [each] runs a state-changing body on every element, in order. *)
Definition each {A S} (func : A -> S -> S) (l : list A) (s : S) : S :=
  fold_left (fun acc a => func a acc) l s.

(** [each] for a body that may run out of recursion budget. *)
Fixpoint eachM {A S} (func : A -> S -> option S) (l : list A) (s : S)
  : option S :=
  match l with
  | [] => Some s
  | a :: l' =>
      match func a s with
      | Some s' => eachM func l' s'
      | None => None
      end
  end.

End Iterator.

(** ** Two-dimensional integer vectors *)

Module Vec2.

Record t := new { x : Z; y : Z }.

Definition clone (v : t) : t := new (x v) (y v).

Definition equals (v other : t) : bool :=
  (x v =? x other) && (y v =? y other).

Definition add (v other : t) : t :=
  new (x v + x other) (y v + y other).

Definition subtract (v other : t) : t :=
  new (x v - x other) (y v - y other).

Definition negate (v : t) : t := new (- x v) (- y v).

Definition clockwise (v : t) : t := new (y v) (- x v).

Definition adjacentTo (v other : t) : bool :=
  let delta := subtract v other in
  ((-1 <=? x delta) && (x delta <=? 1))
  && ((-1 <=? y delta) && (y delta <=? 1)).

Definition inDirs (source : t) (directions : list t) : list t :=
  Iterator.map (fun dir => add source dir) directions.

End Vec2.

#[global] Instance Vec2_eq_dec : EqDecision Vec2.t.
Proof. solve_decision. Defined.

Definition NORTH := Vec2.new 0 (-1).
Definition NORTHEAST := Vec2.new 1 (-1).
Definition EAST := Vec2.new 1 0.
Definition SOUTHEAST := Vec2.new 1 1.
Definition SOUTH := Vec2.new 0 1.
Definition SOUTHWEST := Vec2.new (-1) 1.
Definition WEST := Vec2.new (-1) 0.
Definition NORTHWEST := Vec2.new (-1) (-1).

Definition ALL_DIRS : list Vec2.t :=
  [NORTH; NORTHEAST; EAST; SOUTHEAST; SOUTH; SOUTHWEST; WEST; NORTHWEST].

Definition ORTHO_DIRS : list Vec2.t := [NORTH; EAST; SOUTH; WEST].

(** ** Cell objects *)

(** What an [id] slot can hold: nothing at all (the property was never
    set), [null], or a number. *)
Inductive Value := Undefined | Null | Num (n : Z).

#[global] Instance Value_eq_dec : EqDecision Value.
Proof. solve_decision. Defined.

(** The loose comparison [==] on such values: [undefined] and [null] are
    equal to each other and to nothing else. *)
Definition loose_eq (a b : Value) : bool :=
  match a, b with
  | Num n, Num m => n =? m
  | Num _, _ | _, Num _ => false
  | _, _ => true
  end.

Definition loose_neq (a b : Value) : bool := negb (loose_eq a b).

(** The three constructor functions. *)
Inductive Ctor := Open | Close | Mine.

#[global] Instance Ctor_eq_dec : EqDecision Ctor.
Proof. solve_decision. Defined.

Module Cell.

(** A cell object: the constructor that made it and its two properties.
    [flagged = None] is a missing property ([Open] never sets it). *)
Record t := make { ctor : Ctor; id : Value; flagged : option bool }.

Definition set_id (newId : Value) (c : t) : t :=
  make (ctor c) newId (flagged c).

Definition set_flagged (b : bool) (c : t) : t :=
  make (ctor c) (id c) (Some b).

End Cell.

#[global] Instance Cell_eq_dec : EqDecision Cell.t.
Proof. solve_decision. Defined.

Definition new_Open : Cell.t := Cell.make Open Undefined None.
Definition new_Close : Cell.t := Cell.make Close Undefined (Some false).
Definition new_Mine (id : Value) : Cell.t := Cell.make Mine id (Some false).

(** [o instanceof C], where [o] may be [undefined] (a missing array slot). *)
Definition instanceof (o : option Cell.t) (c : Ctor) : bool :=
  match o with
  | Some s => bool_decide (Cell.ctor s = c)
  | None => false
  end.

(** Truthiness of [o.flagged] for a cell object. *)
Definition is_flagged (c : Cell.t) : bool :=
  match Cell.flagged c with Some b => b | None => false end.

(** ** The game state *)

Record Game := mkGame {
  dimension : nat;
  totalMines : nat;
  grid : gmap Z Cell.t;
  minables : list Vec2.t;
  currentId : Z;
  hasGenMines : bool;
  isLost : bool;
  numRemainingFlags : Z;
  remainingClearCells : Z;
  (** the number of [Open] cells at each run of [win], oldest first *)
  winLog : list nat;
  (** the random source and the number of draws taken from it *)
  randomSource : nat -> nat;
  drawn : nat
}.

Definition with_grid (gr : gmap Z Cell.t) (g : Game) : Game :=
  mkGame (dimension g) (totalMines g) gr (minables g) (currentId g)
    (hasGenMines g) (isLost g) (numRemainingFlags g) (remainingClearCells g)
    (winLog g) (randomSource g) (drawn g).

Definition with_minables (l : list Vec2.t) (g : Game) : Game :=
  mkGame (dimension g) (totalMines g) (grid g) l (currentId g)
    (hasGenMines g) (isLost g) (numRemainingFlags g) (remainingClearCells g)
    (winLog g) (randomSource g) (drawn g).

Definition with_currentId (i : Z) (g : Game) : Game :=
  mkGame (dimension g) (totalMines g) (grid g) (minables g) i
    (hasGenMines g) (isLost g) (numRemainingFlags g) (remainingClearCells g)
    (winLog g) (randomSource g) (drawn g).

Definition with_numRemainingFlags (n : Z) (g : Game) : Game :=
  mkGame (dimension g) (totalMines g) (grid g) (minables g) (currentId g)
    (hasGenMines g) (isLost g) n (remainingClearCells g)
    (winLog g) (randomSource g) (drawn g).

Definition with_remainingClearCells (n : Z) (g : Game) : Game :=
  mkGame (dimension g) (totalMines g) (grid g) (minables g) (currentId g)
    (hasGenMines g) (isLost g) (numRemainingFlags g) n
    (winLog g) (randomSource g) (drawn g).

Definition with_winLog (l : list nat) (g : Game) : Game :=
  mkGame (dimension g) (totalMines g) (grid g) (minables g) (currentId g)
    (hasGenMines g) (isLost g) (numRemainingFlags g) (remainingClearCells g)
    l (randomSource g) (drawn g).

Definition with_drawn (n : nat) (g : Game) : Game :=
  mkGame (dimension g) (totalMines g) (grid g) (minables g) (currentId g)
    (hasGenMines g) (isLost g) (numRemainingFlags g) (remainingClearCells g)
    (winLog g) (randomSource g) n.

(** Outcome of a procedure that can throw.  [NoMinableSpacesLeft] is the
    error thrown by [randomMinablePos].  [OutOfFuel] is not a behaviour of
    the program: it marks a loop budget of this embedding that was too
    small, and is shown below never to arise from a well-formed round. *)
Inductive Outcome (A : Type) :=
| Returns (a : A)
| NoMinableSpacesLeft
| OutOfFuel.
Arguments Returns {A} a.
Arguments NoMinableSpacesLeft {A}.
Arguments OutOfFuel {A}.

(** ** Utility and game functions *)

(** [randomNumber(lo, hi)]: the next draw, brought into [lo..hi].  Any
    sequence of results the library function can give is the image of some
    source. *)
Definition randomNumber (lo hi : nat) (g : Game) : nat * Game :=
  ((lo + randomSource g (drawn g) mod (hi - lo + 1))%nat,
   with_drawn (S (drawn g)) g).

(** [removeItem(list, index)]. *)
Definition removeItem {A} (l : list A) (index : nat) : list A :=
  firstn index l ++ skipn (S index) l.

Definition randomMinablePos (g : Game) : Outcome (Vec2.t * Game) :=
  match minables g with
  | [] => NoMinableSpacesLeft
  | first :: _ =>
      let (index, g1) := randomNumber 0 (length (minables g) - 1) g in
      let pos := nth index (minables g1) first in
      Returns (pos, with_minables (removeItem (minables g1) index) g1)
  end.

Definition isOutsideField (g : Game) (pos : Vec2.t) : bool :=
  (Vec2.x pos <? 0) || (Z.of_nat (dimension g) <=? Vec2.x pos)
  || (Vec2.y pos <? 0) || (Z.of_nat (dimension g) <=? Vec2.y pos).

Definition index_of (g : Game) (pos : Vec2.t) : Z :=
  Vec2.x pos + Vec2.y pos * Z.of_nat (dimension g).

Definition getState (g : Game) (pos : Vec2.t) : option Cell.t :=
  grid g !! index_of g pos.

Definition setState (pos : Vec2.t) (newState : Cell.t) (g : Game) : Game :=
  with_grid (<[index_of g pos := newState]> (grid g)) g.

Definition isMine (g : Game) (pos : Vec2.t) : bool :=
  instanceof (getState g pos) Mine.

Definition isEmpty (g : Game) (pos : Vec2.t) : bool :=
  negb (isOutsideField g pos) && instanceof (getState g pos) Close.

Definition neighbors (g : Game) (pos : Vec2.t) : list Vec2.t :=
  Iterator.filter (fun p => negb (isOutsideField g p))
    (Vec2.inDirs pos ALL_DIRS).

(** [getId]: inside the field it reads the [id] property of the cell
    object.  Every index inside the field holds an object once [initGame]
    has run (the source would raise a TypeError otherwise); a missing slot
    reads as [Undefined] here. *)
Definition getId (g : Game) (pos : Vec2.t) : Value :=
  if isOutsideField g pos then Num 0
  else match getState g pos with
       | Some c => Cell.id c
       | None => Undefined
       end.

Definition hasId (g : Game) (id : Value) (pos : Vec2.t) : bool :=
  negb (isEmpty g pos) && loose_eq (getId g pos) id.

Definition getCommonIdInDirs (g : Game) (pos dir1 dir2 : Vec2.t) : Value :=
  let neighbor1 := Vec2.add pos dir1 in
  let neighbor2 := Vec2.add pos dir2 in
  if negb (isEmpty g neighbor1)
     && negb (isEmpty g neighbor2)
     && loose_eq (getId g neighbor1) (getId g neighbor2)
  then getId g neighbor1
  else Null.

Definition isSurrounded (g : Game) (pos : Vec2.t) : bool :=
  Iterator.all (isMine g) (neighbors g pos).

(** [willCreateIsland]: the vertical pair, then the horizontal pair, then
    the four corners. *)
Definition willCreateIsland (g : Game) (pos : Vec2.t) : bool :=
  let id := getCommonIdInDirs g pos NORTH SOUTH in
  if loose_neq id Null then
    if Iterator.all (hasId g id) (Vec2.inDirs pos [WEST; NORTHWEST; SOUTHWEST])
    then
      if hasId g id (Vec2.add pos EAST)
      then negb (Iterator.any (hasId g id)
                   (Vec2.inDirs pos [SOUTHEAST; NORTHEAST]))
      else false
    else if Iterator.all (hasId g id)
              (Vec2.inDirs pos [EAST; NORTHEAST; SOUTHEAST])
    then
      if hasId g id (Vec2.add pos WEST)
      then Iterator.any (hasId g id) (Vec2.inDirs pos [SOUTHWEST; NORTHWEST])
      else false
    else true
  else
  let id := getCommonIdInDirs g pos WEST EAST in
  if loose_neq id Null then
    if Iterator.all (hasId g id)
         (Vec2.inDirs pos [NORTH; NORTHWEST; NORTHEAST])
    then
      if hasId g id (Vec2.add pos SOUTH)
      then negb (Iterator.any (hasId g id)
                   (Vec2.inDirs pos [SOUTHWEST; SOUTHEAST]))
      else false
    else if Iterator.all (hasId g id)
              (Vec2.inDirs pos [SOUTH; SOUTHWEST; SOUTHEAST])
    then
      if hasId g id (Vec2.add pos NORTH)
      then Iterator.any (hasId g id) (Vec2.inDirs pos [NORTHWEST; NORTHEAST])
      else false
    else true
  else
  Iterator.any
    (fun dir =>
       let clockwiseDir := Vec2.clockwise dir in
       let id := getCommonIdInDirs g pos dir clockwiseDir in
       loose_neq id Null
       && hasId g id (Vec2.add (Vec2.add pos dir) clockwiseDir))
    ORTHO_DIRS.

(** [getState(pos).id = newId]: the object in the slot keeps its
    constructor and flag.  (On a slot without an object the source would
    raise a TypeError; the slots of the field all hold one.) *)
Definition setId (pos : Vec2.t) (newId : Value) (g : Game) : Game :=
  with_grid (alter (Cell.set_id newId) (index_of g pos) (grid g)) g.

(** [updateId] recurses through the mine group; [fuel] bounds the depth of
    the recursion and [None] means the bound was too small. *)
Fixpoint updateId (fuel : nat) (pos : Vec2.t) (newId : Value)
    (fromDirection : Vec2.t) (g : Game) : option Game :=
  match fuel with
  | O => None
  | S fuel' =>
      if negb (isOutsideField g pos) && loose_neq (getId g pos) newId then
        let g1 := setId pos newId g in
        let mineDirs :=
          Iterator.filter (fun dir => isMine g1 (Vec2.add pos dir))
            ORTHO_DIRS in
        Iterator.eachM
          (fun dir g' =>
             if negb (Vec2.equals dir fromDirection)
             then updateId fuel' (Vec2.add pos dir) newId
                    (Vec2.negate dir) g'
             else Some g')
          mineDirs g1
      else Some g
  end.

(** The rejection test of [generateMine]'s loop. *)
Definition rejects (g : Game) (pos : Vec2.t) : bool :=
  isSurrounded g pos
  || Iterator.any (isSurrounded g) (neighbors g pos)
  || willCreateIsland g pos.

(** The [while] loop of [generateMine]: [pos] already holds the tentative
    mine.  Every turn removes one entry of [minables], so [fuel] need not
    exceed their number. *)
Fixpoint generateMine_loop (fuel : nat) (pos : Vec2.t) (g : Game)
  : Outcome (Vec2.t * Game) :=
  if rejects g pos then
    let g1 := setState pos new_Close g in
    match randomMinablePos g1 with
    | Returns (pos', g2) =>
        let g3 := setState pos' (new_Mine Null) g2 in
        match fuel with
        | O => OutOfFuel
        | S fuel' => generateMine_loop fuel' pos' g3
        end
    | NoMinableSpacesLeft => NoMinableSpacesLeft
    | OutOfFuel => OutOfFuel
    end
  else Returns (pos, g).

(** [Math.min(id, neighborId)] for a [neighborId] that passed [!= null]. *)
Definition Math_min (id : Z) (neighborId : Value) : Z :=
  match neighborId with
  | Num n => Z.min id n
  | _ => id
  end.

(** Depth budget handed to [updateId]: one more than the number of cells. *)
Definition updateId_fuel (g : Game) : nat := S (dimension g * dimension g).

(** The directions of [generateMine]'s [mineDirs]: the orthogonal
    neighbours that are not empty cells. *)
Definition nonEmptyDirs (g : Game) (pos : Vec2.t) : list Vec2.t :=
  Iterator.filter (fun dir => negb (isEmpty g (Vec2.add pos dir))) ORTHO_DIRS.

(** The id [generateMine] settles on: [currentId] lowered to the smallest
    id found on those neighbours. *)
Definition lowestId (g : Game) (pos : Vec2.t) (mineDirs : list Vec2.t) : Z :=
  Iterator.each
    (fun dir id =>
       let neighborId := getId g (Vec2.add pos dir) in
       if loose_neq neighborId Null then Math_min id neighborId else id)
    mineDirs (currentId g).

(** The part of [generateMine] after the loop: group ids. *)
Definition assignId (pos : Vec2.t) (g : Game) : Outcome Game :=
  let mineDirs := nonEmptyDirs g pos in
  if (0 <? length mineDirs)%nat then
    let id := lowestId g pos mineDirs in
    let g1 := setId pos (Num id) g in
    match
      Iterator.eachM
        (fun dir g' =>
           updateId (updateId_fuel g) (Vec2.add pos dir) (Num id)
             (Vec2.negate dir) g')
        mineDirs g1
    with
    | Some g2 => Returns (with_currentId (currentId g2 + 1) g2)
    | None => OutOfFuel
    end
  else Returns g.

(** The position [generateMine] settles on, with the state at that point. *)
Definition acceptedMine (g : Game) : Outcome (Vec2.t * Game) :=
  match randomMinablePos g with
  | Returns (pos, g1) =>
      generateMine_loop (length (minables g1)) pos
        (setState pos (new_Mine Null) g1)
  | NoMinableSpacesLeft => NoMinableSpacesLeft
  | OutOfFuel => OutOfFuel
  end.

Definition generateMine (g : Game) : Outcome Game :=
  match acceptedMine g with
  | Returns (pos, g1) => assignId pos g1
  | NoMinableSpacesLeft => NoMinableSpacesLeft
  | OutOfFuel => OutOfFuel
  end.

(** The positions of the field in the order of the two nested loops
    ([y] outside, [x] inside). *)
Definition range (n : nat) : list Z := List.map Z.of_nat (seq 0 n).

Definition allPositions (d : nat) : list Vec2.t :=
  flat_map (fun y => List.map (fun x => Vec2.new x y) (range d)) (range d).

(** The eligible pool built by [populateMines]. *)
Definition eligible (d : nat) (clickPos : Vec2.t) : list Vec2.t :=
  List.map Vec2.clone
    (List.filter (fun pos => negb (Vec2.adjacentTo clickPos pos))
       (allPositions d)).

(** [n] consecutive calls of [generateMine]. *)
Fixpoint generateMines (n : nat) (g : Game) : Outcome Game :=
  match n with
  | O => Returns g
  | S n' =>
      match generateMine g with
      | Returns g1 => generateMines n' g1
      | NoMinableSpacesLeft => NoMinableSpacesLeft
      | OutOfFuel => OutOfFuel
      end
  end.

(** [populateMines]; the timer it resets at the end is display only. *)
Definition populateMines (clickPos : Vec2.t) (g : Game) : Outcome Game :=
  generateMines (totalMines g)
    (with_minables (eligible (dimension g) clickPos) g).

(** The cells of the field that are [Open], counted for the win log. *)
Definition isOpen (g : Game) (pos : Vec2.t) : bool :=
  instanceof (getState g pos) Open.

Definition countOpen (g : Game) : nat :=
  length (List.filter (isOpen g) (allPositions (dimension g))).

(** [win]: stops the timer and shows the win screen.  The call is logged
    together with the number of cells that are [Open] when it runs. *)
Definition win (g : Game) : Game :=
  with_winLog (winLog g ++ [countOpen g]) g.

(** [lose]: reveals the mines (display only) and records the loss. *)
Definition lose (g : Game) : Game :=
  mkGame (dimension g) (totalMines g) (grid g) (minables g) (currentId g)
    (hasGenMines g) true (numRemainingFlags g) (remainingClearCells g)
    (winLog g) (randomSource g) (drawn g).

(** Truthiness of [getState(pos).flagged], for a slot that holds an
    object. *)
Definition flaggedAt (g : Game) (pos : Vec2.t) : bool :=
  match getState g pos with
  | Some c => is_flagged c
  | None => false
  end.

(** [openCell]; [fuel] bounds the depth of the flood and [None] means the
    bound was too small. *)
Fixpoint openCell (fuel : nat) (pos : Vec2.t) (g : Game) : option Game :=
  match fuel with
  | O => None
  | S fuel' =>
      let neighbors := neighbors g pos in
      let g1 :=
        if flaggedAt g pos
        then with_numRemainingFlags (numRemainingFlags g + 1) g
        else g in
      let g2 := setState pos new_Open g1 in
      let mineCount :=
        Iterator.each
          (fun neighbor count => if isMine g2 neighbor then S count else count)
          neighbors O in
      let flooded :=
        if (mineCount =? 0)%nat then
          Iterator.eachM
            (fun neighbor g' =>
               if isEmpty g' neighbor then openCell fuel' neighbor g'
               else Some g')
            neighbors g2
        else Some g2 in
      match flooded with
      | Some g3 =>
          let g4 :=
            with_remainingClearCells (remainingClearCells g3 - 1) g3 in
          if remainingClearCells g4 =? 0 then Some (win g4) else Some g4
      | None => None
      end
  end.

(** Depth budget handed to [openCell]: one more than the number of cells. *)
Definition openCell_fuel (g : Game) : nat := S (dimension g * dimension g).

(** [grid = []] followed by [numCells] calls of [appendItem]. *)
Definition closedGrid (numCells : nat) : gmap Z Cell.t :=
  fold_left (fun gr i => <[i := new_Close]> gr) (range numCells) ∅.

(** [initGame], without the drawing. *)
Definition initGame (g : Game) : Game :=
  mkGame (dimension g) (totalMines g)
    (closedGrid (dimension g * dimension g)) (minables g) 1
    false false (Z.of_nat (totalMines g))
    (Z.of_nat (dimension g) * Z.of_nat (dimension g) - Z.of_nat (totalMines g))
    (winLog g) (randomSource g) (drawn g).

(** A fresh round of the given size over the given random source. *)
Definition newGame (d m : nat) (source : nat -> nat) : Game :=
  initGame (mkGame d m ∅ [] 1 false false 0 0 [] source O).

(** [toggleFlag]: flips the flag of the cell object and moves the flag
    counter; the caller keeps it away from [Open] cells. *)
Definition toggleFlag (pos : Vec2.t) (g : Game) : Game :=
  if flaggedAt g pos then
    with_numRemainingFlags (numRemainingFlags g + 1)
      (with_grid (alter (Cell.set_flagged false) (index_of g pos) (grid g)) g)
  else
    with_numRemainingFlags (numRemainingFlags g - 1)
      (with_grid (alter (Cell.set_flagged true) (index_of g pos) (grid g)) g).

(** [hasGenMines = true]. *)
Definition markGenerated (g : Game) : Game :=
  mkGame (dimension g) (totalMines g) (grid g) (minables g) (currentId g)
    true (isLost g) (numRemainingFlags g) (remainingClearCells g)
    (winLog g) (randomSource g) (drawn g).

(** The click handler of the game canvas, for a click on the cell
    [clickPos] of the field.  [state] is the cell object read before
    anything else happens. *)
Definition onCanvasClick (clickPos : Vec2.t) (shiftKey : bool) (g : Game)
  : Outcome Game :=
  let state := getState g clickPos in
  if shiftKey then
    if negb (instanceof state Open) then Returns (toggleFlag clickPos g)
    else Returns g
  else if negb (flaggedAt g clickPos) then
    let generated :=
      if negb (hasGenMines g) then
        match populateMines clickPos g with
        | Returns g1 => Returns (markGenerated g1)
        | other => other
        end
      else Returns g in
    match generated with
    | Returns g1 =>
        if instanceof state Mine then Returns (lose g1)
        else if instanceof state Close then
          match openCell (openCell_fuel g1) clickPos g1 with
          | Some g2 => Returns g2
          | None => OutOfFuel
          end
        else Returns g1
    | other => other
    end
  else Returns g.

(** A run of [openCell] calls, each made on a cell that is [Close] at
    that moment; [None] if a call is attempted on any other cell or a
    flood exhausts its budget. *)
Fixpoint openCells (positions : list Vec2.t) (g : Game) : option Game :=
  match positions with
  | [] => Some g
  | pos :: rest =>
      if isEmpty g pos then
        match openCell (openCell_fuel g) pos g with
        | Some g' => openCells rest g'
        | None => None
        end
      else None
  end.

(** ** The timer *)

(** The timer variables ([startTime], [totalTime], [expectedTime],
    [minutes], [seconds], [stopTimer]) are read and written only by the
    code below, so they form a record of their own.  [getTime()] is an
    input of each procedure, in milliseconds; the text set on
    [timerOutput] and the delay handed to [setTimeout] are outputs. *)
Module Timer.
Import String DecimalString.

Record t := make {
  startTime : Z;
  totalTime : Z;
  expectedTime : Z;
  minutes : nat;
  seconds : nat;
  stopTimer : bool
}.

(** [number.toString()] for a whole number that is not negative. *)
Definition toString (number : nat) : string :=
  NilEmpty.string_of_uint (Nat.to_uint number).

Definition twoDigits (number : nat) : string :=
  let string := toString number in
  if (String.length string =? 1)%nat then ("0" ++ string)%string
  else string.

(** What one run of [tickTimer] shows and schedules. *)
Record Effects := effects { timerOutput : string; timeout : Z }.

(** The end of [populateMines]: the timer is reset and the first
    [tickTimer] is scheduled after 1000 ms. *)
Definition start (now : Z) (tm : t) : t * Z :=
  (make now 0 0 O O false, 1000).

(** [stopTimer = true], as in [win], [lose] and [initGame]. *)
Definition stop (tm : t) : t :=
  make (startTime tm) (totalTime tm) (expectedTime tm)
    (minutes tm) (seconds tm) true.

Definition tickTimer (now : Z) (tm : t) : t * option Effects :=
  if negb (stopTimer tm) then
    let newTime := now in
    let deltaTime := newTime - startTime tm in
    let totalTime' := totalTime tm + deltaTime in
    let expectedTime' := expectedTime tm + 1000 in
    let startTime' := newTime in
    let clock :=
      if (seconds tm =? 59)%nat then (S (minutes tm), O)
      else (minutes tm, S (seconds tm)) in
    (make startTime' totalTime' expectedTime' (fst clock) (snd clock)
       (stopTimer tm),
     Some (effects
             (twoDigits (fst clock) ++ ":" ++ twoDigits (snd clock))%string
             (1000 + expectedTime' - totalTime')))
  else (tm, None).

(** The callbacks that fire one after the other, each with the value
    [getTime()] gives it. *)
Definition ticks (times : list Z) (tm : t) : t :=
  fold_left (fun tm now => fst (tickTimer now tm)) times tm.

End Timer.

(** ** The settings screen *)

(** The numbers that pass through the settings screen come from
    [getNumber] and [getProperty], which may give [NaN] or a finite
    number that is not whole; numbers are rationals here.
    [newDimension] and [newTotalMines] start out [undefined], which
    every operation used here treats as it treats [NaN].  The state is
    the two variables and the [max] property of [minesSlider]; the
    values written to the widgets for display only are left out. *)
Module Settings.
Import QArith Qround.

Inductive JsNum := NaN | Num (q : Q).

Definition isNaN (n : JsNum) : bool :=
  match n with NaN => true | Num _ => false end.

(** [a > b] and [a < b]: false as soon as one side is [NaN]. *)
Definition gt (a b : JsNum) : bool :=
  match a, b with
  | Num p, Num q => negb (Qle_bool p q)
  | _, _ => false
  end.

Definition lt (a b : JsNum) : bool := gt b a.

Definition mul (a b : JsNum) : JsNum :=
  match a, b with
  | Num p, Num q => Num (p * q)
  | _, _ => NaN
  end.

(** [a / 3], the one division of the source. *)
Definition div_by_3 (a : JsNum) : JsNum :=
  match a with
  | Num p => Num (p / 3)
  | NaN => NaN
  end.

Definition Math_floor (n : JsNum) : JsNum :=
  match n with
  | Num q => Num (inject_Z (Qfloor q))
  | NaN => NaN
  end.

Record t := make {
  newDimension : JsNum;
  newTotalMines : JsNum;
  minesSliderMax : JsNum
}.

Definition adjustMinesSlider (s : t) : t :=
  let maxTotalMines :=
    Math_floor (div_by_3 (mul (newDimension s) (newDimension s))) in
  let newTotalMines' :=
    if gt (newTotalMines s) maxTotalMines then maxTotalMines
    else newTotalMines s in
  make (newDimension s) newTotalMines' maxTotalMines.


(** The change handler of [dimensionInput]; [inputDimension] is what
    [getNumber("dimensionInput")] gives.  The first test reads
    [newDimension], as the source does. *)
Definition dimensionInput_change (inputDimension : JsNum) (s : t) : t :=
  let newDimension' :=
    if isNaN (newDimension s) || gt inputDimension (Num 20) then Num 20
    else if lt inputDimension (Num 4) then Num 4
    else inputDimension in
  adjustMinesSlider
    (make newDimension' (newTotalMines s) (minesSliderMax s)).

(** The input handler of [dimensionSlider]. *)
Definition dimensionSlider_input (sliderValue : JsNum) (s : t) : t :=
  adjustMinesSlider (make sliderValue (newTotalMines s) (minesSliderMax s)).

(** The change handler of [minesInput]. *)
Definition minesInput_change (inputTotalMines : JsNum) (s : t) : t :=
  let maxMines := minesSliderMax s in
  let newTotalMines' :=
    if isNaN inputTotalMines || gt inputTotalMines maxMines then maxMines
    else if lt inputTotalMines (Num 4) then Num 4
    else inputTotalMines in
  make (newDimension s) newTotalMines' (minesSliderMax s).

(** The input handler of [minesSlider]. *)
Definition minesSlider_input (sliderValue : JsNum) (s : t) : t :=
  make (newDimension s) sliderValue (minesSliderMax s).

(** What [saveButton] copies into [dimension] and [totalMines]. *)
Definition saveButton_click (s : t) : JsNum * JsNum :=
  (newDimension s, newTotalMines s).

(** The two change handlers, as events; a number was typed into
    [dimensionInput], anything into [minesInput]. *)
Inductive Event :=
  | DimensionChange (typed : Q)
  | MinesChange (typed : JsNum).

Definition handle (s : t) (e : Event) : t :=
  match e with
  | DimensionChange typed => dimensionInput_change (Num typed) s
  | MinesChange typed => minesInput_change typed s
  end.


End Settings.

(** * Properties *)

(** ** The field and its indices *)

Definition inField (g : Game) (pos : Vec2.t) : Prop :=
  isOutsideField g pos = false.

Lemma inField_spec g pos :
  inField g pos <->
  0 <= Vec2.x pos < Z.of_nat (dimension g)
  /\ 0 <= Vec2.y pos < Z.of_nat (dimension g).
Proof.
  unfold inField, isOutsideField.
  rewrite !orb_false_iff, !Z.ltb_ge, !Z.leb_gt. lia.
Qed.

Lemma inField_dim g g' pos :
  dimension g' = dimension g -> inField g pos -> inField g' pos.
Proof. rewrite !inField_spec. intros ->. auto. Qed.

Lemma isOutsideField_dim g g' pos :
  dimension g' = dimension g -> isOutsideField g' pos = isOutsideField g pos.
Proof. unfold isOutsideField. intros ->. reflexivity. Qed.

Lemma index_of_inj g p q :
  inField g p -> inField g q -> index_of g p = index_of g q -> p = q.
Proof.
  rewrite !inField_spec. unfold index_of.
  destruct p as [px py], q as [qx qy]; simpl. intros Hp Hq Heq.
  assert (py = qy) by nia. subst qy.
  assert (px = qx) by lia. subst qx. reflexivity.
Qed.

Lemma in_range n z : In z (range n) <-> 0 <= z < Z.of_nat n.
Proof.
  unfold range. rewrite in_map_iff. split.
  - intros (k & <- & Hk). apply in_seq in Hk. lia.
  - intros Hz. exists (Z.to_nat z). split; [lia|]. apply in_seq. lia.
Qed.

Lemma NoDup_range n : List.NoDup (range n).
Proof.
  unfold range. apply Finite.Injective_map_NoDup.
  - intros a b Hab. lia.
  - apply seq_NoDup.
Qed.

Lemma in_allPositions g pos :
  In pos (allPositions (dimension g)) <-> inField g pos.
Proof.
  rewrite inField_spec. unfold allPositions. rewrite in_flat_map. split.
  - intros (y & Hy & Hin). apply in_map_iff in Hin as (x & <- & Hx).
    apply in_range in Hx, Hy. simpl. lia.
  - intros [Hx Hy]. exists (Vec2.y pos). split; [by apply in_range|].
    apply in_map_iff. exists (Vec2.x pos). split; [by destruct pos|].
    by apply in_range.
Qed.

Lemma NoDup_flat_map_disjoint {A B} (f : A -> list B) (l : list A) :
  List.NoDup l ->
  (forall a, In a l -> List.NoDup (f a)) ->
  (forall a a' b, In a l -> In a' l -> In b (f a) -> In b (f a') -> a = a') ->
  List.NoDup (flat_map f l).
Proof.
  induction 1 as [|a l Hnotin Hnd IH]; intros Hf Hdisj; simpl.
  - constructor.
  - apply List.NoDup_app.
    + apply Hf. by left.
    + apply IH.
      * intros; apply Hf; by right.
      * intros; eapply Hdisj; eauto; by right.
    + intros b Hb Hb'. apply in_flat_map in Hb' as (a' & Ha' & Hb').
      assert (a = a') by (eapply Hdisj; eauto; [by left|by right]).
      subst a'. by apply Hnotin.
Qed.

Lemma NoDup_allPositions d : List.NoDup (allPositions d).
Proof.
  unfold allPositions. apply NoDup_flat_map_disjoint.
  - apply NoDup_range.
  - intros y _. apply Finite.Injective_map_NoDup; [|apply NoDup_range].
    intros a b Hab. by inversion Hab.
  - intros y y' b _ _ Hb Hb'.
    apply in_map_iff in Hb as (x & <- & _).
    apply in_map_iff in Hb' as (x' & Heq & _). by inversion Heq.
Qed.

Lemma length_allPositions d : length (allPositions d) = (d * d)%nat.
Proof.
  unfold allPositions.
  assert (Hrow : forall l : list Z,
             length (flat_map (fun y => List.map (fun x => Vec2.new x y) (range d)) l)
             = (length l * d)%nat).
  { induction l as [|a l IH]; simpl; [reflexivity|].
    rewrite length_app, IH, length_map. unfold range.
    rewrite length_map, length_seq. reflexivity. }
  rewrite Hrow. unfold range. rewrite length_map, length_seq. reflexivity.
Qed.

(** ** Lists *)

Lemma forallb_ext_in {A} (f f' : A -> bool) (l : list A) :
  (forall a, In a l -> f a = f' a) -> forallb f l = forallb f' l.
Proof.
  induction l as [|a l IH]; intros H; simpl; [reflexivity|].
  rewrite H by (by left). rewrite IH; [reflexivity|].
  intros; apply H; by right.
Qed.

Lemma filter_ext_in_list {A} (f f' : A -> bool) (l : list A) :
  (forall a, In a l -> f a = f' a) -> List.filter f l = List.filter f' l.
Proof.
  induction l as [|a l IH]; intros H; simpl; [reflexivity|].
  rewrite H by (by left). rewrite IH; [reflexivity|].
  intros; apply H; by right.
Qed.

(** Turning one element of a duplicate-free list from rejected to accepted
    makes the filtered list one longer. *)
Lemma filter_length_flip {A} (f f' : A -> bool) (l : list A) (a : A) :
  List.NoDup l -> In a l -> f a = false -> f' a = true ->
  (forall b, In b l -> b <> a -> f' b = f b) ->
  length (List.filter f' l) = S (length (List.filter f l)).
Proof.
  induction 1 as [|b l Hnotin Hnd IH]; intros Hin Hfa Hfa' Hother; [done|].
  simpl. destruct Hin as [->|Hin].
  - rewrite Hfa, Hfa'. simpl. f_equal. f_equal. apply filter_ext_in_list.
    intros c Hc. apply Hother; [by right|]. intros ->. done.
  - assert (b <> a) by (intros ->; done).
    rewrite (Hother b) by (done || by left).
    destruct (f b); simpl; rewrite IH; auto; intros; apply Hother; auto;
      by right.
Qed.

Lemma filter_length_le {A} (f f' : A -> bool) (l : list A) :
  (forall a, In a l -> f' a = true -> f a = true) ->
  (length (List.filter f' l) <= length (List.filter f l))%nat.
Proof.
  induction l as [|a l IH]; intros H; simpl; [lia|].
  assert (IH' := IH (fun b Hb => H b (or_intror Hb))).
  destruct (f' a) eqn:Hfa'.
  - rewrite (H a) by (done || by left). simpl. lia.
  - destruct (f a); simpl; lia.
Qed.

Lemma filter_length_lt {A} (f f' : A -> bool) (l : list A) (a : A) :
  In a l -> f a = true -> f' a = false ->
  (forall b, In b l -> f' b = true -> f b = true) ->
  (length (List.filter f' l) < length (List.filter f l))%nat.
Proof.
  induction l as [|b l IH]; intros Hin Hfa Hfa' H; [done|]. simpl.
  assert (Hle := filter_length_le f f' l (fun c Hc => H c (or_intror Hc))).
  destruct Hin as [->|Hin].
  - rewrite Hfa, Hfa'. simpl. lia.
  - assert (IH' := IH Hin Hfa Hfa' (fun c Hc => H c (or_intror Hc))).
    destruct (f' b) eqn:Hfb'.
    + rewrite (H b) by (done || by left). simpl. lia.
    + destruct (f b); simpl; lia.
Qed.

(** ** Reading and writing cells *)

Lemma setState_dimension pos c g : dimension (setState pos c g) = dimension g.
Proof. reflexivity. Qed.

Lemma setId_dimension pos n g : dimension (setId pos n g) = dimension g.
Proof. reflexivity. Qed.

Lemma getState_setState_eq pos c g : getState (setState pos c g) pos = Some c.
Proof. unfold getState, setState, index_of; simpl. apply lookup_insert_eq. Qed.

Lemma getState_setState_ne pos q c g :
  inField g pos -> inField g q -> pos <> q ->
  getState (setState pos c g) q = getState g q.
Proof.
  intros Hp Hq Hne. unfold getState, setState; simpl.
  change (index_of (with_grid _ g) q) with (index_of g q).
  apply lookup_insert_ne. intros Heq. apply Hne. eauto using index_of_inj.
Qed.

Lemma setState_overwrite pos c c' g :
  setState pos c (setState pos c' g) = setState pos c g.
Proof.
  unfold setState, with_grid, index_of; simpl. by rewrite insert_insert_eq.
Qed.

Lemma setState_same pos c g :
  getState g pos = Some c -> setState pos c g = g.
Proof.
  unfold getState, setState, with_grid. intros H.
  rewrite insert_id by exact H. by destruct g.
Qed.

Lemma getState_setId_eq pos n g :
  getState (setId pos n g) pos = Cell.set_id n <$> getState g pos.
Proof. unfold getState, setId, index_of; simpl. apply lookup_alter_eq. Qed.

Lemma getState_setId_ne pos q n g :
  inField g pos -> inField g q -> pos <> q ->
  getState (setId pos n g) q = getState g q.
Proof.
  intros Hp Hq Hne. unfold getState, setId; simpl.
  change (index_of (with_grid _ g) q) with (index_of g q).
  apply lookup_alter_ne. intros Heq. apply Hne. eauto using index_of_inj.
Qed.

Lemma isEmpty_spec g pos :
  isEmpty g pos = true <->
  inField g pos /\ exists c, getState g pos = Some c /\ Cell.ctor c = Close.
Proof.
  unfold isEmpty, inField, instanceof.
  rewrite andb_true_iff, negb_true_iff.
  destruct (getState g pos) as [c|]; split.
  - intros [H1 H2%bool_decide_eq_true]. eauto.
  - intros [H1 (c' & [= <-] & H2)]. split; [done|]. by apply bool_decide_eq_true.
  - intros [_ ?]; discriminate.
  - intros [_ (c' & ? & _)]; discriminate.
Qed.

Lemma isMine_spec g pos :
  isMine g pos = true <->
  exists c, getState g pos = Some c /\ Cell.ctor c = Mine.
Proof.
  unfold isMine, instanceof. destruct (getState g pos) as [c|]; split.
  - intros H%bool_decide_eq_true. eauto.
  - intros (c' & [= <-] & H). by apply bool_decide_eq_true.
  - discriminate.
  - intros (c' & ? & _); discriminate.
Qed.

Lemma isEmpty_inField g pos : isEmpty g pos = true -> inField g pos.
Proof. intros H%isEmpty_spec. tauto. Qed.

Lemma isEmpty_not_mine g pos : isEmpty g pos = true -> isMine g pos = false.
Proof.
  intros (_ & c & Hc & Hk)%isEmpty_spec. unfold isMine, instanceof.
  rewrite Hc. apply bool_decide_eq_false. congruence.
Qed.

(** Two states whose cells were made by the same constructors. *)
Definition sameCtors (g g' : Game) : Prop :=
  dimension g' = dimension g
  /\ forall pos, inField g pos ->
       Cell.ctor <$> getState g' pos = Cell.ctor <$> getState g pos.

Lemma sameCtors_refl g : sameCtors g g.
Proof. split; auto. Qed.

Lemma sameCtors_isMine g g' pos :
  sameCtors g g' -> inField g pos -> isMine g' pos = isMine g pos.
Proof.
  intros [_ H] Hp. specialize (H pos Hp). unfold isMine, instanceof.
  destruct (getState g' pos), (getState g pos); simpl in H; try congruence.
  by injection H as ->.
Qed.

Lemma sameCtors_isEmpty g g' pos :
  sameCtors g g' -> isEmpty g' pos = isEmpty g pos.
Proof.
  intros [Hd H]. unfold isEmpty. rewrite (isOutsideField_dim g g') by done.
  destruct (isOutsideField g pos) eqn:Hout; [done|]. simpl.
  specialize (H pos Hout). unfold instanceof.
  destruct (getState g' pos), (getState g pos); simpl in H; try congruence.
  by injection H as ->.
Qed.

Lemma neighbors_inField g pos q : In q (neighbors g pos) -> inField g q.
Proof.
  unfold neighbors, Iterator.filter. intros [_ H]%filter_In.
  by apply negb_true_iff in H.
Qed.

Lemma neighbors_dim g g' pos :
  dimension g' = dimension g -> neighbors g' pos = neighbors g pos.
Proof.
  intros Hd. unfold neighbors, Iterator.filter. apply filter_ext.
  intros q. by rewrite (isOutsideField_dim g g').
Qed.

Lemma sameCtors_isSurrounded g g' pos :
  sameCtors g g' -> isSurrounded g' pos = isSurrounded g pos.
Proof.
  intros Hs. unfold isSurrounded, Iterator.all.
  rewrite (neighbors_dim g g') by apply Hs.
  apply forallb_ext_in.
  intros q Hq. apply sameCtors_isMine; eauto using neighbors_inField.
Qed.

(** ** Drawing from the pool *)

Lemma randomMinablePos_spec g pos g2 :
  randomMinablePos g = Returns (pos, g2) ->
  exists l1 l2,
    minables g = l1 ++ pos :: l2
    /\ g2 = with_minables (l1 ++ l2) (with_drawn (S (drawn g)) g).
Proof.
  unfold randomMinablePos, randomNumber, removeItem.
  destruct (minables g) as [|first rest] eqn:Hm; [discriminate|].
  change (minables (with_drawn (S (drawn g)) g)) with (minables g).
  rewrite Hm. set (l := first :: rest) in *.
  set (index := (0 + _ mod _)%nat).
  intros [= <- <-].
  assert (Hlen : (length l - 1 - 0 + 1 = length l)%nat) by (simpl; lia).
  assert (Hidx : (index < length l)%nat).
  { subst index. rewrite Hlen, Nat.add_0_l.
    apply Nat.mod_upper_bound. subst l. discriminate. }
  exists (firstn index l), (skipn (S index) l). split; [|reflexivity].
  symmetry. apply firstn_skipn_middle.
  change (nth_error l index = Some (nth index l first)).
  by apply nth_error_nth'.
Qed.

Lemma randomMinablePos_empty g :
  randomMinablePos g = NoMinableSpacesLeft <-> minables g = [].
Proof.
  unfold randomMinablePos. destruct (minables g); simpl; split; try done.
Qed.

Lemma randomMinablePos_fuel g : randomMinablePos g <> OutOfFuel.
Proof. unfold randomMinablePos. destruct (minables g); simpl; done. Qed.

(** ** The state between two draws *)

(** [Base click g]: every slot of the field holds a [Close] or a [Mine]
    object, the pool has no duplicates and holds only [Close] cells away
    from the first click, and no mine is next to the first click. *)
Record Base (click : Vec2.t) (g : Game) : Prop := {
  base_total :
    forall p, inField g p -> isEmpty g p = true \/ isMine g p = true;
  base_nodup : List.NoDup (minables g);
  base_minables :
    forall p, In p (minables g) ->
      isEmpty g p = true /\ Vec2.adjacentTo click p = false;
  base_mines :
    forall p, inField g p -> isMine g p = true ->
      Vec2.adjacentTo click p = false
}.

(** [reclosed g pos gc]: [gc] is [g] after [pos], a [Close] cell of the
    pool, was drawn and its slot rewritten with a new [Close] object. *)
Definition reclosed (g : Game) (pos : Vec2.t) (gc : Game) : Prop :=
  isEmpty g pos = true
  /\ exists l,
      gc = setState pos new_Close (with_minables l (with_drawn (S (drawn g)) g)).

Lemma reclosed_getState_eq g pos gc :
  reclosed g pos gc -> getState gc pos = Some new_Close.
Proof. intros (_ & l & ->). apply getState_setState_eq. Qed.

Lemma reclosed_getState_ne g pos gc q :
  reclosed g pos gc -> inField g q -> q <> pos ->
  getState gc q = getState g q.
Proof.
  intros (He & l & ->) Hq Hne.
  rewrite getState_setState_ne; [reflexivity|..]; try done.
  by apply isEmpty_inField in He.
Qed.

Lemma reclosed_dimension g pos gc : reclosed g pos gc -> dimension gc = dimension g.
Proof. by intros (_ & l & ->). Qed.

Lemma reclosed_currentId g pos gc : reclosed g pos gc -> currentId gc = currentId g.
Proof. by intros (_ & l & ->). Qed.

Lemma reclosed_sameCtors g pos gc : reclosed g pos gc -> sameCtors g gc.
Proof.
  intros Hr. split; [by eapply reclosed_dimension|]. intros q Hq.
  destruct (decide (q = pos)) as [->|Hne].
  - rewrite (reclosed_getState_eq _ _ _ Hr).
    destruct Hr as [(_ & c & -> & Hc)%isEmpty_spec _]. simpl. by rewrite Hc.
  - by rewrite (reclosed_getState_ne _ _ _ _ Hr).
Qed.

Lemma reclosed_isMine g pos gc q :
  reclosed g pos gc -> inField g q -> isMine gc q = isMine g q.
Proof. intros Hr. apply sameCtors_isMine. by eapply reclosed_sameCtors. Qed.

Lemma reclosed_getId_mine g pos gc q :
  reclosed g pos gc -> inField g q -> isMine g q = true ->
  getId gc q = getId g q.
Proof.
  intros Hr Hq Hm. unfold getId.
  rewrite (isOutsideField_dim g gc) by (by eapply reclosed_dimension).
  destruct (isOutsideField g q); [done|].
  rewrite (reclosed_getState_ne _ _ _ _ Hr); try done.
  intros ->. destruct Hr as [He _]. apply isEmpty_not_mine in He. congruence.
Qed.

Lemma Base_draw click g pos g2 :
  Base click g -> randomMinablePos g = Returns (pos, g2) ->
  let gc := setState pos new_Close g2 in
  reclosed g pos gc /\ Base click gc
  /\ ~ In pos (minables gc) /\ Vec2.adjacentTo click pos = false
  /\ (length (minables gc) < length (minables g))%nat.
Proof.
  intros HB (l1 & l2 & Hm & ->)%randomMinablePos_spec gc.
  assert (Hin : In pos (minables g)) by (rewrite Hm; apply in_elt).
  destruct (base_minables _ _ HB pos Hin) as [He Hadj].
  assert (Hr : reclosed g pos gc) by (split; [done|by exists (l1 ++ l2)]).
  assert (Hnd := base_nodup _ _ HB). rewrite Hm in Hnd.
  apply NoDup_remove in Hnd as [Hnd Hnotin].
  assert (Hsame := reclosed_sameCtors _ _ _ Hr).
  split; [done|]. split; [|split; [done|split; [done|]]].
  - split.
    + intros p Hp. rewrite (sameCtors_isEmpty g gc) by done.
      rewrite (sameCtors_isMine g gc) by (done || by eapply inField_dim).
      apply (base_total _ _ HB). by eapply inField_dim.
    + done.
    + intros p Hp. rewrite (sameCtors_isEmpty g gc) by done.
      apply (base_minables _ _ HB). rewrite Hm.
      change (minables gc) with (l1 ++ l2) in Hp.
      apply in_app_or in Hp. apply in_or_app. destruct Hp; [by left|].
      right; by right.
    + intros p Hp. rewrite (sameCtors_isMine g gc) by done.
      by apply (base_mines _ _ HB).
  - change (minables gc) with (l1 ++ l2). rewrite Hm, !length_app. simpl. lia.
Qed.

(** ** The retry loop *)

Section Loop.

Variable click : Vec2.t.

(** Any property of the states between draws that survives a draw. *)
Variable I : Game -> Prop.
Hypothesis I_reclosed : forall g pos gc, reclosed g pos gc -> I g -> I gc.

(** What holds where the loop is entered or left: [g] is [gc] with a
    tentative mine at [pos]. *)
Definition tentative (gc : Game) (pos : Vec2.t) (g : Game) : Prop :=
  g = setState pos (new_Mine Null) gc
  /\ Base click gc /\ I gc
  /\ getState gc pos = Some new_Close /\ inField gc pos
  /\ ~ In pos (minables gc) /\ Vec2.adjacentTo click pos = false.

Lemma generateMine_loop_spec fuel : forall pos gc g,
  tentative gc pos g ->
  (length (minables gc) <= fuel)%nat ->
  match generateMine_loop fuel pos g with
  | Returns (pos', g') =>
      exists gc', tentative gc' pos' g' /\ rejects g' pos' = false
  | NoMinableSpacesLeft => True
  | OutOfFuel => False
  end.
Proof.
  induction fuel as [|fuel IH]; intros pos gc g Ht Hfuel.
  - destruct Ht as (-> & HB & HI & Hc & Hin & Hnot & Hadj).
    simpl. destruct (rejects _ pos) eqn:Hrej.
    + rewrite setState_overwrite, (setState_same _ _ _ Hc).
      assert (minables gc = []) as Hnil
          by (destruct (minables gc); [done|simpl in Hfuel; lia]).
      apply randomMinablePos_empty in Hnil. by rewrite Hnil.
    + exists gc. done.
  - pose proof Ht as (-> & HB & HI & Hc & Hin & Hnot & Hadj).
    simpl. destruct (rejects _ pos) eqn:Hrej; [|by exists gc].
    rewrite setState_overwrite, (setState_same _ _ _ Hc).
    destruct (randomMinablePos gc) as [[pos' g2]| |] eqn:Hdraw; [|done|].
    + destruct (Base_draw click gc pos' g2 HB Hdraw)
        as (Hr & HB' & Hnot' & Hadj' & Hlen).
      apply (IH pos' (setState pos' new_Close g2)).
      * split; [by rewrite setState_overwrite|].
        split; [done|]. split; [by eapply I_reclosed|].
        split; [apply getState_setState_eq|].
        split; [|done].
        eapply inField_dim; [by eapply reclosed_dimension|].
        destruct Hr as [He _]. by apply isEmpty_inField in He.
      * lia.
    + by apply randomMinablePos_fuel in Hdraw.
Qed.

Lemma acceptedMine_spec g :
  Base click g -> I g ->
  match acceptedMine g with
  | Returns (pos', g') =>
      exists gc', tentative gc' pos' g' /\ rejects g' pos' = false
  | NoMinableSpacesLeft => True
  | OutOfFuel => False
  end.
Proof.
  intros HB HI. unfold acceptedMine.
  destruct (randomMinablePos g) as [[pos g2]| |] eqn:Hdraw; [|done|].
  - destruct (Base_draw click g pos g2 HB Hdraw)
      as (Hr & HB' & Hnot' & Hadj' & Hlen).
    apply (generateMine_loop_spec _ pos (setState pos new_Close g2)).
    + split; [by rewrite setState_overwrite|].
      split; [done|]. split; [by eapply I_reclosed|].
      split; [apply getState_setState_eq|].
      split; [|done].
      eapply inField_dim; [by eapply reclosed_dimension|].
      destruct Hr as [He _]. by apply isEmpty_inField in He.
    + done.
  - by apply randomMinablePos_fuel in Hdraw.
Qed.

End Loop.

(** ** Loops over a list with a budget *)

Lemma eachM_rest {A S} (R : list A -> S -> Prop) (f : A -> S -> option S) :
  (forall a rest s s', R (a :: rest) s -> f a s = Some s' -> R rest s') ->
  forall l s s', R l s -> Iterator.eachM f l s = Some s' -> R [] s'.
Proof.
  intros Hstep. induction l as [|a l IH]; intros s s' HR Hrun; simpl in Hrun.
  - by injection Hrun as <-.
  - destruct (f a s) as [s1|] eqn:Hf; [|discriminate]. eauto.
Qed.

Lemma eachM_preserves {A S} (R : S -> Prop) (f : A -> S -> option S) l :
  (forall a s s', In a l -> R s -> f a s = Some s' -> R s') ->
  forall s s', R s -> Iterator.eachM f l s = Some s' -> R s'.
Proof.
  induction l as [|a l IH]; intros Hstep s s' HR Hrun; simpl in Hrun.
  - by injection Hrun as <-.
  - destruct (f a s) as [s1|] eqn:Hf; [|discriminate].
    eapply IH; [| |exact Hrun].
    + intros; eapply Hstep; eauto. by right.
    + eapply Hstep; eauto. by left.
Qed.

Lemma eachM_runs {A S} (R : S -> Prop) (f : A -> S -> option S) l :
  (forall a s, In a l -> R s -> exists s', f a s = Some s' /\ R s') ->
  forall s, R s -> exists s', Iterator.eachM f l s = Some s' /\ R s'.
Proof.
  induction l as [|a l IH]; intros Hstep s HR; simpl.
  - eauto.
  - destruct (Hstep a s) as (s1 & -> & HR1); [by left|done|].
    apply IH; [|done]. intros; apply Hstep; [by right|done].
Qed.

(** ** Propagating an id *)

(** Every slot of the field holds an object. *)
Definition total (g : Game) : Prop :=
  forall p, inField g p -> is_Some (getState g p).

(** [idsTo n g g']: [g'] is [g] except that some cells had their id set
    to [n]. *)
Definition idsTo (n : Value) (g g' : Game) : Prop :=
  (exists gr, g' = with_grid gr g)
  /\ forall p, inField g p ->
       getState g' p = getState g p
       \/ getState g' p = Cell.set_id n <$> getState g p.

Lemma idsTo_dimension n g g' : idsTo n g g' -> dimension g' = dimension g.
Proof. by intros [(gr & ->) _]. Qed.

Lemma idsTo_refl n g : idsTo n g g.
Proof.
  split; [|by left]. exists (grid g). by destruct g.
Qed.

Lemma idsTo_trans n g1 g2 g3 : idsTo n g1 g2 -> idsTo n g2 g3 -> idsTo n g1 g3.
Proof.
  intros [(gr & ->) H1] [(gr' & ->) H2]. split; [by exists gr'|].
  intros p Hp. destruct (H2 p Hp) as [-> | ->]; destruct (H1 p Hp) as [-> | ->];
    auto.
  right. by destruct (getState g1 p).
Qed.

Lemma idsTo_setId n g pos : inField g pos -> idsTo n g (setId pos n g).
Proof.
  intros Hpos. split; [by eexists|]. intros p Hp.
  destruct (decide (p = pos)) as [->|Hne].
  - right. apply getState_setId_eq.
  - left. by apply getState_setId_ne.
Qed.

Lemma idsTo_sameCtors n g g' : idsTo n g g' -> sameCtors g g'.
Proof.
  intros Hi. split; [by eapply idsTo_dimension|]. intros p Hp.
  destruct Hi as [_ H]. destruct (H p Hp) as [-> | ->]; [done|].
  by destruct (getState g p).
Qed.

Lemma idsTo_total n g g' : idsTo n g g' -> total g -> total g'.
Proof.
  intros Hi Ht p Hp.
  assert (Hp' : inField g p) by (eapply inField_dim; [|done]; symmetry; by eapply idsTo_dimension).
  destruct Hi as [_ H]. destruct (Ht p Hp') as [c Hc].
  destruct (H p Hp') as [-> | ->]; rewrite Hc; eauto.
Qed.

Lemma idsTo_getId n g g' p :
  idsTo n g g' -> inField g p ->
  getId g' p = getId g p \/ getId g' p = n.
Proof.
  intros Hi Hp. unfold getId.
  rewrite (isOutsideField_dim g g') by (by eapply idsTo_dimension).
  rewrite Hp. destruct Hi as [_ H].
  destruct (H p Hp) as [-> | ->]; [by left|].
  destruct (getState g p); simpl; auto.
Qed.

Lemma loose_eq_refl n : loose_eq n n = true.
Proof. destruct n; simpl; auto. apply Z.eqb_refl. Qed.

Lemma loose_eq_Num v i : loose_eq v (Num i) = true <-> v = Num i.
Proof.
  destruct v; simpl; split; try done.
  - intros H%Z.eqb_eq. by subst.
  - intros [= ->]. apply Z.eqb_refl.
Qed.

Lemma getId_setId n g pos :
  inField g pos -> is_Some (getState g pos) -> getId (setId pos n g) pos = n.
Proof.
  intros Hp [c Hc]. unfold getId.
  rewrite (isOutsideField_dim g) by done. rewrite Hp.
  by rewrite getState_setId_eq, Hc.
Qed.

(** The cells of the field whose id differs from [n]. *)
Definition differs (n : Value) (g : Game) (p : Vec2.t) : bool :=
  loose_neq (getId g p) n.

Definition countDiffer (n : Value) (g : Game) : nat :=
  length (List.filter (differs n g) (allPositions (dimension g))).

Lemma idsTo_differs n g g' p :
  idsTo n g g' -> inField g p -> differs n g' p = true -> differs n g p = true.
Proof.
  intros Hi Hp. unfold differs.
  destruct (idsTo_getId n g g' p Hi Hp) as [-> | ->]; [done|].
  unfold loose_neq. by rewrite loose_eq_refl.
Qed.

Lemma idsTo_countDiffer n g g' :
  idsTo n g g' -> (countDiffer n g' <= countDiffer n g)%nat.
Proof.
  intros Hi. unfold countDiffer. rewrite (idsTo_dimension _ _ _ Hi).
  apply filter_length_le. intros p Hp%in_allPositions.
  by apply idsTo_differs.
Qed.

Lemma setId_countDiffer n g pos :
  inField g pos -> is_Some (getState g pos) -> differs n g pos = true ->
  (countDiffer n (setId pos n g) < countDiffer n g)%nat.
Proof.
  intros Hp Hc Hd. unfold countDiffer. rewrite setId_dimension.
  apply (filter_length_lt _ _ _ pos).
  - by apply in_allPositions.
  - done.
  - unfold differs, loose_neq. rewrite getId_setId by done.
    by rewrite loose_eq_refl.
  - intros q Hq%in_allPositions. apply idsTo_differs; [|done].
    by apply idsTo_setId.
Qed.

Lemma countDiffer_bound n g : (countDiffer n g <= dimension g * dimension g)%nat.
Proof.
  unfold countDiffer. rewrite <- (length_allPositions (dimension g)).
  apply List.filter_length_le.
Qed.

Lemma updateId_idsTo fuel : forall pos n from g g',
  updateId fuel pos n from g = Some g' -> idsTo n g g'.
Proof.
  induction fuel as [|fuel IH]; intros pos n from g g' Hrun; [done|].
  simpl in Hrun.
  destruct (negb (isOutsideField g pos) && loose_neq (getId g pos) n) eqn:Hc.
  - apply andb_true_iff in Hc as [Hin%negb_true_iff _].
    revert Hrun. apply eachM_preserves; [|by apply idsTo_setId].
    intros dir s s' _ Hs Hstep.
    destruct (negb (Vec2.equals dir from)).
    + eapply idsTo_trans; eauto.
    + by injection Hstep as <-.
  - injection Hrun as <-. apply idsTo_refl.
Qed.

Lemma updateId_runs fuel : forall pos n from g,
  total g -> (countDiffer n g < fuel)%nat ->
  exists g', updateId fuel pos n from g = Some g'.
Proof.
  induction fuel as [|fuel IH]; intros pos n from g Ht Hfuel; [lia|].
  simpl.
  destruct (negb (isOutsideField g pos) && loose_neq (getId g pos) n) eqn:Hc;
    [|eauto].
  apply andb_true_iff in Hc as [Hin%negb_true_iff Hd].
  assert (Hlt := setId_countDiffer n g pos Hin (Ht pos Hin) Hd).
  set (g1 := setId pos n g) in *.
  assert (Hi1 : idsTo n g g1) by (by apply idsTo_setId).
  match goal with |- exists g', Iterator.eachM ?f ?l g1 = _ =>
    destruct (eachM_runs (fun s => idsTo n g1 s) f l) with (s := g1)
      as (g' & Hrun & _)
  end; [|apply idsTo_refl|eauto].
  intros dir s _ Hs. destruct (negb (Vec2.equals dir from)).
  - destruct (IH (Vec2.add pos dir) n (Vec2.negate dir) s) as [s' Hs'].
    + eapply idsTo_total; [exact Hs|]. eapply idsTo_total; eauto.
    + assert (Hle := idsTo_countDiffer _ _ _ Hs). lia.
    + exists s'. split; [done|].
      eapply idsTo_trans; [exact Hs|]. by eapply updateId_idsTo.
  - eauto.
Qed.

Lemma equals_spec a b : Vec2.equals a b = true <-> a = b.
Proof.
  unfold Vec2.equals. rewrite andb_true_iff, !Z.eqb_eq.
  destruct a, b; simpl. split; [intros [-> ->]; done|by intros [= -> ->]].
Qed.

Lemma add_negate pos dir : Vec2.add (Vec2.add pos dir) (Vec2.negate dir) = pos.
Proof. destruct pos, dir. unfold Vec2.add, Vec2.negate; simpl. f_equal; lia. Qed.

Lemma getId_ext g g' p :
  dimension g' = dimension g -> getState g' p = getState g p ->
  getId g' p = getId g p.
Proof.
  intros Hd Hs. unfold getId. by rewrite (isOutsideField_dim g g'), Hs.
Qed.

Lemma isMine_ext g g' p :
  getState g' p = getState g p -> isMine g' p = isMine g p.
Proof. intros Hs. unfold isMine. by rewrite Hs. Qed.

Lemma idsTo_keeps n g g' p :
  idsTo n g g' -> inField g p -> getId g p = n -> getId g' p = n.
Proof. intros Hi Hp Hn. destruct (idsTo_getId n g g' p Hi Hp); congruence. Qed.

Lemma updateId_S fuel pos n from g :
  updateId (S fuel) pos n from g =
  if negb (isOutsideField g pos) && loose_neq (getId g pos) n then
    let g1 := setId pos n g in
    Iterator.eachM
      (fun dir g' =>
         if negb (Vec2.equals dir from)
         then updateId fuel (Vec2.add pos dir) n (Vec2.negate dir) g'
         else Some g')
      (Iterator.filter (fun dir => isMine g1 (Vec2.add pos dir)) ORTHO_DIRS)
      g1
  else Some g.
Proof. reflexivity. Qed.

(** [frontier n g a b]: [a] and [b] are mines of the field, [a] carries
    the id [n] and [b] does not. *)
Definition frontier (n : Value) (g : Game) (a b : Vec2.t) : Prop :=
  inField g a /\ inField g b
  /\ isMine g a = true /\ isMine g b = true
  /\ getId g a = n /\ getId g b <> n.

Lemma frontier_setId n g pos a b :
  frontier n (setId pos n g) a b -> is_Some (getState g pos) ->
  inField g pos -> a <> pos -> frontier n g a b.
Proof.
  intros (Ha & Hb & Hma & Hmb & Hia & Hib) Hc Hpos Hne.
  assert (b <> pos) as Hneb.
  { intros ->. apply Hib. by apply getId_setId. }
  rewrite (getId_ext g) in Hia, Hib by (done || by apply getState_setId_ne).
  rewrite (isMine_ext g) in Hma, Hmb by (by apply getState_setId_ne).
  by repeat split.
Qed.

(** What a call of [updateId] leaves behind: the start cell carries the
    new id, and the only place where a cell with the new id can still
    touch a mine without it is the edge the call came from. *)
Lemma updateId_frontier i fuel : forall pos from g g',
  total g ->
  updateId fuel pos (Num i) from g = Some g' ->
  (inField g pos -> getId g' pos = Num i)
  /\ forall a dir, In dir ORTHO_DIRS ->
       frontier (Num i) g' a (Vec2.add a dir) ->
       frontier (Num i) g a (Vec2.add a dir) \/ (a = pos /\ dir = from).
Proof.
  set (n := Num i).
  induction fuel as [|fuel IH]; intros pos from g g' Ht Hrun; [done|].
  rewrite updateId_S in Hrun. cbv zeta in Hrun.
  destruct (negb (isOutsideField g pos) && loose_neq (getId g pos) n) eqn:Hc.
  2:{ injection Hrun as <-. split; [|auto]. intros Hp.
      unfold inField in Hp. rewrite Hp in Hc. simpl in Hc.
      apply negb_false_iff in Hc. by apply loose_eq_Num in Hc. }
  apply andb_true_iff in Hc as [Hin%negb_true_iff Hd].
  set (g1 := setId pos n g) in *.
  assert (Hi1 : idsTo n g g1) by (by apply idsTo_setId).
  assert (Hid1 : getId g1 pos = n) by (apply getId_setId; auto).
  set (mineDirs := Iterator.filter _ _) in Hrun.
  set (R := fun (rest : list Vec2.t) (s : Game) =>
    idsTo n g1 s
    /\ forall a dir, In dir ORTHO_DIRS ->
         frontier n s a (Vec2.add a dir) ->
         frontier n g a (Vec2.add a dir)
         \/ (a = pos /\ (dir = from \/ In dir rest))).
  assert (Hend : R [] g').
  { revert Hrun. apply eachM_rest.
    - intros dir0 rest s s' [His HR] Hstep.
      assert (Hts : total s) by eauto using idsTo_total.
      destruct (Vec2.equals dir0 from) eqn:Heq; simpl in Hstep.
      + injection Hstep as <-. apply equals_spec in Heq. subst dir0.
        split; [done|]. intros a dir Hdir Hf.
        destruct (HR a dir Hdir Hf) as [?|(-> & [?|[?|?]])]; auto.
      + destruct (IH _ _ _ _ Hts Hstep) as [Hnew Hfront].
        assert (His' : idsTo n g1 s')
          by (eapply idsTo_trans; [exact His|by eapply updateId_idsTo]).
        split; [done|]. intros a dir Hdir Hf.
        assert (Hds' : dimension s' = dimension s).
        { rewrite (idsTo_dimension _ _ _ His'). symmetry.
          by eapply idsTo_dimension. }
        destruct (Hfront a dir Hdir Hf) as [Hs|[-> ->]].
        * destruct (HR a dir Hdir Hs) as [?|(-> & [?|[<-|?]])]; auto.
          exfalso. destruct Hf as (_ & Hb & _ & _ & _ & Hne).
          apply Hne, Hnew. eapply inField_dim; [|exact Hb]. done.
        * exfalso. rewrite add_negate in Hf.
          destruct Hf as (_ & _ & _ & _ & _ & Hne). apply Hne.
          eapply idsTo_keeps; [exact His'| |done].
          by eapply inField_dim.
    - split; [apply idsTo_refl|]. intros a dir Hdir Hf.
      destruct (decide (a = pos)) as [->|Hne].
      + right. split; [done|]. right. apply filter_In. split; [done|].
        by destruct Hf as (_ & _ & _ & ? & _).
      + left. eapply frontier_setId; eauto. }
  destruct Hend as [Hi' HR]. split.
  - intros _. eapply idsTo_keeps; [exact Hi'| |done]. by eapply inField_dim.
  - intros a dir Hdir Hf.
    destruct (HR a dir Hdir Hf) as [?|(-> & [?|[]])]; auto.
Qed.

(** ** Assigning the group id of an accepted mine *)

Lemma isMine_not_empty g p : isMine g p = true -> isEmpty g p = false.
Proof.
  intros Hm. destruct (isEmpty g p) eqn:He; [|done].
  apply isEmpty_not_mine in He. congruence.
Qed.

Lemma in_nonEmptyDirs g pos dir :
  In dir (nonEmptyDirs g pos) <->
  In dir ORTHO_DIRS /\ isEmpty g (Vec2.add pos dir) = false.
Proof.
  unfold nonEmptyDirs, Iterator.filter. rewrite filter_In.
  by rewrite negb_true_iff.
Qed.

(** The two ways [assignId] can go: no neighbour to look at and nothing
    changes, or an id is chosen, propagated, and [currentId] advances. *)
Lemma assignId_cases pos g :
  total g -> inField g pos ->
  (nonEmptyDirs g pos = [] /\ assignId pos g = Returns g)
  \/ (nonEmptyDirs g pos <> []
      /\ exists g2,
          let n := Num (lowestId g pos (nonEmptyDirs g pos)) in
          assignId pos g = Returns (with_currentId (currentId g + 1) g2)
          /\ idsTo n g g2
          /\ getId g2 pos = n
          /\ forall a dir, In dir ORTHO_DIRS ->
               frontier n g2 a (Vec2.add a dir) ->
               frontier n g a (Vec2.add a dir) /\ a <> pos).
Proof.
  intros Ht Hpos. unfold assignId.
  destruct (nonEmptyDirs g pos) as [|d0 ds] eqn:Hdirs; [by left|].
  right. split; [done|].
  assert (Hlen : (0 <? length (nonEmptyDirs g pos))%nat = true)
    by (by rewrite Hdirs).
  rewrite <- Hdirs. rewrite Hlen. clear d0 ds Hdirs Hlen.
  cbv zeta.
  set (n := Num (lowestId g pos (nonEmptyDirs g pos))).
  set (g1 := setId pos n g).
  assert (Hi1 : idsTo n g g1) by (by apply idsTo_setId).
  assert (Hid1 : getId g1 pos = n) by (apply getId_setId; auto).
  set (f := fun dir g' => updateId _ _ _ _ g').
  destruct (eachM_runs (fun s => idsTo n g1 s) f (nonEmptyDirs g pos))
    with (s := g1) as (g2 & Hrun & Hi2); [|apply idsTo_refl|].
  { intros dir s _ Hs. subst f. cbv beta.
    destruct (updateId_runs (updateId_fuel g) (Vec2.add pos dir) n
                (Vec2.negate dir) s) as [s' Hs'].
    - eauto using idsTo_total.
    - assert (Hle := idsTo_countDiffer _ _ _ (idsTo_trans _ _ _ _ Hi1 Hs)).
      assert (Hb := countDiffer_bound n g). unfold updateId_fuel. lia.
    - exists s'. split; [done|].
      eapply idsTo_trans; [exact Hs|]. by eapply updateId_idsTo. }
  exists g2. rewrite Hrun.
  assert (Hi : idsTo n g g2) by (eapply idsTo_trans; eauto).
  assert (Hcur : currentId g2 = currentId g) by (by destruct Hi as [(gr & ->) _]).
  rewrite Hcur. split; [done|]. split; [done|].
  split. { eapply idsTo_keeps; [exact Hi2| |done]. by eapply inField_dim. }
  set (R := fun (rest : list Vec2.t) (s : Game) =>
    idsTo n g1 s
    /\ forall a dir, In dir ORTHO_DIRS ->
         frontier n s a (Vec2.add a dir) ->
         (frontier n g a (Vec2.add a dir) /\ a <> pos)
         \/ (a = pos /\ In dir rest)).
  assert (Hend : R [] g2).
  { revert Hrun. apply eachM_rest.
    - intros dir0 rest s s' [His HR] Hstep. subst f. cbv beta in Hstep.
      assert (Hts : total s) by eauto using idsTo_total.
      destruct (updateId_frontier _ _ _ _ _ _ Hts Hstep) as [Hnew Hfront].
      assert (His' : idsTo n g1 s')
        by (eapply idsTo_trans; [exact His|by eapply updateId_idsTo]).
      split; [done|]. intros a dir Hdir Hf.
      assert (Hds' : dimension s' = dimension s).
      { rewrite (idsTo_dimension _ _ _ His'). symmetry.
        by eapply idsTo_dimension. }
      destruct (Hfront a dir Hdir Hf) as [Hs|[-> ->]].
      + destruct (HR a dir Hdir Hs) as [?|(-> & [<-|?])]; auto.
        exfalso. destruct Hf as (_ & Hb & _ & _ & _ & Hne).
        apply Hne, Hnew. eapply inField_dim; [|exact Hb]. done.
      + exfalso. rewrite add_negate in Hf.
        destruct Hf as (_ & _ & _ & _ & _ & Hne). apply Hne.
        eapply idsTo_keeps; [exact His'| |done]. by eapply inField_dim.
    - split; [apply idsTo_refl|]. intros a dir Hdir Hf.
      destruct (decide (a = pos)) as [->|Hne].
      + right. split; [done|]. apply in_nonEmptyDirs. split; [done|].
        apply isMine_not_empty.
        destruct Hf as (_ & Hb & _ & Hm & _ & Hne).
        rewrite <- Hm. symmetry. apply sameCtors_isMine.
        * by eapply idsTo_sameCtors.
        * eapply inField_dim; [|exact Hb]. done.
      + left. split; [|done]. eapply frontier_setId; eauto. }
  destruct Hend as [_ HR]. intros a dir Hdir Hf.
  destruct (HR a dir Hdir Hf) as [?|(_ & [])]; auto.
Qed.

(** ** One accepted mine *)

Lemma placed_isMine pos g : isMine (setState pos (new_Mine Null) g) pos = true.
Proof. unfold isMine. by rewrite getState_setState_eq. Qed.

Lemma placed_isMine_ne pos q c g :
  inField g pos -> inField g q -> q <> pos ->
  isMine (setState pos c g) q = isMine g q.
Proof. intros. apply isMine_ext. by apply getState_setState_ne. Qed.

Lemma placed_isEmpty_ne pos q c g :
  inField g pos -> q <> pos ->
  isEmpty (setState pos c g) q = isEmpty g q.
Proof.
  intros Hpos Hne. unfold isEmpty.
  change (isOutsideField (setState pos c g) q) with (isOutsideField g q).
  destruct (isOutsideField g q) eqn:Hq; [done|]. simpl.
  by rewrite getState_setState_ne.
Qed.

Lemma Base_total click g : Base click g -> total g.
Proof.
  intros HB p Hp. destruct (base_total _ _ HB p Hp) as [He|Hm].
  - apply isEmpty_spec in He as (_ & c & -> & _). eauto.
  - apply isMine_spec in Hm as (c & -> & _). eauto.
Qed.

Lemma tentative_Base click I gc pos g :
  tentative click I gc pos g -> Base click g.
Proof.
  intros (-> & HB & _ & Hc & Hin & Hnot & Hadj). split.
  - intros p Hp. destruct (decide (p = pos)) as [->|Hne].
    + right. apply placed_isMine.
    + rewrite placed_isEmpty_ne, placed_isMine_ne by done.
      by apply (base_total _ _ HB).
  - apply (base_nodup _ _ HB).
  - intros p Hp. rewrite placed_isEmpty_ne.
    + by apply (base_minables _ _ HB).
    + done.
    + intros ->. done.
  - intros p Hp Hm. destruct (decide (p = pos)) as [->|Hne]; [done|].
    rewrite placed_isMine_ne in Hm by done. by apply (base_mines _ _ HB).
Qed.

Lemma tentative_inField click I gc pos g :
  tentative click I gc pos g -> inField g pos.
Proof. by intros (-> & _ & _ & _ & Hin & _). Qed.

(** What [assignId] never touches. *)
Record untouched (g g' : Game) : Prop := {
  same_dimension : dimension g' = dimension g;
  same_totalMines : totalMines g' = totalMines g;
  same_hasGenMines : hasGenMines g' = hasGenMines g;
  same_numRemainingFlags : numRemainingFlags g' = numRemainingFlags g;
  same_remainingClearCells : remainingClearCells g' = remainingClearCells g;
  same_winLog : winLog g' = winLog g
}.

Lemma untouched_refl g : untouched g g.
Proof. by split. Qed.

Lemma untouched_trans g1 g2 g3 :
  untouched g1 g2 -> untouched g2 g3 -> untouched g1 g3.
Proof. intros [] []. split; congruence. Qed.

Lemma assignId_frame pos g g' :
  total g -> inField g pos -> assignId pos g = Returns g' ->
  sameCtors g g' /\ minables g' = minables g /\ untouched g g'
  /\ currentId g <= currentId g'.
Proof.
  intros Ht Hpos Hrun.
  destruct (assignId_cases pos g Ht Hpos)
    as [[_ Heq]|(_ & g2 & Heq & Hi & _)]; rewrite Heq in Hrun;
    injection Hrun as <-.
  - split; [apply sameCtors_refl|]. split; [done|].
    split; [apply untouched_refl|lia].
  - pose proof (idsTo_sameCtors _ _ _ Hi) as Hs.
    destruct Hi as [(gr & ->) _]. split; [exact Hs|].
    split; [done|]. split; [by split|]. simpl. lia.
Qed.

Lemma Base_sameCtors click g g' :
  sameCtors g g' -> minables g' = minables g -> Base click g -> Base click g'.
Proof.
  intros Hs Hm HB. pose proof Hs as [Hd _]. split.
  - intros p Hp.
    assert (inField g p) by (eapply inField_dim; [|exact Hp]; done).
    rewrite (sameCtors_isEmpty g g'), (sameCtors_isMine g g') by done.
    by apply (base_total _ _ HB).
  - rewrite Hm. apply (base_nodup _ _ HB).
  - intros p. rewrite Hm, (sameCtors_isEmpty g g') by done.
    apply (base_minables _ _ HB).
  - intros p Hp.
    assert (inField g p) by (eapply inField_dim; [|exact Hp]; done).
    rewrite (sameCtors_isMine g g') by done. by apply (base_mines _ _ HB).
Qed.

Section Generation.

Variable click : Vec2.t.

(** A property of the states between two calls of [generateMine],
    indexed by the number of mines laid so far. *)
Variable I : nat -> Game -> Prop.
Hypothesis I_reclosed :
  forall k g pos gc, reclosed g pos gc -> I k g -> I k gc.
Hypothesis I_accept :
  forall k gc pos g g',
    tentative click (I k) gc pos g -> rejects g pos = false ->
    assignId pos g = Returns g' -> I (S k) g'.

Lemma generateMine_inv k g :
  Base click g -> I k g ->
  match generateMine g with
  | Returns g' => Base click g' /\ I (S k) g'
  | NoMinableSpacesLeft => True
  | OutOfFuel => False
  end.
Proof.
  intros HB HI. unfold generateMine.
  pose proof (acceptedMine_spec click (I k) (I_reclosed k) g HB HI) as Hacc.
  destruct (acceptedMine g) as [[pos g1]| |]; [|done|done].
  destruct Hacc as (gc & Ht & Hrej).
  pose proof (tentative_Base _ _ _ _ _ Ht) as HB1.
  pose proof (tentative_inField _ _ _ _ _ Ht) as Hin.
  destruct (assignId_cases pos g1 (Base_total _ _ HB1) Hin)
    as [[_ Heq]|(_ & g2 & Heq & _)].
  - rewrite Heq. split; [done|]. eapply I_accept; eauto.
  - pose proof Heq as Heq'. cbv zeta in Heq'. rewrite Heq'.
    destruct (assignId_frame pos g1 _ (Base_total _ _ HB1) Hin Heq')
      as (Hs & Hm & _).
    split; [by eapply Base_sameCtors|]. eapply I_accept; eauto.
Qed.

Lemma generateMines_inv n : forall k g,
  Base click g -> I k g ->
  match generateMines n g with
  | Returns g' => Base click g' /\ I (n + k) g'
  | NoMinableSpacesLeft => True
  | OutOfFuel => False
  end.
Proof.
  induction n as [|n IH]; intros k g HB HI; simpl; [done|].
  pose proof (generateMine_inv k g HB HI) as Hone.
  destruct (generateMine g) as [g1| |]; [|done|done].
  destruct Hone as [HB1 HI1]. specialize (IH (S k) g1 HB1 HI1).
  replace (n + S k)%nat with (S (n + k)) in IH by lia. exact IH.
Qed.

End Generation.

(** ** The start of a round *)

(** Every slot of the field holds a [Close] object. *)
Definition allClosed (g : Game) : bool :=
  Iterator.all (isEmpty g) (allPositions (dimension g)).

Lemma allClosed_spec g :
  allClosed g = true <-> forall p, inField g p -> isEmpty g p = true.
Proof.
  unfold allClosed, Iterator.all. rewrite forallb_forall. split.
  - intros H p Hp. by apply H, in_allPositions.
  - intros H p Hp. by apply H, in_allPositions.
Qed.

Lemma clone_id v : Vec2.clone v = v.
Proof. by destruct v. Qed.

Lemma in_eligible g click p :
  In p (eligible (dimension g) click) <->
  inField g p /\ Vec2.adjacentTo click p = false.
Proof.
  unfold eligible. rewrite in_map_iff. split.
  - intros (q & <- & [Hq Hadj]%filter_In). rewrite clone_id.
    split; [by apply in_allPositions|by apply negb_true_iff].
  - intros [Hp Hadj]. exists p. split; [apply clone_id|].
    apply filter_In. split; [by apply in_allPositions|by apply negb_true_iff].
Qed.

Lemma NoDup_eligible d click : List.NoDup (eligible d click).
Proof.
  unfold eligible. apply Finite.Injective_map_NoDup.
  - intros a b. by rewrite !clone_id.
  - apply List.NoDup_filter, NoDup_allPositions.
Qed.

(** The state in which [populateMines] starts laying mines. *)
Definition pooled (clickPos : Vec2.t) (g : Game) : Game :=
  with_minables (eligible (dimension g) clickPos) g.

Lemma Base_pooled click g : allClosed g = true -> Base click (pooled click g).
Proof.
  intros Hall. pose proof (proj1 (allClosed_spec g) Hall) as Hc. clear Hall.
  rename Hc into Hall. split.
  - intros p Hp. left. by apply Hall.
  - apply NoDup_eligible.
  - intros p [Hp Hadj]%in_eligible. split; [by apply Hall|done].
  - intros p Hp Hm. apply Hall in Hp. apply isEmpty_not_mine in Hp.
    change (isMine (pooled click g) p) with (isMine g p) in Hm. congruence.
Qed.

(** ** Boards produced by [populateMines] *)

(** A random source that replays a list of draws, then repeats zero. *)
Definition replay (draws : list nat) : nat -> nat :=
  fun k => nth k draws O.

(** Chebyshev distance between two positions. *)
Definition chebyshev (a b : Vec2.t) : Z :=
  Z.max (Z.abs (Vec2.x a - Vec2.x b)) (Z.abs (Vec2.y a - Vec2.y b)).

Lemma adjacentTo_chebyshev a b :
  Vec2.adjacentTo a b = true <-> chebyshev a b <= 1.
Proof.
  unfold Vec2.adjacentTo, chebyshev, Vec2.subtract; simpl.
  rewrite !andb_true_iff, !Z.leb_le. lia.
Qed.

Lemma populateMines_Base clickPos g0 g :
  allClosed g0 = true -> populateMines clickPos g0 = Returns g ->
  Base clickPos g.
Proof.
  intros Hall Hrun. unfold populateMines in Hrun.
  pose proof (generateMines_inv clickPos (fun _ _ => True)
                (fun _ _ _ _ _ _ => Logic.I) (fun _ _ _ _ _ _ _ _ => Logic.I)
                (totalMines g0) O (pooled clickPos g0)
                (Base_pooled clickPos g0 Hall) Logic.I) as H.
  change (with_minables _ g0) with (pooled clickPos g0) in Hrun.
  change (totalMines (pooled clickPos g0)) with (totalMines g0) in Hrun.
  rewrite Hrun in H. tauto.
Qed.

(** C4. On a board produced by [populateMines clickPos] from a grid that
    was all [Close], no cell of the field within Chebyshev distance 1 of
    [clickPos] (the centre included) is a mine. *)
Theorem safe_zone_has_no_mine clickPos g0 g p :
  allClosed g0 = true ->
  populateMines clickPos g0 = Returns g ->
  inField g p -> chebyshev clickPos p <= 1 ->
  isMine g p = false.
Proof.
  intros Hall Hrun Hp Hdist.
  pose proof (populateMines_Base _ _ _ Hall Hrun) as HB.
  destruct (isMine g p) eqn:Hm; [|done].
  apply (base_mines _ _ HB) in Hm; [|done].
  apply adjacentTo_chebyshev in Hdist. congruence.
Qed.

Lemma safe_zone_has_no_mine_witness :
  exists g,
    populateMines (Vec2.new 0 0) (newGame 4 4 (replay [0; 1; 5; 4]%nat))
    = Returns g
    /\ isMine g (Vec2.new 1 1) = false.
Proof.
  eexists. split.
  - vm_compute. reflexivity.
  - apply (safe_zone_has_no_mine (Vec2.new 0 0)
             (newGame 4 4 (replay [0; 1; 5; 4]%nat))).
    + vm_compute. reflexivity.
    + vm_compute. reflexivity.
    + vm_compute. reflexivity.
    + vm_compute. discriminate.
Defined.

Section Populate.

Variable clickPos : Vec2.t.
Variable I : nat -> Game -> Prop.
Hypothesis I_reclosed :
  forall k g pos gc, reclosed g pos gc -> I k g -> I k gc.
Hypothesis I_accept :
  forall k gc pos g g',
    tentative clickPos (I k) gc pos g -> rejects g pos = false ->
    assignId pos g = Returns g' -> I (S k) g'.

Lemma generateMines_from_start n g0 g :
  allClosed g0 = true -> I O (pooled clickPos g0) ->
  generateMines n (pooled clickPos g0) = Returns g ->
  Base clickPos g /\ I n g.
Proof.
  intros Hall H0 Hrun.
  pose proof (generateMines_inv clickPos I I_reclosed I_accept n O
                (pooled clickPos g0) (Base_pooled clickPos g0 Hall) H0) as H.
  rewrite Hrun, Nat.add_0_r in H. exact H.
Qed.

Lemma populateMines_inv g0 g :
  allClosed g0 = true -> I O (pooled clickPos g0) ->
  populateMines clickPos g0 = Returns g ->
  Base clickPos g /\ I (totalMines g0) g.
Proof. intros Hall H0 Hrun. by apply (generateMines_from_start _ g0). Qed.

(** [generateMines] on a well-formed state never exhausts its budgets. *)
Lemma generateMines_fuel n g0 :
  allClosed g0 = true -> I O (pooled clickPos g0) ->
  generateMines n (pooled clickPos g0) <> OutOfFuel.
Proof.
  intros Hall H0 Hrun.
  pose proof (generateMines_inv clickPos I I_reclosed I_accept n O
                (pooled clickPos g0) (Base_pooled clickPos g0 Hall) H0) as H.
  by rewrite Hrun in H.
Qed.

End Populate.

(** On a round that starts all [Close], [populateMines] returns or
    throws for want of minable cells: the budgets of the loops suffice. *)
Lemma populateMines_fuel clickPos g0 :
  allClosed g0 = true -> populateMines clickPos g0 <> OutOfFuel.
Proof.
  intros Hall. unfold populateMines.
  apply (generateMines_fuel clickPos (fun _ _ => True)); try done.
Qed.

(** ** Counting cells *)

Definition countMines (g : Game) : nat :=
  length (List.filter (isMine g) (allPositions (dimension g))).

Definition countClosed (g : Game) : nat :=
  length (List.filter (isEmpty g) (allPositions (dimension g))).

Lemma sameCtors_countMines g g' : sameCtors g g' -> countMines g' = countMines g.
Proof.
  intros Hs. unfold countMines. rewrite (proj1 Hs). f_equal.
  apply filter_ext_in_list. intros p Hp%in_allPositions.
  by apply sameCtors_isMine.
Qed.

Lemma countMines_reclosed g pos gc :
  reclosed g pos gc -> countMines gc = countMines g.
Proof. intros Hr. apply sameCtors_countMines. by eapply reclosed_sameCtors. Qed.

Lemma countMines_placed pos g :
  inField g pos -> isMine g pos = false ->
  countMines (setState pos (new_Mine Null) g) = S (countMines g).
Proof.
  intros Hin Hm. unfold countMines. rewrite setState_dimension.
  apply (filter_length_flip _ _ _ pos).
  - apply NoDup_allPositions.
  - by apply in_allPositions.
  - done.
  - apply placed_isMine.
  - intros q Hq%in_allPositions Hne. by apply placed_isMine_ne.
Qed.

Lemma countMines_accept click I gc pos g g' :
  tentative click I gc pos g -> assignId pos g = Returns g' ->
  countMines g' = S (countMines gc).
Proof.
  intros Ht Hrun.
  pose proof (tentative_Base _ _ _ _ _ Ht) as HB.
  pose proof (tentative_inField _ _ _ _ _ Ht) as Hin.
  destruct (assignId_frame _ _ _ (Base_total _ _ HB) Hin Hrun) as (Hs & _).
  rewrite (sameCtors_countMines _ _ Hs).
  destruct Ht as (-> & _ & _ & Hc & Hin' & _).
  apply countMines_placed; [done|].
  unfold isMine. by rewrite Hc.
Qed.

Lemma untouched_reclosed g pos gc : reclosed g pos gc -> untouched g gc.
Proof. by intros (_ & l & ->). Qed.

Lemma untouched_accept click I gc pos g g' :
  tentative click I gc pos g -> assignId pos g = Returns g' ->
  untouched gc g'.
Proof.
  intros Ht Hrun.
  pose proof (tentative_Base _ _ _ _ _ Ht) as HB.
  pose proof (tentative_inField _ _ _ _ _ Ht) as Hin.
  destruct (assignId_frame _ _ _ (Base_total _ _ HB) Hin Hrun) as (_ & _ & Hu & _).
  eapply untouched_trans; [|exact Hu].
  by destruct Ht as (-> & _).
Qed.

Lemma filter_none {A} (f : A -> bool) l :
  (forall a, In a l -> f a = false) -> List.filter f l = [].
Proof.
  induction l as [|a l IH]; intros H; simpl; [done|].
  rewrite H by (by left). apply IH. intros; apply H; by right.
Qed.

Lemma filter_split_length {A} (f h : A -> bool) l :
  (forall a, In a l -> f a = negb (h a)) ->
  (length (List.filter f l) + length (List.filter h l) = length l)%nat.
Proof.
  induction l as [|a l IH]; intros H; simpl; [done|].
  rewrite H by (by left).
  assert (IH' := IH (fun b Hb => H b (or_intror Hb))).
  destruct (h a); simpl; lia.
Qed.

Lemma Base_counts click g :
  Base click g ->
  (countClosed g + countMines g = dimension g * dimension g)%nat
  /\ countOpen g = O.
Proof.
  intros HB. split.
  - unfold countClosed, countMines.
    rewrite <- (length_allPositions (dimension g)).
    apply filter_split_length. intros p Hp%in_allPositions.
    destruct (base_total _ _ HB p Hp) as [He|Hm].
    + by rewrite He, (isEmpty_not_mine _ _ He).
    + by rewrite Hm, (isMine_not_empty _ _ Hm).
  - unfold countOpen. rewrite filter_none; [done|].
    intros p Hp%in_allPositions. unfold isOpen, instanceof.
    destruct (base_total _ _ HB p Hp) as [He|Hm].
    + apply isEmpty_spec in He as (_ & c & -> & Hc).
      apply bool_decide_eq_false. congruence.
    + apply isMine_spec in Hm as (c & -> & Hc).
      apply bool_decide_eq_false. congruence.
Qed.

(** The mine count and the untouched counters after [n] mines. *)
Lemma generateMines_count clickPos n g0 g :
  allClosed g0 = true ->
  generateMines n (pooled clickPos g0) = Returns g ->
  Base clickPos g /\ countMines g = n /\ untouched g0 g.
Proof.
  intros Hall Hrun.
  apply (generateMines_from_start clickPos
           (fun k s => countMines s = k /\ untouched g0 s)) in Hrun; try done.
  - intros k s pos gc Hr [Hc Hu]. split.
    + by rewrite (countMines_reclosed _ _ _ Hr).
    + eapply untouched_trans; [exact Hu|by eapply untouched_reclosed].
  - intros k gc pos s s' Ht _ Hrun'. split.
    + rewrite (countMines_accept _ _ _ _ _ _ Ht Hrun').
      by destruct Ht as (_ & _ & [-> _] & _).
    + pose proof (untouched_accept _ _ _ _ _ _ Ht Hrun') as Hu.
      destruct Ht as (_ & _ & [_ Hu0] & _). by eapply untouched_trans.
  - split; [|by split].
    unfold countMines. rewrite filter_none; [done|].
    intros p Hp%in_allPositions.
    apply isEmpty_not_mine. by apply (proj1 (allClosed_spec g0) Hall).
Qed.

(** C3. If [populateMines] returns on a [d * d] grid that was all
    [Close], exactly [totalMines] cells are mines, exactly
    [d * d - totalMines] are [Close], and none is [Open]. *)
Theorem mine_count_exact clickPos g0 g :
  allClosed g0 = true ->
  populateMines clickPos g0 = Returns g ->
  countMines g = totalMines g0
  /\ countClosed g = (dimension g0 * dimension g0 - totalMines g0)%nat
  /\ (totalMines g0 <= dimension g0 * dimension g0)%nat
  /\ countOpen g = O.
Proof.
  intros Hall Hrun. unfold populateMines in Hrun.
  apply (generateMines_count clickPos _ g0) in Hrun as (HB & Hc & Hu);
    [|done].
  destruct (Base_counts _ _ HB) as [Hsum Hopen].
  rewrite (same_dimension _ _ Hu) in Hsum. lia.
Qed.

Lemma mine_count_exact_witness :
  exists g,
    populateMines (Vec2.new 0 0) (newGame 4 4 (replay [0; 1; 5; 4]%nat))
    = Returns g
    /\ countMines g = 4%nat /\ countClosed g = 12%nat
    /\ (4 <= 16)%nat /\ countOpen g = O.
Proof.
  eexists. split.
  - vm_compute. reflexivity.
  - apply (mine_count_exact (Vec2.new 0 0)
             (newGame 4 4 (replay [0; 1; 5; 4]%nat))).
    + vm_compute. reflexivity.
    + vm_compute. reflexivity.
Defined.

(** ** No cell is walled in *)

Lemma in_neighbors g p q :
  In q (neighbors g p) <->
  inField g q /\ exists dir, In dir ALL_DIRS /\ q = Vec2.add p dir.
Proof.
  unfold neighbors, Iterator.filter, Vec2.inDirs, Iterator.map.
  rewrite filter_In, in_map_iff, negb_true_iff. unfold inField.
  split.
  - intros [(dir & <- & Hdir) Hq]. eauto.
  - intros [Hq (dir & Hdir & ->)]. eauto.
Qed.

Lemma negate_ALL_DIRS dir : In dir ALL_DIRS -> In (Vec2.negate dir) ALL_DIRS.
Proof.
  unfold ALL_DIRS. simpl.
  intros [<-|[<-|[<-|[<-|[<-|[<-|[<-|[<-|[]]]]]]]]]; vm_compute; tauto.
Qed.

Lemma negate_ORTHO_DIRS dir :
  In dir ORTHO_DIRS -> In (Vec2.negate dir) ORTHO_DIRS.
Proof.
  unfold ORTHO_DIRS. simpl. intros [<-|[<-|[<-|[<-|[]]]]]; vm_compute; tauto.
Qed.

Lemma neighbors_sym g p q :
  inField g p -> In q (neighbors g p) -> In p (neighbors g q).
Proof.
  intros Hp (Hq & dir & Hdir & ->)%in_neighbors. apply in_neighbors.
  split; [done|]. exists (Vec2.negate dir).
  split; [by apply negate_ALL_DIRS|]. by rewrite add_negate.
Qed.

(** No cell of the field, mine or not, has mines on all its neighbours. *)
Definition noneSurrounded (g : Game) : Prop :=
  forall p, inField g p -> isSurrounded g p = false.

Lemma noneSurrounded_sameCtors g g' :
  sameCtors g g' -> noneSurrounded g -> noneSurrounded g'.
Proof.
  intros Hs H p Hp. rewrite (sameCtors_isSurrounded g g') by done.
  apply H. eapply inField_dim; [|exact Hp]. symmetry. apply Hs.
Qed.

Lemma noneSurrounded_accept click I gc pos g g' :
  tentative click I gc pos g -> noneSurrounded gc ->
  rejects g pos = false -> assignId pos g = Returns g' ->
  noneSurrounded g'.
Proof.
  intros Ht Hgc Hrej Hrun.
  pose proof (tentative_Base _ _ _ _ _ Ht) as HB.
  pose proof (tentative_inField _ _ _ _ _ Ht) as Hin.
  destruct (assignId_frame _ _ _ (Base_total _ _ HB) Hin Hrun) as (Hs & _).
  apply (noneSurrounded_sameCtors _ _ Hs).
  unfold rejects in Hrej.
  apply orb_false_iff in Hrej as [Hrej _].
  apply orb_false_iff in Hrej as [Hself Hnear].
  intros q Hq. destruct (decide (q = pos)) as [->|Hne]; [done|].
  destruct (in_dec Vec2_eq_dec q (neighbors g pos)) as [Hnb|Hnb].
  - unfold Iterator.any in Hnear.
    destruct (isSurrounded g q) eqn:Hsq; [|done].
    assert (existsb (isSurrounded g) (neighbors g pos) = true)
      by (apply existsb_exists; eauto).
    congruence.
  - destruct Ht as (-> & _ & _ & _ & Hin' & _).
    rewrite <- (Hgc q Hq). unfold isSurrounded, Iterator.all.
    change (neighbors (setState pos (new_Mine Null) gc) q)
      with (neighbors gc q).
    apply forallb_ext_in. intros r Hr.
    apply placed_isMine_ne; [done|by eapply neighbors_inField|].
    intros ->. apply Hnb.
    change (neighbors (setState pos (new_Mine Null) gc) pos)
      with (neighbors gc pos).
    by apply (neighbors_sym gc q).
Qed.

Lemma noneSurrounded_start g :
  (2 <= dimension g)%nat -> allClosed g = true -> noneSurrounded g.
Proof.
  intros Hd Hall p Hp.
  pose proof (proj1 (allClosed_spec g) Hall) as Hc.
  pose proof (proj1 (inField_spec g p) Hp) as [Hx Hy].
  set (dir := if Vec2.x p + 1 <? Z.of_nat (dimension g) then EAST else WEST).
  assert (Hq : inField g (Vec2.add p dir)).
  { apply inField_spec. subst dir.
    destruct (Vec2.x p + 1 <? Z.of_nat (dimension g)) eqn:E;
      [apply Z.ltb_lt in E|apply Z.ltb_ge in E]; simpl; lia. }
  assert (Hnb : In (Vec2.add p dir) (neighbors g p)).
  { apply in_neighbors. split; [done|]. exists dir. split; [|done].
    subst dir. destruct (_ <? _); vm_compute; tauto. }
  unfold isSurrounded, Iterator.all.
  destruct (forallb (isMine g) (neighbors g p)) eqn:Hall'; [|done].
  rewrite forallb_forall in Hall'. specialize (Hall' _ Hnb).
  rewrite (isEmpty_not_mine _ _ (Hc _ Hq)) in Hall'. discriminate.
Qed.

(** C2. On a board produced by [populateMines] on a field of side at
    least two that was all [Close], every cell that is not a mine has a
    neighbour inside the field that is not a mine. *)
Theorem no_full_surround clickPos g0 g p :
  (2 <= dimension g0)%nat ->
  allClosed g0 = true ->
  populateMines clickPos g0 = Returns g ->
  inField g p -> isMine g p = false ->
  exists q, In q (neighbors g p) /\ isMine g q = false.
Proof.
  intros Hd Hall Hrun Hp _.
  apply (populateMines_inv clickPos (fun _ s => noneSurrounded s)) in Hrun;
    try done.
  - destruct Hrun as [_ Hnone]. specialize (Hnone p Hp).
    unfold isSurrounded, Iterator.all in Hnone.
    destruct (forallb_forall (isMine g) (neighbors g p)) as [_ Hall'].
    destruct (existsb (fun q => negb (isMine g q)) (neighbors g p)) eqn:Hex.
    + apply existsb_exists in Hex as (q & Hq & Hm).
      exists q. split; [done|]. by apply negb_true_iff.
    + exfalso. rewrite Hall' in Hnone; [done|].
      intros q Hq. destruct (isMine g q) eqn:Hm; [done|].
      assert (existsb (fun q => negb (isMine g q)) (neighbors g p) = true)
        by (apply existsb_exists; exists q; by rewrite Hm).
      congruence.
  - intros _ s pos gc Hr. apply noneSurrounded_sameCtors.
    by eapply reclosed_sameCtors.
  - intros _ gc pos s s' Ht Hrej Hrun'.
    eapply noneSurrounded_accept; eauto. by destruct Ht as (_ & _ & ? & _).
  - by apply (noneSurrounded_start (pooled clickPos g0)).
Qed.

Lemma no_full_surround_witness :
  exists g,
    populateMines (Vec2.new 0 0) (newGame 4 4 (replay [0; 1; 5; 4]%nat))
    = Returns g
    /\ exists q, In q (neighbors g (Vec2.new 3 1)) /\ isMine g q = false.
Proof.
  eexists. split.
  - vm_compute. reflexivity.
  - apply (no_full_surround (Vec2.new 0 0)
             (newGame 4 4 (replay [0; 1; 5; 4]%nat))).
    + vm_compute. lia.
    + vm_compute. reflexivity.
    + vm_compute. reflexivity.
    + vm_compute. reflexivity.
    + vm_compute. reflexivity.
Defined.

(** ** Mine groups *)

(** Any two orthogonally adjacent mines of the field carry the same id. *)
Definition clusterClosed (g : Game) : Prop :=
  forall a dir, In dir ORTHO_DIRS ->
    inField g a -> inField g (Vec2.add a dir) ->
    isMine g a = true -> isMine g (Vec2.add a dir) = true ->
    getId g a = getId g (Vec2.add a dir).

Lemma clusterClosed_reclosed g pos gc :
  reclosed g pos gc -> clusterClosed g -> clusterClosed gc.
Proof.
  intros Hr Hg a dir Hdir Ha Hb Hma Hmb.
  pose proof (reclosed_dimension _ _ _ Hr) as Hd.
  assert (Ha' : inField g a) by (by eapply inField_dim; [symmetry|]).
  assert (Hb' : inField g (Vec2.add a dir)) by (by eapply inField_dim; [symmetry|]).
  rewrite (reclosed_isMine _ _ _ _ Hr) in Hma by done.
  rewrite (reclosed_isMine _ _ _ _ Hr) in Hmb by done.
  rewrite !(reclosed_getId_mine _ _ _ _ Hr) by done.
  by apply Hg.
Qed.

Lemma clusterClosed_accept click I gc pos g g' :
  tentative click I gc pos g -> clusterClosed gc ->
  assignId pos g = Returns g' -> clusterClosed g'.
Proof.
  intros Ht Hgc Hrun.
  pose proof (tentative_Base _ _ _ _ _ Ht) as HB.
  pose proof (tentative_inField _ _ _ _ _ Ht) as Hin.
  pose proof (Base_total _ _ HB) as Htot.
  assert (Hpair : forall a dir, In dir ORTHO_DIRS ->
            inField g a -> inField g (Vec2.add a dir) ->
            isMine g a = true -> isMine g (Vec2.add a dir) = true ->
            a <> pos -> Vec2.add a dir <> pos ->
            getId g a = getId g (Vec2.add a dir)).
  { destruct Ht as (-> & _ & _ & _ & Hin' & _).
    intros a dir Hdir Ha Hb Hma Hmb Hna Hnb.
    rewrite placed_isMine_ne in Hma by done.
    rewrite placed_isMine_ne in Hmb by done.
    rewrite !(getId_ext gc (setState pos (new_Mine Null) gc))
      by (done || by apply getState_setState_ne).
    by apply Hgc. }
  destruct (assignId_cases pos g Htot Hin)
    as [[Hnil Heq]|(_ & g2 & Heq & Hi & Hnew & Hfront)];
    rewrite Heq in Hrun; injection Hrun as <-.
  - intros a dir Hdir Ha Hb Hma Hmb.
    assert (Hno : forall d, In d ORTHO_DIRS ->
              isMine g (Vec2.add pos d) = true -> False).
    { intros d Hd Hm. apply isMine_not_empty in Hm.
      assert (In d (nonEmptyDirs g pos)) by (by apply in_nonEmptyDirs).
      rewrite Hnil in *. done. }
    destruct (decide (a = pos)) as [->|Hna]; [by destruct (Hno dir)|].
    destruct (decide (Vec2.add a dir = pos)) as [Hb'|Hnb]; [|by apply Hpair].
    exfalso. apply (Hno (Vec2.negate dir)); [by apply negate_ORTHO_DIRS|].
    by rewrite <- Hb', add_negate.
  - cbv zeta in Hi, Hnew, Hfront.
    set (n := Num (lowestId g pos (nonEmptyDirs g pos))) in *.
    pose proof (idsTo_sameCtors _ _ _ Hi) as Hs.
    pose proof (idsTo_dimension _ _ _ Hi) as Hd.
    intros a dir Hdir Ha Hb Hma Hmb.
    change (getId g2 a = getId g2 (Vec2.add a dir)).
    change (isMine g2 a = true) in Hma.
    change (isMine g2 (Vec2.add a dir) = true) in Hmb.
    assert (Ha' : inField g a) by (by eapply inField_dim; [symmetry|]).
    assert (Hb' : inField g (Vec2.add a dir))
      by (by eapply inField_dim; [symmetry|]).
    assert (Ha2 : inField g2 a) by done.
    assert (Hb2 : inField g2 (Vec2.add a dir)) by done.
    pose proof Hma as Hma'. pose proof Hmb as Hmb'.
    rewrite (sameCtors_isMine g g2) in Hma' by done.
    rewrite (sameCtors_isMine g g2) in Hmb' by done.
    destruct (decide (getId g2 a = n)) as [Hia|Hia];
      destruct (decide (getId g2 (Vec2.add a dir) = n)) as [Hib|Hib].
    + congruence.
    + exfalso.
      destruct (Hfront a dir Hdir) as [(_ & _ & _ & _ & Hga & Hgb) Hna];
        [by repeat split|].
      apply Hgb. rewrite <- Hga. symmetry. apply Hpair; try done.
      intros Hbp. rewrite Hbp in Hib. done.
    + exfalso.
      destruct (Hfront (Vec2.add a dir) (Vec2.negate dir))
        as [(_ & _ & _ & _ & Hgb & Hga) Hnb].
      * by apply negate_ORTHO_DIRS.
      * rewrite add_negate. by repeat split.
      * rewrite add_negate in Hga. apply Hga. rewrite <- Hgb.
        apply Hpair; try done. intros ->. done.
    + destruct (idsTo_getId n g g2 a Hi Ha') as [-> | ?]; [|done].
      destruct (idsTo_getId n g g2 (Vec2.add a dir) Hi Hb') as [-> | ?];
        [|done].
      apply Hpair; try done.
      * intros ->. done.
      * intros Hbp. rewrite Hbp in Hib. done.
Qed.

(** C5. After every accepted placement, that is after any number of
    completed [generateMine] calls inside [populateMines] and when
    [populateMines] returns, any two orthogonally adjacent mines carry
    equal group ids. *)
Theorem cluster_closure clickPos g0 :
  allClosed g0 = true ->
  (forall n g,
     generateMines n (pooled clickPos g0) = Returns g -> clusterClosed g)
  /\ (forall g, populateMines clickPos g0 = Returns g -> clusterClosed g).
Proof.
  intros Hall.
  assert (Hgen : forall n g,
     generateMines n (pooled clickPos g0) = Returns g -> clusterClosed g).
  { intros n g Hrun.
    apply (generateMines_from_start clickPos (fun _ s => clusterClosed s))
      in Hrun; try done.
    - tauto.
    - intros _ s pos gc. apply clusterClosed_reclosed.
    - intros _ gc pos s s' Ht _ Hrun'.
      eapply clusterClosed_accept; eauto. by destruct Ht as (_ & _ & ? & _).
    - intros a dir _ Ha _ Hma.
      pose proof (proj1 (allClosed_spec g0) Hall a Ha) as He.
      apply isEmpty_not_mine in He.
      change (isMine (pooled clickPos g0) a) with (isMine g0 a) in Hma.
      congruence. }
  split; [exact Hgen|]. intros g Hrun. by apply (Hgen (totalMines g0)).
Qed.

Lemma cluster_closure_witness :
  exists g,
    populateMines (Vec2.new 0 0) (newGame 4 4 (replay [0; 1; 5; 4]%nat))
    = Returns g
    /\ getId g (Vec2.new 2 2) = getId g (Vec2.add (Vec2.new 2 2) EAST).
Proof.
  eexists. split.
  - vm_compute. reflexivity.
  - refine (proj2 (cluster_closure (Vec2.new 0 0)
             (newGame 4 4 (replay [0; 1; 5; 4]%nat)) _) _ _
             (Vec2.new 2 2) EAST _ _ _ _ _).
    + vm_compute. reflexivity.
    + vm_compute. reflexivity.
    + vm_compute. tauto.
    + vm_compute. reflexivity.
    + vm_compute. reflexivity.
    + vm_compute. reflexivity.
    + vm_compute. reflexivity.
Defined.

(** ** The id of a mine with no mine beside it *)

(** Some orthogonal neighbour of [pos] lies outside the field. *)
Definition onBoundary (g : Game) (pos : Vec2.t) : bool :=
  Iterator.any (fun dir => isOutsideField g (Vec2.add pos dir)) ORTHO_DIRS.

(** Some orthogonal neighbour of [pos] inside the field is a mine. *)
Definition hasOrthoMine (g : Game) (pos : Vec2.t) : bool :=
  Iterator.any
    (fun dir =>
       negb (isOutsideField g (Vec2.add pos dir))
       && isMine g (Vec2.add pos dir))
    ORTHO_DIRS.

Lemma lowestId_sentinel g pos : forall l c,
  (forall dir, In dir l -> getId g (Vec2.add pos dir) = Num 0) ->
  0 <= c ->
  fold_left
    (fun id dir =>
       let neighborId := getId g (Vec2.add pos dir) in
       if loose_neq neighborId Null then Math_min id neighborId else id)
    l c
  = match l with [] => c | _ :: _ => 0 end.
Proof.
  induction l as [|d l IH]; intros c Hall Hc; [done|].
  simpl fold_left. rewrite (Hall d) by (by left). simpl.
  rewrite IH; [|intros; apply Hall; by right|lia].
  destruct l; lia.
Qed.

Lemma assignId_lone click I gc pos g :
  tentative click I gc pos g -> 0 <= currentId g ->
  hasOrthoMine g pos = false ->
  exists g',
    assignId pos g = Returns g'
    /\ if onBoundary g pos
       then getState g' pos = Some (new_Mine (Num 0))
            /\ currentId g' = currentId g + 1
       else g' = g.
Proof.
  intros Ht Hcur Hlone.
  pose proof (tentative_Base _ _ _ _ _ Ht) as HB.
  pose proof (tentative_inField _ _ _ _ _ Ht) as Hin.
  pose proof (Base_total _ _ HB) as Htot.
  assert (Hplaced : getState g pos = Some (new_Mine Null)).
  { destruct Ht as (-> & _). apply getState_setState_eq. }
  assert (Hdirs : forall dir, In dir (nonEmptyDirs g pos) ->
            isOutsideField g (Vec2.add pos dir) = true).
  { intros dir [Hdir He]%in_nonEmptyDirs.
    destruct (isOutsideField g (Vec2.add pos dir)) eqn:Hout; [done|].
    destruct (base_total _ _ HB _ Hout) as [?|Hm]; [congruence|].
    unfold hasOrthoMine, Iterator.any in Hlone.
    assert (existsb (fun dir => negb (isOutsideField g (Vec2.add pos dir))
                                && isMine g (Vec2.add pos dir)) ORTHO_DIRS
            = true); [|congruence].
    apply existsb_exists. exists dir. by rewrite Hout, Hm. }
  destruct (assignId_cases pos g Htot Hin)
    as [[Hnil Heq]|(Hne & g2 & Heq & Hi & Hnew & _)].
  - exists g. split; [done|].
    destruct (onBoundary g pos) eqn:Hb; [|done]. exfalso.
    apply existsb_exists in Hb as (dir & Hdir & Hout).
    assert (In dir (nonEmptyDirs g pos)); [|by rewrite Hnil in *].
    apply in_nonEmptyDirs. split; [done|]. unfold isEmpty. by rewrite Hout.
  - cbv zeta in Heq, Hi, Hnew. eexists. split; [exact Heq|].
    assert (Hzero : lowestId g pos (nonEmptyDirs g pos) = 0).
    { unfold lowestId, Iterator.each.
      rewrite lowestId_sentinel; [by destruct (nonEmptyDirs g pos)| |done].
      intros dir Hdir. unfold getId. by rewrite (Hdirs dir Hdir). }
    rewrite Hzero in *.
    assert (onBoundary g pos = true) as ->.
    { destruct (nonEmptyDirs g pos) as [|dir ds] eqn:E; [done|].
      apply existsb_exists. exists dir. split.
      - assert (In dir (nonEmptyDirs g pos)) as H
          by (rewrite ?E; by left).
        by apply in_nonEmptyDirs in H as [? _].
      - apply Hdirs. rewrite ?E. by left. }
    pose proof (idsTo_dimension _ _ _ Hi) as Hd.
    split.
    + change (getState g2 pos = Some (new_Mine (Num 0))).
      destruct Hi as [_ Hi]. destruct (Hi pos Hin) as [Hsame|Hset].
      * exfalso. unfold getId in Hnew.
        rewrite (isOutsideField_dim g g2) in Hnew by done.
        rewrite Hin, Hsame, Hplaced in Hnew. discriminate.
      * by rewrite Hset, Hplaced.
    + by destruct Hi as [(gr & ->) _].
Qed.

Lemma generateMine_lone clickPos g0 n g pos g1 :
  allClosed g0 = true -> 1 <= currentId g0 ->
  generateMines n (pooled clickPos g0) = Returns g ->
  acceptedMine g = Returns (pos, g1) ->
  hasOrthoMine g1 pos = false ->
  getState g1 pos = Some (new_Mine Null)
  /\ exists g',
      generateMine g = Returns g'
      /\ if onBoundary g1 pos
         then getState g' pos = Some (new_Mine (Num 0))
              /\ currentId g' = currentId g + 1
         else g' = g1 /\ currentId g' = currentId g.
Proof.
  intros Hall Hcur Hgen Hacc Hlone.
  apply (generateMines_from_start clickPos (fun _ s => 1 <= currentId s))
    in Hgen as [HB Hcur']; try done.
  - pose proof (acceptedMine_spec clickPos (fun s => currentId s = currentId g))
      as Hspec.
    specialize (Hspec (fun s pos' gc Hr Hs =>
                  eq_trans (reclosed_currentId _ _ _ Hr) Hs) g HB eq_refl).
    rewrite Hacc in Hspec. destruct Hspec as (gc & Ht & _).
    assert (Hc1 : currentId g1 = currentId g).
    { by destruct Ht as (-> & _ & <- & _). }
    split. { destruct Ht as (-> & _). apply getState_setState_eq. }
    destruct (assignId_lone _ _ _ _ _ Ht) as (g' & Hrun & Hres);
      [lia|done|].
    exists g'. unfold generateMine. rewrite Hacc. split; [done|].
    destruct (onBoundary g1 pos).
    + by rewrite <- Hc1.
    + subst g'. done.
  - intros _ s pos' gc Hr. by rewrite (reclosed_currentId _ _ _ Hr).
  - intros _ gc pos' s s' Ht _ Hrun.
    pose proof (tentative_Base _ _ _ _ _ Ht) as HB.
    pose proof (tentative_inField _ _ _ _ _ Ht) as Hin.
    destruct (assignId_frame _ _ _ (Base_total _ _ HB) Hin Hrun)
      as (_ & _ & _ & Hle).
    destruct Ht as (-> & _ & Hge & _).
    change (currentId (setState pos' (new_Mine Null) gc))
      with (currentId gc) in Hle. lia.
Qed.

(** C10. When [generateMine] accepts a mine on the edge of the field (an
    orthogonal neighbour lies outside) with no mine orthogonally beside
    it, the mine's group id is set to 0, the value [getId] gives for
    every position outside the field. *)
Theorem boundary_mine_gets_sentinel_id clickPos g0 n g pos g1 :
  allClosed g0 = true -> 1 <= currentId g0 ->
  generateMines n (pooled clickPos g0) = Returns g ->
  acceptedMine g = Returns (pos, g1) ->
  onBoundary g1 pos = true ->
  hasOrthoMine g1 pos = false ->
  exists g',
    generateMine g = Returns g'
    /\ getState g' pos = Some (new_Mine (Num 0))
    /\ forall q, isOutsideField g' q = true -> getId g' q = getId g' pos.
Proof.
  intros Hall Hcur Hgen Hacc Hedge Hlone.
  destruct (generateMine_lone _ _ _ _ _ _ Hall Hcur Hgen Hacc Hlone)
    as (_ & g' & Hrun & Hres).
  rewrite Hedge in Hres. destruct Hres as [Hcell _].
  exists g'. split; [done|]. split; [done|].
  intros q Hq. unfold getId. rewrite Hq, Hcell.
  by destruct (isOutsideField g' pos).
Qed.

Lemma boundary_mine_gets_sentinel_id_witness :
  exists g',
    generateMine (pooled (Vec2.new 0 0) (newGame 4 1 (replay [0%nat])))
    = Returns g'
    /\ getState g' (Vec2.new 2 0) = Some (new_Mine (Num 0))
    /\ forall q, isOutsideField g' q = true ->
         getId g' q = getId g' (Vec2.new 2 0).
Proof.
  eapply (boundary_mine_gets_sentinel_id (Vec2.new 0 0)
            (newGame 4 1 (replay [0%nat])) O).
  - vm_compute. reflexivity.
  - vm_compute. discriminate.
  - reflexivity.
  - vm_compute. reflexivity.
  - vm_compute. reflexivity.
  - vm_compute. reflexivity.
Defined.

(** C6, as the code has it.  When [generateMine] accepts a mine with no
    mine orthogonally beside it: on the edge of the field the mine gets
    id 0, the out-of-bounds sentinel, and [currentId] advances; away from
    the edge the mine keeps the [null] id it was created with, nothing
    else changes and [currentId] does not advance. *)
Theorem lone_mine_id clickPos g0 n g pos g1 :
  allClosed g0 = true -> 1 <= currentId g0 ->
  generateMines n (pooled clickPos g0) = Returns g ->
  acceptedMine g = Returns (pos, g1) ->
  hasOrthoMine g1 pos = false ->
  exists g',
    generateMine g = Returns g'
    /\ if onBoundary g1 pos
       then getState g' pos = Some (new_Mine (Num 0))
            /\ currentId g' = currentId g + 1
       else g' = g1
            /\ getState g' pos = Some (new_Mine Null)
            /\ currentId g' = currentId g.
Proof.
  intros Hall Hcur Hgen Hacc Hlone.
  destruct (generateMine_lone _ _ _ _ _ _ Hall Hcur Hgen Hacc Hlone)
    as (Hcell & g' & Hrun & Hres).
  exists g'. split; [done|].
  destruct (onBoundary g1 pos); [done|].
  destruct Hres as [-> Hc]. done.
Qed.

Lemma lone_mine_id_witness :
  exists g',
    generateMine (pooled (Vec2.new 6 6) (newGame 8 1 (replay [27%nat])))
    = Returns g'
    /\ getState g' (Vec2.new 3 3) = Some (new_Mine Null)
    /\ currentId g' = 1.
Proof.
  destruct (lone_mine_id (Vec2.new 6 6) (newGame 8 1 (replay [27%nat])) O
              (pooled (Vec2.new 6 6) (newGame 8 1 (replay [27%nat])))
              (Vec2.new 3 3)
              (setState (Vec2.new 3 3) (new_Mine Null)
                 (with_minables
                    (removeItem (eligible 8 (Vec2.new 6 6)) 27)
                    (with_drawn 1
                       (pooled (Vec2.new 6 6)
                          (newGame 8 1 (replay [27%nat])))))))
    as (g' & Hrun & Hres).
  - vm_compute. reflexivity.
  - vm_compute. discriminate.
  - reflexivity.
  - vm_compute. reflexivity.
  - vm_compute. reflexivity.
  - exists g'. split; [exact Hrun|].
    change (onBoundary _ _) with false in Hres.
    destruct Hres as (_ & Hcell & Hc). split; [exact Hcell|exact Hc].
Defined.

(** C6, as the spec has it, fails: the first mine of a round laid on the
    top edge carries the id 0 of the positions outside the field, and the
    first mine of a round laid in the interior carries no id at all while
    [currentId] stays where it was. *)
Lemma fresh_id_counterexample :
  (exists pos g1 g',
     let g := pooled (Vec2.new 0 0) (newGame 4 1 (replay [0%nat])) in
     acceptedMine g = Returns (pos, g1)
     /\ hasOrthoMine g1 pos = false
     /\ generateMine g = Returns g'
     /\ isOutsideField g' (Vec2.add pos NORTH) = true
     /\ getId g' pos = getId g' (Vec2.add pos NORTH)
     /\ getId g' pos = Num 0)
  /\ (exists pos g1 g',
     let g := pooled (Vec2.new 6 6) (newGame 8 1 (replay [27%nat])) in
     acceptedMine g = Returns (pos, g1)
     /\ hasOrthoMine g1 pos = false
     /\ generateMine g = Returns g'
     /\ getId g' pos = Null
     /\ currentId g' = currentId g).
Proof.
  split.
  - exists (Vec2.new 2 0). eexists. eexists. cbv zeta.
    split; [vm_compute; reflexivity|].
    split; [vm_compute; reflexivity|].
    split; [vm_compute; reflexivity|].
    split; [vm_compute; reflexivity|].
    split; vm_compute; reflexivity.
  - exists (Vec2.new 3 3). eexists. eexists. cbv zeta.
    split; [vm_compute; reflexivity|].
    split; [vm_compute; reflexivity|].
    split; [vm_compute; reflexivity|].
    split; vm_compute; reflexivity.
Qed.

(** ** The eligible pool *)

(** C9, as the code has it.  On a field of side 4 with the first click at
    (0,0) the pool built by [populateMines] holds exactly 12 of the 16
    positions: those of the field at Chebyshev distance more than 1 from
    (0,0).  Only 4 cells of the 3 x 3 block around the corner are inside
    the field. *)
Theorem pool_at_corner :
  length (eligible 4 (Vec2.new 0 0)) = 12%nat
  /\ (forall m source,
        minables (pooled (Vec2.new 0 0) (newGame 4 m source))
        = eligible 4 (Vec2.new 0 0))
  /\ (forall p,
        In p (eligible 4 (Vec2.new 0 0)) <->
        (0 <= Vec2.x p < 4 /\ 0 <= Vec2.y p < 4)
        /\ 1 < chebyshev (Vec2.new 0 0) p).
Proof.
  split; [reflexivity|]. split; [reflexivity|].
  intros p.
  rewrite (in_eligible (newGame 4 0 (replay [])) (Vec2.new 0 0) p).
  rewrite inField_spec.
  change (Z.of_nat (dimension (newGame 4 0 (replay [])))) with 4.
  assert (Vec2.adjacentTo (Vec2.new 0 0) p = false
          <-> 1 < chebyshev (Vec2.new 0 0) p) as ->; [|done].
  pose proof (adjacentTo_chebyshev (Vec2.new 0 0) p) as H.
  destruct (Vec2.adjacentTo (Vec2.new 0 0) p).
  - destruct H as [H _]. specialize (H eq_refl). split; [done|lia].
  - split; [|done]. intros _.
    destruct (Z_le_gt_dec (chebyshev (Vec2.new 0 0) p) 1) as [Hle|Hgt]; [|lia].
    apply H in Hle. discriminate.
Qed.

(** C9, as the spec has it, fails: the pool does not hold 7 positions. *)
Lemma pool_at_corner_counterexample :
  length (minables (pooled (Vec2.new 0 0) (newGame 4 2 (replay []))))
  <> 7%nat.
Proof. vm_compute. discriminate. Qed.

(** With the first click one cell away from every edge the 3 x 3 block is
    whole and 7 positions are left. *)
Lemma pool_off_the_edge : length (eligible 4 (Vec2.new 1 1)) = 7%nat.
Proof. reflexivity. Qed.

(** ** Connectivity of the cells that are not mines *)

(** [connected8 g a b]: [b] can be reached from [a] by steps between
    neighbouring cells (all eight directions) that are not mines. *)
Inductive connected8 (g : Game) (a : Vec2.t) : Vec2.t -> Prop :=
| connected8_here : connected8 g a a
| connected8_step q r :
    connected8 g a q -> In r (neighbors g q) -> isMine g r = false ->
    connected8 g a r.

(** A list of cells that no step leaves. *)
Definition closedRegion (g : Game) (region : list Vec2.t) : bool :=
  forallb
    (fun q =>
       forallb
         (fun r => isMine g r || existsb (Vec2.equals r) region)
         (neighbors g q))
    region.

Lemma closedRegion_connected8 g region a b :
  closedRegion g region = true -> In a region ->
  connected8 g a b -> In b region.
Proof.
  intros Hclosed Ha. induction 1 as [|q r _ IH Hr Hm]; [done|].
  unfold closedRegion in Hclosed. rewrite forallb_forall in Hclosed.
  specialize (Hclosed q IH). rewrite forallb_forall in Hclosed.
  specialize (Hclosed r Hr). rewrite Hm in Hclosed.
  apply existsb_exists in Hclosed as (r' & Hr' & Heq).
  apply equals_spec in Heq. by subst r'.
Qed.

(** C1 on the code.  On a 4 x 4 field with 4 mines, first click at (0,0)
    and draws 0, 1, 5, 4, [populateMines] returns a board on which the
    cells (0,0) and (3,0) are both free of mines yet not connected: the
    mines (2,0), (2,1), (2,2), (3,2) wall off (3,0) and (3,1). *)
Theorem island_after_populate :
  exists g,
    populateMines (Vec2.new 0 0) (newGame 4 4 (replay [0; 1; 5; 4]%nat))
    = Returns g
    /\ List.filter (isMine g) (allPositions 4)
       = [Vec2.new 2 0; Vec2.new 2 1; Vec2.new 2 2; Vec2.new 3 2]
    /\ (inField g (Vec2.new 0 0) /\ isMine g (Vec2.new 0 0) = false)
    /\ (inField g (Vec2.new 3 0) /\ isMine g (Vec2.new 3 0) = false)
    /\ ~ connected8 g (Vec2.new 0 0) (Vec2.new 3 0).
Proof.
  eexists. split; [vm_compute; reflexivity|].
  split; [vm_compute; reflexivity|].
  split; [split; vm_compute; reflexivity|].
  split; [split; vm_compute; reflexivity|].
  intros Hconn.
  set (region := [Vec2.new 0 0; Vec2.new 1 0; Vec2.new 0 1; Vec2.new 1 1;
                  Vec2.new 0 2; Vec2.new 1 2; Vec2.new 0 3; Vec2.new 1 3;
                  Vec2.new 2 3; Vec2.new 3 3]).
  apply (closedRegion_connected8 _ region) in Hconn.
  - assert (existsb (Vec2.equals (Vec2.new 3 0)) region = true) as Hin.
    { apply existsb_exists. exists (Vec2.new 3 0).
      split; [exact Hconn|by apply equals_spec]. }
    vm_compute in Hin. discriminate.
  - vm_compute. reflexivity.
  - by left.
Qed.

(** ** Opening cells *)

Lemma openCell_S fuel pos g :
  openCell (S fuel) pos g =
  let neighbors := neighbors g pos in
  let g1 :=
    if flaggedAt g pos
    then with_numRemainingFlags (numRemainingFlags g + 1) g
    else g in
  let g2 := setState pos new_Open g1 in
  let mineCount :=
    Iterator.each
      (fun neighbor count => if isMine g2 neighbor then S count else count)
      neighbors O in
  let flooded :=
    if (mineCount =? 0)%nat then
      Iterator.eachM
        (fun neighbor g' =>
           if isEmpty g' neighbor then openCell fuel neighbor g'
           else Some g')
        neighbors g2
    else Some g2 in
  match flooded with
  | Some g3 =>
      let g4 := with_remainingClearCells (remainingClearCells g3 - 1) g3 in
      if remainingClearCells g4 =? 0 then Some (win g4) else Some g4
  | None => None
  end.
Proof. reflexivity. Qed.

(** [opens g g']: [g'] is [g] except that some cells that were not mines
    now hold a new [Open] object. *)
Definition opens (g g' : Game) : Prop :=
  (dimension g' = dimension g /\ totalMines g' = totalMines g)
  /\ forall q, inField g q ->
       getState g' q = getState g q
       \/ (getState g' q = Some new_Open /\ isMine g q = false).

Lemma opens_refl g : opens g g.
Proof. split; [done|]. by left. Qed.

Lemma opens_isMine g g' q :
  opens g g' -> inField g q -> isMine g' q = isMine g q.
Proof.
  intros [_ H] Hq. destruct (H q Hq) as [Heq|[Heq Hm]].
  - by apply isMine_ext.
  - rewrite Hm. unfold isMine. by rewrite Heq.
Qed.

Lemma opens_trans g1 g2 g3 : opens g1 g2 -> opens g2 g3 -> opens g1 g3.
Proof.
  intros H12 H23. pose proof H12 as [[Hd1 Hm1] H1].
  pose proof H23 as [[Hd2 Hm2] H2]. split; [split; congruence|].
  intros q Hq.
  assert (Hq2 : inField g2 q) by (by eapply inField_dim).
  destruct (H2 q Hq2) as [Heq|[Heq Hm]].
  - rewrite Heq. apply H1, Hq.
  - right. split; [done|]. by rewrite <- (opens_isMine g1 g2).
Qed.

Lemma opens_total g g' : opens g g' -> total g -> total g'.
Proof.
  intros [[Hd _] H] Ht q Hq.
  assert (Hq' : inField g q) by (eapply inField_dim; [|exact Hq]; done).
  destruct (H q Hq') as [-> |[-> _]]; [by apply Ht|eauto].
Qed.

Lemma opens_isEmpty g g' q :
  opens g g' -> isEmpty g' q = true -> isEmpty g q = true.
Proof.
  intros [[Hd _] H] He. pose proof He as (Hq & c & Hc & Hk)%isEmpty_spec.
  assert (Hq' : inField g q) by (eapply inField_dim; [|exact Hq]; done).
  apply isEmpty_spec. split; [done|].
  destruct (H q Hq') as [Heq|[Heq _]].
  - exists c. by rewrite <- Heq.
  - rewrite Heq in Hc. injection Hc as <-. discriminate.
Qed.

Lemma opens_countClosed g g' :
  opens g g' -> (countClosed g' <= countClosed g)%nat.
Proof.
  intros Ho. unfold countClosed. rewrite (proj1 (proj1 Ho)).
  apply filter_length_le. intros q _. by apply opens_isEmpty.
Qed.

Lemma opens_setOpen g pos :
  inField g pos -> isMine g pos = false -> opens g (setState pos new_Open g).
Proof.
  intros Hpos Hm. split; [done|]. intros q Hq.
  destruct (decide (q = pos)) as [->|Hne].
  - right. split; [apply getState_setState_eq|done].
  - left. by apply getState_setState_ne.
Qed.

Lemma countClosed_open g pos :
  isEmpty g pos = true ->
  countClosed g = S (countClosed (setState pos new_Open g)).
Proof.
  intros He. pose proof (isEmpty_inField _ _ He) as Hpos.
  unfold countClosed. rewrite setState_dimension.
  apply (filter_length_flip _ _ _ pos).
  - apply NoDup_allPositions.
  - by apply in_allPositions.
  - unfold isEmpty. rewrite getState_setState_eq. simpl.
    apply andb_false_r.
  - done.
  - intros q _ Hne. symmetry. by apply placed_isEmpty_ne.
Qed.

Lemma countClosed_reopen g pos :
  inField g pos -> isEmpty g pos = false ->
  countClosed (setState pos new_Open g) = countClosed g.
Proof.
  intros Hpos He. unfold countClosed. rewrite setState_dimension. f_equal.
  apply filter_ext_in_list. intros q _.
  destruct (decide (q = pos)) as [->|Hne].
  - rewrite He. unfold isEmpty. rewrite getState_setState_eq. simpl.
    apply andb_false_r.
  - by apply placed_isEmpty_ne.
Qed.

Lemma countClosed_bound g : (countClosed g <= dimension g * dimension g)%nat.
Proof.
  unfold countClosed. rewrite <- (length_allPositions (dimension g)).
  apply List.filter_length_le.
Qed.

(** One when the counter passes from above zero to zero or below. *)
Definition reachesZero (before after : Z) : nat :=
  if (after <=? 0) && (0 <? before) then 1%nat else 0%nat.

Lemma reachesZero_split a b c :
  c <= b -> b <= a ->
  (reachesZero a b + reachesZero b c = reachesZero a c)%nat.
Proof.
  unfold reachesZero. intros Hcb Hba.
  destruct (b <=? 0) eqn:E1, (0 <? a) eqn:E2, (c <=? 0) eqn:E3,
    (0 <? b) eqn:E4; simpl; try reflexivity; lia.
Qed.

(** [n] is the number of cells of the field that are not mines. *)
Definition allClear (g : Game) (n : nat) : Prop :=
  (n + countMines g = dimension g * dimension g)%nat.

(** What a stretch of play adds to the win log: one entry if the counter
    reached zero, none otherwise; and, when the counter started high
    enough ([enough], which compares it with the number of [Close] cells
    left to open), an entry is only made once every cell that is not a
    mine is [Open]. *)
Definition logged (enough : Prop) (g g' : Game) : Prop :=
  exists extra,
    winLog g' = winLog g ++ extra
    /\ length extra
       = reachesZero (remainingClearCells g) (remainingClearCells g')
    /\ (enough -> forall n, In n extra -> allClear g n).

(** What one call of [openCell] on a cell that is not a mine does. *)
Definition openResult (pos : Vec2.t) (g g' : Game) : Prop :=
  opens (setState pos new_Open g) g'
  /\ remainingClearCells g' - Z.of_nat (countClosed g')
     = remainingClearCells g
       - Z.of_nat (countClosed (setState pos new_Open g)) - 1
  /\ logged (Z.of_nat (countClosed (setState pos new_Open g))
             < remainingClearCells g) g g'.

Lemma openResult_less pos g g' :
  openResult pos g g' -> remainingClearCells g' < remainingClearCells g.
Proof.
  intros (Ho & Hr & _). apply opens_countClosed in Ho. lia.
Qed.

Lemma reachesZero_same a : reachesZero a a = O.
Proof.
  unfold reachesZero.
  destruct (a <=? 0) eqn:E1, (0 <? a) eqn:E2; simpl; lia.
Qed.

Lemma reachesZero_last a :
  reachesZero a (a - 1) = if a - 1 =? 0 then 1%nat else 0%nat.
Proof.
  unfold reachesZero.
  destruct (a - 1 <=? 0) eqn:E1, (0 <? a) eqn:E2, (a - 1 =? 0) eqn:E3;
    simpl; try reflexivity; lia.
Qed.

Lemma opens_countMines g g' : opens g g' -> countMines g' = countMines g.
Proof.
  intros Ho. unfold countMines. rewrite (proj1 (proj1 Ho)). f_equal.
  apply filter_ext_in_list. intros p Hp%in_allPositions.
  by apply opens_isMine.
Qed.

Lemma allClear_opens g g' n : opens g g' -> allClear g' n -> allClear g n.
Proof.
  intros Ho. unfold allClear.
  by rewrite (opens_countMines _ _ Ho), (proj1 (proj1 Ho)).
Qed.

Lemma filter_split3_length {A} (f h k : A -> bool) l :
  (forall a, In a l ->
     (f a = true /\ h a = false /\ k a = false)
     \/ (f a = false /\ h a = true /\ k a = false)
     \/ (f a = false /\ h a = false /\ k a = true)) ->
  (length (List.filter f l) + length (List.filter h l)
   + length (List.filter k l) = length l)%nat.
Proof.
  induction l as [|a l IH]; intros H; simpl; [done|].
  assert (IH' := IH (fun b Hb => H b (or_intror Hb))).
  destruct (H a (or_introl eq_refl))
    as [(-> & -> & ->)|[(-> & -> & ->)|(-> & -> & ->)]]; simpl; lia.
Qed.

Lemma counts_total g :
  total g ->
  (countClosed g + countOpen g + countMines g
   = dimension g * dimension g)%nat.
Proof.
  intros Ht. unfold countClosed, countOpen, countMines.
  rewrite <- (length_allPositions (dimension g)).
  apply filter_split3_length. intros p Hp%in_allPositions.
  destruct (Ht p Hp) as [c Hc].
  unfold isEmpty, isOpen, isMine, instanceof. rewrite Hp, Hc. simpl.
  destruct (Cell.ctor c); vm_compute; tauto.
Qed.

(** Stretches of play follow one another. *)
Lemma logged_trans c1 c2 g1 g2 g3 :
  logged c1 g1 g2 -> logged c2 g2 g3 ->
  remainingClearCells g3 <= remainingClearCells g2 ->
  remainingClearCells g2 <= remainingClearCells g1 ->
  (c1 -> c2) ->
  (forall n, allClear g2 n -> allClear g1 n) ->
  logged c1 g1 g3.
Proof.
  intros (e1 & Hl1 & Hn1 & Hc1) (e2 & Hl2 & Hn2 & Hc2) H32 H21 Hcare Hclear.
  exists (e1 ++ e2). split; [by rewrite Hl2, Hl1, app_assoc|]. split.
  - rewrite length_app, Hn1, Hn2. by apply reachesZero_split.
  - intros Hlt n [Hn|Hn]%in_app_or; [by apply Hc1|].
    apply Hclear, Hc2; [by apply Hcare|done].
Qed.

Lemma logged_refl c g : logged c g g.
Proof.
  exists []. split; [by rewrite app_nil_r|].
  split; [by rewrite reachesZero_same|]. intros _ n [].
Qed.

Lemma openCell_spec fuel : forall pos g g',
  total g -> inField g pos -> isMine g pos = false ->
  openCell fuel pos g = Some g' -> openResult pos g g'.
Proof.
  induction fuel as [|fuel IH]; intros pos g g' Ht Hpos Hm Hrun; [done|].
  rewrite openCell_S in Hrun. cbv zeta in Hrun.
  set (g1 := if flaggedAt g pos then _ else g) in Hrun.
  assert (Hg1 : exists n, g1 = with_numRemainingFlags n g).
  { subst g1. destruct (flaggedAt g pos); [by eexists|].
    exists (numRemainingFlags g). by destruct g. }
  destruct Hg1 as [n Hg1]. clearbody g1. subst g1.
  set (g2 := setState pos new_Open (with_numRemainingFlags n g)) in Hrun.
  set (g2' := setState pos new_Open g).
  assert (Hsame : forall s, opens g2 s -> opens g2' s)
    by (intros s H; exact H).
  assert (HC2 : countClosed g2 = countClosed g2') by reflexivity.
  assert (HR1 : remainingClearCells g2 = remainingClearCells g)
    by reflexivity.
  assert (HW1 : winLog g2 = winLog g) by reflexivity.
  assert (Hog : opens g g2') by (by apply opens_setOpen).
  assert (Ht2 : total g2).
  { change (total g2'). eapply opens_total; [|exact Ht]. done. }
  set (L := fun s : Game =>
    opens g2 s /\ total s
    /\ remainingClearCells s - Z.of_nat (countClosed s)
       = remainingClearCells g2 - Z.of_nat (countClosed g2)
    /\ remainingClearCells s <= remainingClearCells g2
    /\ logged (Z.of_nat (countClosed g2) < remainingClearCells g2) g2 s).
  assert (HL2 : L g2).
  { split; [apply opens_refl|]. split; [done|]. split; [done|].
    split; [lia|apply logged_refl]. }
  assert (Hfinish : forall g3, L g3 ->
            (let g4 := with_remainingClearCells (remainingClearCells g3 - 1) g3 in
             if remainingClearCells g4 =? 0 then Some (win g4) else Some g4)
            = Some g' -> openResult pos g g').
  { intros g3 (Ho & Ht3 & HR & Hle & (extra & Hlog & Hlen & Hcare)) Hres.
    cbv zeta in Hres.
    rewrite HR1 in *. rewrite HW1 in *. rewrite HC2 in *.
    change (remainingClearCells (with_remainingClearCells _ g3))
      with (remainingClearCells g3 - 1) in Hres.
    pose proof (reachesZero_split (remainingClearCells g)
                  (remainingClearCells g3) (remainingClearCells g3 - 1)
                  ltac:(lia) Hle) as Hsplit.
    rewrite reachesZero_last in Hsplit.
    assert (Hog3 : opens g g3)
      by (eapply opens_trans; [exact Hog|by apply Hsame]).
    assert (Hcare' : Z.of_nat (countClosed g2') < remainingClearCells g ->
              forall m, In m extra -> allClear g m).
    { intros Hlt m Hm'. apply (allClear_opens _ _ _ Hog).
      change (allClear g2 m). by apply Hcare. }
    destruct (remainingClearCells g3 - 1 =? 0) eqn:E;
      injection Hres as <-.
    - split; [by apply Hsame|]. split.
      + change (remainingClearCells g3 - 1 - Z.of_nat (countClosed g3)
                = remainingClearCells g - Z.of_nat (countClosed g2') - 1).
        lia.
      + exists (extra ++ [countOpen g3]). split; [|split].
        * change (winLog g3 ++ [countOpen g3]
                  = winLog g ++ extra ++ [countOpen g3]).
          by rewrite Hlog, app_assoc.
        * change (length (extra ++ [countOpen g3])
                  = reachesZero (remainingClearCells g)
                      (remainingClearCells g3 - 1)).
          rewrite length_app, Hlen. simpl. lia.
        * intros Hlt m [Hm'|[<-|[]]]%in_app_or; [by apply Hcare'|].
          apply (allClear_opens _ _ _ Hog3). unfold allClear.
          pose proof (counts_total _ Ht3) as Hsum.
          change (Z.of_nat (countClosed g2') < remainingClearCells g) in Hlt.
          apply Z.eqb_eq in E. lia.
    - split; [by apply Hsame|]. split.
      + change (remainingClearCells g3 - 1 - Z.of_nat (countClosed g3)
                = remainingClearCells g - Z.of_nat (countClosed g2') - 1).
        lia.
      + exists extra. split; [exact Hlog|]. split; [|exact Hcare'].
        change (length extra
                = reachesZero (remainingClearCells g)
                    (remainingClearCells g3 - 1)).
        lia. }
  destruct (Iterator.each _ _ _ =? 0)%nat.
  2:{ by apply (Hfinish g2). }
  match type of Hrun with
  | match Iterator.eachM ?f ?l g2 with _ => _ end = _ =>
      destruct (Iterator.eachM f l g2) as [g3|] eqn:Hloop; [|done];
      assert (HL3 : L g3);
      [revert Hloop; apply eachM_preserves; [|exact HL2]|by apply (Hfinish g3)]
  end.
  intros q s s' Hq (Ho & Hts & HR & Hle & Hlog) Hstep.
  destruct (isEmpty s q) eqn:He; [|by injection Hstep as <-].
  pose proof (isEmpty_inField _ _ He) as Hqs.
  pose proof (isEmpty_not_mine _ _ He) as Hms.
  pose proof (IH q s s' Hts Hqs Hms Hstep) as Hres.
  pose proof (openResult_less _ _ _ Hres) as Hless.
  destruct Hres as (Ho' & HR' & Hlog').
  pose proof (opens_setOpen s q Hqs Hms) as Hos.
  pose proof (opens_countClosed _ _ Ho') as Hle'.
  pose proof (countClosed_open _ _ He) as Hc.
  assert (Hoss : opens s s') by (eapply opens_trans; eauto).
  split; [eapply opens_trans; eauto|].
  split; [eapply opens_total; eauto|].
  split; [lia|]. split; [lia|].
  eapply logged_trans; [exact Hlog|exact Hlog'|lia|lia|lia|].
  intros m. by apply allClear_opens.
Qed.

Lemma openCell_runs fuel : forall pos g,
  total g -> inField g pos -> isMine g pos = false ->
  (countClosed (setState pos new_Open g) < fuel)%nat ->
  exists g', openCell fuel pos g = Some g'.
Proof.
  induction fuel as [|fuel IH]; intros pos g Ht Hpos Hm Hfuel; [lia|].
  rewrite openCell_S. cbv zeta.
  set (g1 := if flaggedAt g pos then _ else g).
  assert (Hg1 : exists n, g1 = with_numRemainingFlags n g).
  { subst g1. destruct (flaggedAt g pos); [by eexists|].
    exists (numRemainingFlags g). by destruct g. }
  destruct Hg1 as [n Hg1]. clearbody g1. subst g1.
  set (g2 := setState pos new_Open (with_numRemainingFlags n g)).
  assert (Ht2 : total g2).
  { change (total (setState pos new_Open g)).
    eapply opens_total; [|exact Ht]. by apply opens_setOpen. }
  assert (HC2 : (countClosed g2 < S fuel)%nat) by exact Hfuel.
  assert (Hdone : forall g3 : Game, exists g',
    (if remainingClearCells
          (with_remainingClearCells (remainingClearCells g3 - 1) g3) =? 0
     then Some (win (with_remainingClearCells (remainingClearCells g3 - 1) g3))
     else Some (with_remainingClearCells (remainingClearCells g3 - 1) g3))
    = Some g').
  { intros g3.
    match goal with |- context [if ?c then _ else _] => destruct c end;
      eexists; reflexivity. }
  destruct (Iterator.each _ _ _ =? 0)%nat; [|apply Hdone].
  match goal with
  | |- exists g', match Iterator.eachM ?f ?l g2 with _ => _ end = _ =>
      destruct (eachM_runs (fun s => opens g2 s /\ total s) f l)
        with (s := g2) as (g3 & -> & _)
  end; [|split; [apply opens_refl|done]|apply Hdone].
  intros q s _ [Ho Hts].
  destruct (isEmpty s q) eqn:He; [|eauto].
  pose proof (isEmpty_inField _ _ He) as Hqs.
  pose proof (isEmpty_not_mine _ _ He) as Hms.
  destruct (IH q s Hts Hqs Hms) as [s' Hs'].
  - pose proof (countClosed_open _ _ He).
    pose proof (opens_countClosed _ _ Ho). lia.
  - exists s'. split; [done|].
    destruct (openCell_spec _ _ _ _ Hts Hqs Hms Hs') as (Ho' & _).
    pose proof (opens_setOpen s q Hqs Hms) as Hos.
    assert (Hss : opens s s') by (eapply opens_trans; eauto).
    split; [|exact (opens_total _ _ Hss Hts)].
    eapply opens_trans; [exact Ho|exact Hss].
Qed.

Lemma openCell_enough_fuel pos g :
  total g -> inField g pos -> isMine g pos = false ->
  exists g', openCell (openCell_fuel g) pos g = Some g'.
Proof.
  intros Ht Hpos Hm. apply openCell_runs; try done.
  pose proof (countClosed_bound (setState pos new_Open g)) as Hb.
  rewrite setState_dimension in Hb. unfold openCell_fuel. lia.
Qed.

Lemma openCells_cons pos rest g :
  openCells (pos :: rest) g =
  if isEmpty g pos then
    match openCell (openCell_fuel g) pos g with
    | Some g' => openCells rest g'
    | None => None
    end
  else None.
Proof. reflexivity. Qed.

Lemma openCells_spec positions : forall g g',
  total g -> openCells positions g = Some g' ->
  opens g g'
  /\ remainingClearCells g' - Z.of_nat (countClosed g')
     = remainingClearCells g - Z.of_nat (countClosed g)
  /\ remainingClearCells g' <= remainingClearCells g
  /\ (positions <> [] -> (0 < countClosed g)%nat)
  /\ logged (Z.of_nat (countClosed g) <= remainingClearCells g) g g'.
Proof.
  induction positions as [|pos rest IH]; intros g g' Ht Hrun;
    [simpl in Hrun|rewrite openCells_cons in Hrun].
  - injection Hrun as <-. split; [apply opens_refl|]. split; [done|].
    split; [lia|]. split; [done|apply logged_refl].
  - destruct (isEmpty g pos) eqn:He; [|done].
    destruct (openCell (openCell_fuel g) pos g) as [g1|] eqn:Hopen; [|done].
    pose proof (isEmpty_inField _ _ He) as Hpos.
    pose proof (isEmpty_not_mine _ _ He) as Hm.
    pose proof (openCell_spec _ _ _ _ Ht Hpos Hm Hopen) as Hres.
    pose proof (openResult_less _ _ _ Hres) as Hless.
    destruct Hres as (Ho & HR & Hlog).
    pose proof (opens_setOpen g pos Hpos Hm) as Hos.
    assert (Ho1 : opens g g1) by (eapply opens_trans; eauto).
    pose proof (countClosed_open _ _ He) as Hc.
    destruct (IH g1 g' (opens_total _ _ Ho1 Ht) Hrun)
      as (Ho' & HR' & Hle' & _ & Hlog').
    split; [eapply opens_trans; eauto|]. split; [lia|].
    split; [lia|]. split; [intros _; lia|].
    assert (Hlog1 : logged (Z.of_nat (countClosed g) <= remainingClearCells g)
                      g g1).
    { destruct Hlog as (extra & H1 & H2 & H3). exists extra.
      split; [done|]. split; [done|]. intros Hle. apply H3. lia. }
    eapply logged_trans; [exact Hlog1|exact Hlog'|lia|lia|lia|].
    intros m. by apply allClear_opens.
Qed.

(** ** The win signal *)

(** C7. On a board produced by [populateMines] from a round that starts
    all [Close] with the counter at [d * d - m], after any run of
    [openCell] calls made on cells that are [Close] when called: at most
    [d * d - m] cells are [Open]; [win] has not run while fewer are
    [Open]; when that many are [Open] it has run exactly once, and it ran
    at a moment when [d * d - m] cells were [Open]; and any further call
    on a [Close] cell returns.  The statement holds after every prefix of
    the run, so [win] runs in the call that brings the number of [Open]
    cells to [d * d - m] and in no other. *)
Theorem win_exactly_once clickPos g0 g positions g' :
  allClosed g0 = true ->
  remainingClearCells g0
  = Z.of_nat (dimension g0 * dimension g0) - Z.of_nat (totalMines g0) ->
  populateMines clickPos g0 = Returns g ->
  openCells positions g = Some g' ->
  let target := (dimension g0 * dimension g0 - totalMines g0)%nat in
  (countOpen g' <= target)%nat
  /\ ((countOpen g' < target)%nat -> winLog g' = winLog g0)
  /\ (positions <> [] -> countOpen g' = target ->
      winLog g' = winLog g0 ++ [target])
  /\ (forall pos, isEmpty g' pos = true ->
        exists g'', openCell (openCell_fuel g') pos g' = Some g'').
Proof.
  intros Hall HR0 Hpop Hplay target.
  unfold populateMines in Hpop.
  apply (generateMines_count clickPos _ g0) in Hpop as (HB & HM & Hu);
    [|done].
  destruct (Base_counts _ _ HB) as [Hsum Hopen0].
  pose proof (Base_total _ _ HB) as Ht.
  destruct (openCells_spec _ _ _ Ht Hplay)
    as (Ho & HR & Hle & Hne & (extra & Hlog & Hlen & Hclear)).
  pose proof (opens_total _ _ Ho Ht) as Ht'.
  pose proof (counts_total _ Ht') as Hsum'.
  rewrite (opens_countMines _ _ Ho), HM in Hsum'.
  rewrite (proj1 (proj1 Ho)) in Hsum'.
  unfold allClear in Hclear.
  rewrite HM in Hsum, Hclear.
  rewrite (same_dimension _ _ Hu) in Hsum, Hsum', Hclear.
  rewrite (same_remainingClearCells _ _ Hu), HR0 in HR, Hlen, Hclear.
  rewrite (same_winLog _ _ Hu) in Hlog.
  assert (HRg' : remainingClearCells g' = Z.of_nat (countClosed g')) by lia.
  subst target.
  split; [lia|]. split; [|split].
  - intros Hlt. assert (length extra = O) as Hnil.
    { rewrite Hlen. unfold reachesZero.
      destruct (remainingClearCells g' <=? 0) eqn:E; [|done].
      apply Z.leb_le in E. lia. }
    destruct extra; [|done]. by rewrite Hlog, app_nil_r.
  - intros Hpos Heq. specialize (Hne Hpos).
    assert (length extra = 1%nat) as Hone.
    { rewrite Hlen. unfold reachesZero.
      destruct (remainingClearCells g' <=? 0) eqn:E1;
        [|apply Z.leb_gt in E1; lia].
      destruct (0 <? _) eqn:E2; [done|apply Z.ltb_ge in E2; lia]. }
    destruct extra as [|n [|? ?]]; try done.
    rewrite Hlog. f_equal. f_equal.
    specialize (Hclear ltac:(lia) n ltac:(by left)). lia.
  - intros pos He. apply openCell_enough_fuel; [done| |].
    + by apply isEmpty_inField.
    + by apply isEmpty_not_mine.
Qed.

Lemma win_exactly_once_witness :
  exists g g',
    populateMines (Vec2.new 0 0) (newGame 4 4 (replay [0; 1; 5; 4]%nat))
    = Returns g
    /\ openCells [Vec2.new 0 0; Vec2.new 2 3; Vec2.new 3 3;
                  Vec2.new 3 0; Vec2.new 3 1] g = Some g'
    /\ winLog g' = [12%nat].
Proof.
  eexists. eexists. split; [vm_compute; reflexivity|].
  split; [vm_compute; reflexivity|].
  refine (proj1 (proj2 (proj2
            (win_exactly_once (Vec2.new 0 0)
               (newGame 4 4 (replay [0; 1; 5; 4]%nat)) _
               [Vec2.new 0 0; Vec2.new 2 3; Vec2.new 3 3;
                Vec2.new 3 0; Vec2.new 3 1] _ _ _ _ _))) _ _).
  - vm_compute. reflexivity.
  - vm_compute. reflexivity.
  - vm_compute. reflexivity.
  - vm_compute. reflexivity.
  - discriminate.
  - vm_compute. reflexivity.
Defined.

(** ** Opening a cell that is already open *)

(** Every slot of the field holds an object. *)
Definition filled (g : Game) : bool :=
  Iterator.all
    (fun p => match getState g p with Some _ => true | None => false end)
    (allPositions (dimension g)).

Lemma filled_total g : filled g = true -> total g.
Proof.
  unfold filled, Iterator.all. rewrite forallb_forall.
  intros H p Hp%in_allPositions. specialize (H p Hp).
  destruct (getState g p); [eauto|done].
Qed.

(** C8, as the code has it.  [openCell] has no guard of its own: called
    on an [Open] cell of the field it returns with the cell still [Open]
    and the mines where they were, but [remainingClearCells] is lowered
    by one plus the number of [Close] cells its flood opens.  It is the
    click handler that leaves the game untouched when the clicked cell is
    [Open]: with shift because flags are only toggled on cells that are
    not [Open], without shift because [openCell] is only called on
    [Close] cells. *)
Theorem openCell_on_open_cell g pos :
  filled g = true ->
  isOutsideField g pos = false ->
  isOpen g pos = true ->
  (exists g',
     openCell (openCell_fuel g) pos g = Some g'
     /\ isOpen g' pos = true
     /\ (forall q, inField g q -> isMine g' q = isMine g q)
     /\ (countClosed g' <= countClosed g)%nat
     /\ remainingClearCells g'
        = remainingClearCells g - 1
          - (Z.of_nat (countClosed g) - Z.of_nat (countClosed g')))
  /\ onCanvasClick pos true g = Returns g
  /\ (hasGenMines g = true -> onCanvasClick pos false g = Returns g).
Proof.
  intros Ht%filled_total Hpos Hopen.
  assert (Hcell : exists c, getState g pos = Some c /\ Cell.ctor c = Open).
  { unfold isOpen, instanceof in Hopen.
    destruct (getState g pos) as [c|]; [|done].
    apply bool_decide_eq_true in Hopen. eauto. }
  destruct Hcell as (c & Hc & Hk).
  assert (Hm : isMine g pos = false).
  { unfold isMine, instanceof. rewrite Hc. apply bool_decide_eq_false.
    congruence. }
  assert (He : isEmpty g pos = false).
  { unfold isEmpty, instanceof. rewrite Hc.
    rewrite bool_decide_eq_false_2 by congruence. apply andb_false_r. }
  split; [|split].
  - destruct (openCell_enough_fuel pos g Ht Hpos Hm) as [g' Hrun].
    exists g'. split; [done|].
    destruct (openCell_spec _ _ _ _ Ht Hpos Hm Hrun) as (Ho & HR & _).
    pose proof (opens_setOpen g pos Hpos Hm) as Hos.
    pose proof (opens_countClosed _ _ Ho) as Hle.
    rewrite (countClosed_reopen g pos Hpos He) in HR, Hle.
    split; [|split; [|split; [done|lia]]].
    + destruct Ho as [_ Ho]. unfold isOpen.
      destruct (Ho pos Hpos) as [-> |[-> _]];
        by rewrite ?getState_setState_eq.
    + intros q Hq. apply opens_isMine; [|done]. by eapply opens_trans.
  - unfold onCanvasClick. cbv zeta.
    unfold isOpen in Hopen. by rewrite Hopen.
  - intros Hgen. unfold onCanvasClick. cbv zeta. rewrite Hgen. simpl negb.
    unfold isMine in Hm. rewrite Hm.
    assert (instanceof (getState g pos) Close = false) as ->.
    { unfold instanceof. rewrite Hc. apply bool_decide_eq_false. congruence. }
    by destruct (negb (flaggedAt g pos)).
Qed.

(** A 2 x 2 round without mines whose corner cell was replaced by an
    [Open] object while its three neighbours are still [Close]. *)
Definition cornerOpened : Game :=
  setState (Vec2.new 0 0) new_Open (newGame 2 0 (replay [])).

Lemma openCell_on_open_cell_witness :
  exists g',
    openCell (openCell_fuel cornerOpened) (Vec2.new 0 0) cornerOpened
    = Some g'
    /\ remainingClearCells g'
       = remainingClearCells cornerOpened - 1
         - (Z.of_nat (countClosed cornerOpened) - Z.of_nat (countClosed g')).
Proof.
  destruct (openCell_on_open_cell cornerOpened (Vec2.new 0 0))
    as [(g' & Hrun & _ & _ & _ & HR) _].
  - vm_compute. reflexivity.
  - vm_compute. reflexivity.
  - vm_compute. reflexivity.
  - exists g'. split; [exact Hrun|exact HR].
Defined.

(** C8, as the spec has it, fails: on the board of the 4 x 4 round with
    draws 0, 1, 5, 4, opening (1,0) leaves it [Open] with the counter at
    11, and opening it again lowers the counter to 10. *)
Lemma reopen_counterexample :
  exists g g1 g2,
    populateMines (Vec2.new 0 0) (newGame 4 4 (replay [0; 1; 5; 4]%nat))
    = Returns g
    /\ openCell (openCell_fuel g) (Vec2.new 1 0) g = Some g1
    /\ isOpen g1 (Vec2.new 1 0) = true
    /\ openCell (openCell_fuel g1) (Vec2.new 1 0) g1 = Some g2
    /\ remainingClearCells g1 = 11
    /\ remainingClearCells g2 = 10
    /\ remainingClearCells g2 <> remainingClearCells g1.
Proof.
  eexists. eexists. eexists.
  split; [vm_compute; reflexivity|].
  split; [vm_compute; reflexivity|].
  split; [vm_compute; reflexivity|].
  split; [vm_compute; reflexivity|].
  split; [vm_compute; reflexivity|].
  split; [vm_compute; reflexivity|].
  vm_compute. discriminate.
Qed.


(** * Further properties of the code *)

(** ** Vectors *)


(** The quarter turn permutes the four orthogonal directions, so the
    corner test of [willCreateIsland] visits each of the four corners
    once: north with west, east with north, south with east, west with
    south. *)
Theorem clockwise_orthogonal_directions :
  List.map Vec2.clockwise ORTHO_DIRS = [WEST; NORTH; EAST; SOUTH]
  /\ List.map (fun dir => Vec2.add dir (Vec2.clockwise dir)) ORTHO_DIRS
     = [NORTHWEST; NORTHEAST; SOUTHEAST; SOUTHWEST]
  /\ forall dir, In dir ORTHO_DIRS -> In (Vec2.clockwise dir) ORTHO_DIRS.
Proof.
  split; [reflexivity|]. split; [reflexivity|].
  intros dir Hdir. apply (in_map Vec2.clockwise) in Hdir.
  revert Hdir. vm_compute. tauto.
Qed.

Lemma chebyshev_sym a b : chebyshev a b = chebyshev b a.
Proof. unfold chebyshev. lia. Qed.

(** X2. [adjacentTo] holds of a vector and itself, does not depend on the
    order of its arguments, and holds exactly when the Chebyshev distance
    is at most 1. *)
Theorem adjacentTo_reflexive_symmetric a b :
  Vec2.adjacentTo a a = true
  /\ Vec2.adjacentTo a b = Vec2.adjacentTo b a
  /\ (Vec2.adjacentTo a b = true <-> chebyshev a b <= 1).
Proof.
  split; [|split].
  - apply adjacentTo_chebyshev. unfold chebyshev. lia.
  - pose proof (adjacentTo_chebyshev a b) as Hab.
    pose proof (adjacentTo_chebyshev b a) as Hba.
    rewrite (chebyshev_sym b a) in Hba.
    destruct (Vec2.adjacentTo a b), (Vec2.adjacentTo b a); try done.
    + destruct Hab as [Hab _]. destruct Hba as [_ Hba].
      specialize (Hba (Hab eq_refl)). discriminate.
    + destruct Hba as [Hba _]. destruct Hab as [_ Hab].
      specialize (Hab (Hba eq_refl)). discriminate.
  - apply adjacentTo_chebyshev.
Qed.

(** ** Neighbours *)

Lemma in_ALL_DIRS dir :
  In dir ALL_DIRS <-> chebyshev dir (Vec2.new 0 0) = 1.
Proof.
  destruct dir as [dx dy]. unfold chebyshev; simpl. split.
  - unfold ALL_DIRS, NORTH, NORTHEAST, EAST, SOUTHEAST, SOUTH, SOUTHWEST,
      WEST, NORTHWEST. simpl.
    intros [H|[H|[H|[H|[H|[H|[H|[H|[]]]]]]]]]; injection H as <- <-; lia.
  - intros H.
    assert (dx = -1 \/ dx = 0 \/ dx = 1) as Hx by lia.
    assert (dy = -1 \/ dy = 0 \/ dy = 1) as Hy by lia.
    destruct Hx as [-> |[-> | ->]], Hy as [-> |[-> | ->]];
      try (vm_compute; tauto); lia.
Qed.

Lemma NoDup_ALL_DIRS : List.NoDup ALL_DIRS.
Proof.
  unfold ALL_DIRS. repeat constructor; simpl; intuition discriminate.
Qed.

(** X3. The neighbours of a position are exactly the positions of the field
    at Chebyshev distance 1 from it: never the position itself, never a
    position outside the field.  The list has no duplicates and at most
    eight entries, and being a neighbour is symmetric between positions
    of the field. *)
Theorem neighbors_characterised g p :
  (forall q, In q (neighbors g p) <-> inField g q /\ chebyshev q p = 1)
  /\ List.NoDup (neighbors g p)
  /\ (length (neighbors g p) <= 8)%nat
  /\ (forall q, inField g p -> In q (neighbors g p) -> In p (neighbors g q)).
Proof.
  split; [|split; [|split]].
  - intros q. rewrite in_neighbors. split.
    + intros [Hq (dir & Hdir%in_ALL_DIRS & ->)]. split; [done|].
      revert Hdir. unfold chebyshev, Vec2.add; simpl. lia.
    + intros [Hq Hdist]. split; [done|].
      exists (Vec2.subtract q p). split.
      * apply in_ALL_DIRS. revert Hdist.
        unfold chebyshev, Vec2.subtract; simpl. lia.
      * destruct p, q. unfold Vec2.add, Vec2.subtract; simpl. f_equal; lia.
  - unfold neighbors, Iterator.filter, Vec2.inDirs, Iterator.map.
    apply List.NoDup_filter. apply Finite.Injective_map_NoDup.
    + intros a b Hab. destruct p, a, b.
      unfold Vec2.add in Hab; simpl in Hab. injection Hab as ? ?.
      f_equal; lia.
    + apply NoDup_ALL_DIRS.
  - unfold neighbors, Iterator.filter, Vec2.inDirs, Iterator.map.
    etransitivity; [apply List.filter_length_le|].
    by rewrite length_map.
  - intros q Hp Hq. by apply neighbors_sym.
Qed.

(** X4. A cell with a full ring of cells around it has eight neighbours; on a
    field of side one the only cell has none. *)
Theorem neighbors_count g p :
  (1 <= Vec2.x p < Z.of_nat (dimension g) - 1 ->
   1 <= Vec2.y p < Z.of_nat (dimension g) - 1 ->
   length (neighbors g p) = 8%nat)
  /\ (dimension g = 1%nat -> inField g p -> neighbors g p = []).
Proof.
  split.
  - intros Hx Hy. unfold neighbors, Iterator.filter.
    rewrite (filter_ext_in_list _ (fun _ => true)).
    + rewrite filter_true. unfold Vec2.inDirs, Iterator.map.
      by rewrite length_map.
    + unfold Vec2.inDirs, Iterator.map.
      intros q (dir & <- & Hdir%in_ALL_DIRS)%in_map_iff.
      apply negb_true_iff. apply inField_spec.
      revert Hdir. unfold chebyshev, Vec2.add; simpl. lia.
  - intros Hd Hp. apply inField_spec in Hp. rewrite Hd in Hp.
    unfold neighbors, Iterator.filter. apply filter_none.
    unfold Vec2.inDirs, Iterator.map.
    intros q (dir & <- & Hdir%in_ALL_DIRS)%in_map_iff.
    apply negb_false_iff. unfold isOutsideField. rewrite Hd.
    revert Hdir. unfold chebyshev, Vec2.add; simpl. intros Hdir.
    rewrite !orb_true_iff, !Z.ltb_lt, !Z.leb_le. lia.
Qed.

Lemma neighbors_count_witness :
  length (neighbors (newGame 4 0 (replay [])) (Vec2.new 1 2)) = 8%nat.
Proof.
  apply (proj1 (neighbors_count (newGame 4 0 (replay [])) (Vec2.new 1 2)));
    vm_compute; (split; [discriminate|reflexivity]).
Defined.

(** ** Slots of the grid *)

(** X5. Writing a cell and reading it back gives the written object; the
    last write to a slot wins; a write at a position of the field leaves
    every other cell of the field as it was; and two positions of the
    field share a slot only if they are the same position. *)
Theorem slots_round_trip g pos c :
  getState (setState pos c g) pos = Some c
  /\ (forall c', setState pos c (setState pos c' g) = setState pos c g)
  /\ (forall q, inField g pos -> inField g q -> q <> pos ->
        getState (setState pos c g) q = getState g q)
  /\ (forall q, inField g pos -> inField g q ->
        index_of g pos = index_of g q -> pos = q).
Proof.
  split; [apply getState_setState_eq|].
  split; [intros c'; apply setState_overwrite|].
  split.
  - intros q Hp Hq Hne. by apply getState_setState_ne.
  - intros q Hp Hq. by apply index_of_inj.
Qed.

(** X6. Outside the field the slot arithmetic wraps: the position [dimension]
    columns to the right in one row is read from the same slot as the
    position one row below, so [isMine] asked about the position just
    west of column 0 answers for the last cell of the row above.  A slot
    below zero or past the last cell of a fresh grid holds nothing, and
    [isMine] and [isEmpty] are both false there. *)
Theorem out_of_field_reads_wrap g x y :
  getState g (Vec2.new (x + Z.of_nat (dimension g)) y)
  = getState g (Vec2.new x (y + 1))
  /\ isMine g (Vec2.new (-1) (y + 1))
     = isMine g (Vec2.new (Z.of_nat (dimension g) - 1) y)
  /\ (grid g !! index_of g (Vec2.new x y) = None ->
      isMine g (Vec2.new x y) = false /\ isEmpty g (Vec2.new x y) = false).
Proof.
  split; [|split].
  - unfold getState, index_of; simpl. f_equal. lia.
  - unfold isMine, getState, index_of; simpl. do 2 f_equal. lia.
  - intros Hnone. unfold isMine, isEmpty, getState. rewrite Hnone. simpl.
    split; [done|apply andb_false_r].
Qed.

(** ** The pool of minable positions *)

(** X7. [randomMinablePos] throws exactly when the pool is empty.  Otherwise
    it returns a position of the pool and removes that one entry: the old
    pool is a rearrangement of the returned position followed by the new
    pool, the grid is not touched and one draw is consumed.  From a pool
    without duplicates the returned position is gone for good. *)
Theorem randomMinablePos_without_replacement g :
  (randomMinablePos g = NoMinableSpacesLeft <-> minables g = [])
  /\ randomMinablePos g <> OutOfFuel
  /\ forall pos g',
       randomMinablePos g = Returns (pos, g') ->
       In pos (minables g)
       /\ Permutation (minables g) (pos :: minables g')
       /\ (length (minables g') + 1 = length (minables g))%nat
       /\ (List.NoDup (minables g) ->
           ~ In pos (minables g') /\ List.NoDup (minables g'))
       /\ grid g' = grid g
       /\ drawn g' = S (drawn g).
Proof.
  split; [apply randomMinablePos_empty|].
  split; [apply randomMinablePos_fuel|].
  intros pos g' (l1 & l2 & Hm & ->)%randomMinablePos_spec.
  rewrite Hm. simpl.
  split; [apply in_elt|].
  split; [symmetry; apply Permutation_middle|].
  split; [rewrite !length_app; simpl; lia|].
  split; [|done].
  intros Hnd. apply NoDup_remove in Hnd. tauto.
Qed.

Lemma randomMinablePos_without_replacement_witness :
  exists pos g',
    randomMinablePos (pooled (Vec2.new 0 0) (newGame 4 1 (replay [3%nat])))
    = Returns (pos, g')
    /\ pos = Vec2.new 3 1 /\ length (minables g') = 11%nat.
Proof.
  eexists. eexists. split; [vm_compute; reflexivity|].
  split; [reflexivity|].
  pose proof (proj2 (proj2 (randomMinablePos_without_replacement
                (pooled (Vec2.new 0 0) (newGame 4 1 (replay [3%nat])))))
                (Vec2.new 3 1) _ ltac:(vm_compute; reflexivity))
    as (_ & _ & Hlen & _).
  vm_compute in Hlen. vm_compute. lia.
Defined.

(** ** Starting a round *)

Lemma closedGrid_S n :
  closedGrid (S n) = <[Z.of_nat n := new_Close]> (closedGrid n).
Proof.
  unfold closedGrid, range. rewrite seq_S, map_app, fold_left_app.
  reflexivity.
Qed.

Lemma closedGrid_lookup n i :
  closedGrid n !! i
  = if decide (0 <= i < Z.of_nat n) then Some new_Close else None.
Proof.
  revert i. induction n as [|n IH]; intros i.
  - unfold closedGrid; simpl. rewrite lookup_empty.
    case_decide; [lia|done].
  - rewrite closedGrid_S.
    destruct (decide (Z.of_nat n = i)) as [Heq|Hne].
    + subst i. rewrite lookup_insert_eq. case_decide; [done|lia].
    + rewrite lookup_insert_ne by done. rewrite IH.
      repeat case_decide; try done; lia.
Qed.

(** X8. Whatever the state before, [initGame] leaves a round in which the
    grid holds a new unflagged [Close] object in each of the
    [dimension * dimension] slots of the field and nothing in any other
    slot, so every cell of the field is [Close]; ids start at 1, no mines
    are generated, the game is not lost, and the two counters are
    [totalMines] and [dimension * dimension - totalMines]. *)
Theorem initGame_fresh_round g :
  (forall i,
     grid (initGame g) !! i
     = if decide (0 <= i < Z.of_nat (dimension g * dimension g))
       then Some new_Close else None)
  /\ (forall p, inField (initGame g) p ->
        getState (initGame g) p = Some new_Close)
  /\ allClosed (initGame g) = true
  /\ filled (initGame g) = true
  /\ currentId (initGame g) = 1
  /\ hasGenMines (initGame g) = false
  /\ isLost (initGame g) = false
  /\ numRemainingFlags (initGame g) = Z.of_nat (totalMines g)
  /\ remainingClearCells (initGame g)
     = Z.of_nat (dimension g * dimension g) - Z.of_nat (totalMines g).
Proof.
  assert (Hcell : forall p, inField (initGame g) p ->
            getState (initGame g) p = Some new_Close).
  { intros p Hp%inField_spec. unfold getState, index_of.
    change (dimension (initGame g)) with (dimension g) in *.
    change (grid (initGame g)) with (closedGrid (dimension g * dimension g)).
    rewrite closedGrid_lookup. case_decide as Hn; [done|].
    exfalso. apply Hn. nia. }
  split; [intros i; apply closedGrid_lookup|]. split; [exact Hcell|].
  split; [|split].
  - apply allClosed_spec. intros p Hp. apply isEmpty_spec.
    split; [done|]. exists new_Close. split; [by apply Hcell|done].
  - unfold filled, Iterator.all. apply forallb_forall.
    intros p Hp%in_allPositions. by rewrite (Hcell p Hp).
  - repeat split; simpl; lia.
Qed.

(** ** How the pool runs out *)

Lemma generateMine_loop_pool fuel : forall pos g pos' g',
  generateMine_loop fuel pos g = Returns (pos', g') ->
  (length (minables g') <= length (minables g))%nat
  /\ incl (minables g') (minables g).
Proof.
  induction fuel as [|fuel IH]; intros pos g pos' g' Hrun; simpl in Hrun;
    destruct (rejects g pos).
  - destruct (randomMinablePos _) as [[? ?]| |]; discriminate.
  - injection Hrun as <- <-. split; [lia|apply incl_refl].
  - destruct (randomMinablePos (setState pos new_Close g))
      as [[pos1 g2]| |] eqn:Hdraw; try discriminate.
    apply randomMinablePos_spec in Hdraw as (l1 & l2 & Hm & ->).
    apply IH in Hrun as [Hlen Hincl].
    change (minables g = l1 ++ pos1 :: l2) in Hm.
    change (length (minables g') <= length (l1 ++ l2))%nat in Hlen.
    change (incl (minables g') (l1 ++ l2)) in Hincl.
    rewrite Hm. split.
    + rewrite length_app in *. simpl. lia.
    + intros q Hq. apply Hincl in Hq. apply in_app_or in Hq.
      apply in_or_app. destruct Hq; [by left|right; by right].
  - injection Hrun as <- <-. split; [lia|apply incl_refl].
Qed.

Lemma updateId_grid_only fuel pos n from g g' :
  updateId fuel pos n from g = Some g' -> exists gr, g' = with_grid gr g.
Proof. intros H. by destruct (updateId_idsTo _ _ _ _ _ _ H) as [? _]. Qed.

Lemma assignId_grid_only pos g g' :
  assignId pos g = Returns g' ->
  exists gr, g' = with_grid gr g
             \/ g' = with_currentId (currentId g + 1) (with_grid gr g).
Proof.
  unfold assignId. destruct (0 <? length (nonEmptyDirs g pos))%nat.
  - cbv zeta.
    destruct (Iterator.eachM _ _ _) as [g2|] eqn:Hloop; [|discriminate].
    intros [= <-].
    assert (exists gr, g2 = with_grid gr g) as [gr ->].
    { revert Hloop.
      apply (eachM_preserves (fun s => exists gr, s = with_grid gr g)).
      - intros dir s s' _ [gr ->] Hstep.
        apply updateId_grid_only in Hstep as [gr' ->]. by exists gr'.
      - by eexists. }
    exists gr. by right.
  - intros [= <-]. exists (grid g). left. by destruct g.
Qed.

Lemma generateMine_pool g g' :
  generateMine g = Returns g' ->
  (length (minables g') < length (minables g))%nat
  /\ incl (minables g') (minables g).
Proof.
  unfold generateMine, acceptedMine.
  destruct (randomMinablePos g) as [[pos g1]| |] eqn:Hdraw; try discriminate.
  apply randomMinablePos_spec in Hdraw as (l1 & l2 & Hm & ->).
  destruct (generateMine_loop _ _ _) as [[pos' g2]| |] eqn:Hloop;
    try discriminate.
  apply generateMine_loop_pool in Hloop as [Hlen Hincl].
  change (length (minables g2) <= length (l1 ++ l2))%nat in Hlen.
  change (incl (minables g2) (l1 ++ l2)) in Hincl.
  intros Hassign. apply assignId_grid_only in Hassign as [gr [-> | ->]];
    simpl; rewrite Hm; (split;
      [rewrite length_app in *; simpl; lia
      |intros q Hq; apply Hincl in Hq; apply in_app_or in Hq;
       apply in_or_app; destruct Hq; [by left|right; by right]]).
Qed.

Lemma generateMines_pool n : forall g g',
  generateMines n g = Returns g' ->
  (n + length (minables g') <= length (minables g))%nat
  /\ incl (minables g') (minables g).
Proof.
  induction n as [|n IH]; intros g g' Hrun; simpl in Hrun.
  - injection Hrun as <-. split; [lia|apply incl_refl].
  - destruct (generateMine g) as [g1| |] eqn:Hone; try discriminate.
    apply generateMine_pool in Hone as [Hlt Hincl].
    apply IH in Hrun as [Hle Hincl'].
    split; [lia|]. intros q Hq. by apply Hincl, Hincl'.
Qed.

(** X9. Every call of [generateMine] uses up at least one pool entry and
    never puts one back.  So when [populateMines] returns, the pool it is
    left with is part of the eligible positions and at least [totalMines]
    shorter; and on a round that starts all [Close], asking for more
    mines than there are eligible positions always ends in the
    "No minable spaces left!" error. *)
Theorem populateMines_pool_exhaustion clickPos g0 :
  (forall g,
     populateMines clickPos g0 = Returns g ->
     (totalMines g0 + length (minables g)
      <= length (eligible (dimension g0) clickPos))%nat
     /\ incl (minables g) (eligible (dimension g0) clickPos))
  /\ (length (eligible (dimension g0) clickPos)
      <= dimension g0 * dimension g0)%nat
  /\ (allClosed g0 = true ->
      (length (eligible (dimension g0) clickPos) < totalMines g0)%nat ->
      populateMines clickPos g0 = NoMinableSpacesLeft).
Proof.
  split; [|split].
  - intros g Hrun. unfold populateMines in Hrun.
    by apply generateMines_pool in Hrun.
  - unfold eligible. rewrite length_map.
    etransitivity; [apply List.filter_length_le|].
    by rewrite length_allPositions.
  - intros Hall Hlt.
    destruct (populateMines clickPos g0) as [g| |] eqn:Hrun; [|done|].
    + unfold populateMines in Hrun.
      apply generateMines_pool in Hrun as [Hle _].
      change (minables (with_minables _ g0))
        with (eligible (dimension g0) clickPos) in Hle. lia.
    + by apply populateMines_fuel in Hrun.
Qed.

Lemma populateMines_pool_exhaustion_witness :
  populateMines (Vec2.new 1 1) (newGame 4 8 (replay [])) = NoMinableSpacesLeft.
Proof.
  apply (proj2 (proj2 (populateMines_pool_exhaustion (Vec2.new 1 1)
                         (newGame 4 8 (replay []))))).
  - vm_compute. reflexivity.
  - vm_compute. lia.
Defined.

(** ** What generation does to the cells *)

Lemma idsTo_flaggedAt n g g' p :
  idsTo n g g' -> inField g p -> flaggedAt g' p = flaggedAt g p.
Proof.
  intros [_ H] Hp. unfold flaggedAt.
  destruct (H p Hp) as [-> | ->]; [done|]. by destruct (getState g p).
Qed.

Lemma updateId_only_mines fuel : forall pos n from g g',
  (inField g pos -> isMine g pos = true) ->
  updateId fuel pos n from g = Some g' ->
  forall p, inField g p -> isMine g p = false ->
    getState g' p = getState g p.
Proof.
  induction fuel as [|fuel IH]; intros pos n from g g' Hstart Hrun; [done|].
  rewrite updateId_S in Hrun. cbv zeta in Hrun.
  destruct (negb (isOutsideField g pos) && loose_neq (getId g pos) n) eqn:Hc;
    [|by injection Hrun as <-].
  apply andb_true_iff in Hc as [Hin%negb_true_iff _].
  specialize (Hstart Hin).
  set (g1 := setId pos n g) in *.
  assert (Hi1 : idsTo n g g1) by (by apply idsTo_setId).
  set (R := fun s : Game =>
    idsTo n g1 s
    /\ forall p, inField g p -> isMine g p = false ->
         getState s p = getState g p).
  assert (HR : R g'); [|by destruct HR].
  revert Hrun. apply eachM_preserves.
  - intros dir s s' [_ Hmine]%filter_In [His Hsame] Hstep.
    destruct (negb (Vec2.equals dir from)); [|by injection Hstep as <-].
    assert (Hgs : idsTo n g s) by (by eapply idsTo_trans).
    pose proof (idsTo_dimension _ _ _ Hgs) as Hd.
    split; [eapply idsTo_trans; [exact His|by eapply updateId_idsTo]|].
    intros p Hp Hm. rewrite <- (Hsame p Hp Hm).
    eapply (IH _ _ _ _ _ _ Hstep).
    + by eapply inField_dim.
    + rewrite (sameCtors_isMine g s); [done| |done].
      by eapply idsTo_sameCtors.
    Unshelve.
    intros Hc. rewrite (sameCtors_isMine g1 s); [done| |].
    * by eapply idsTo_sameCtors.
    * eapply inField_dim; [|exact Hc]. symmetry. by eapply idsTo_dimension.
  - split; [apply idsTo_refl|]. intros p Hp Hm.
    apply getState_setId_ne; try done. intros ->. congruence.
Qed.

Lemma assignId_only_mines click pos g g' :
  Base click g -> inField g pos -> isMine g pos = true ->
  assignId pos g = Returns g' ->
  (forall p, inField g p -> isMine g p = false ->
     getState g' p = getState g p)
  /\ (forall p, inField g p -> flaggedAt g' p = flaggedAt g p).
Proof.
  intros HB Hpos Hmine Hrun. unfold assignId in Hrun.
  destruct (0 <? length (nonEmptyDirs g pos))%nat;
    [|by injection Hrun as <-].
  cbv zeta in Hrun.
  set (n := Num (lowestId g pos (nonEmptyDirs g pos))) in *.
  set (g1 := setId pos n g) in *.
  destruct (Iterator.eachM _ _ g1) as [g2|] eqn:Hloop; [|done].
  injection Hrun as <-.
  assert (Hi1 : idsTo n g g1) by (by apply idsTo_setId).
  set (R := fun s : Game =>
    idsTo n g1 s
    /\ forall p, inField g p -> isMine g p = false ->
         getState s p = getState g p).
  assert (HR : R g2).
  { revert Hloop. apply eachM_preserves.
    - intros dir s s' [_ Hne]%in_nonEmptyDirs [His Hsame] Hstep.
      assert (Hgs : idsTo n g s) by (by eapply idsTo_trans).
      pose proof (idsTo_dimension _ _ _ Hgs) as Hd.
      split; [eapply idsTo_trans; [exact His|by eapply updateId_idsTo]|].
      intros p Hp Hm. rewrite <- (Hsame p Hp Hm).
      eapply (updateId_only_mines _ _ _ _ _ _ _ Hstep).
      + by eapply inField_dim.
      + rewrite (sameCtors_isMine g s); [done| |done].
        by eapply idsTo_sameCtors.
      Unshelve.
      intros Hc.
      assert (Hc' : inField g (Vec2.add pos dir))
        by (eapply inField_dim; [|exact Hc]; done).
      rewrite (sameCtors_isMine g s); [|by eapply idsTo_sameCtors|done].
      destruct (base_total _ _ HB _ Hc'); [congruence|done].
    - split; [apply idsTo_refl|]. intros p Hp Hm.
      apply getState_setId_ne; try done. intros ->. congruence. }
  destruct HR as [Hi2 Hsame]. split; [exact Hsame|].
  intros p Hp. change (flaggedAt g2 p = flaggedAt g p).
  apply (idsTo_flaggedAt n); [|done]. by eapply idsTo_trans.
Qed.

Lemma generateMine_loop_elsewhere fuel : forall pos g pos' g',
  (forall p, In p (minables g) -> inField g p) -> inField g pos ->
  generateMine_loop fuel pos g = Returns (pos', g') ->
  forall q, inField g q -> q <> pos -> ~ In q (minables g) ->
    getState g' q = getState g q.
Proof.
  induction fuel as [|fuel IH]; intros pos g pos' g' Hpool Hpos Hrun;
    simpl in Hrun; destruct (rejects g pos).
  - destruct (randomMinablePos _) as [[? ?]| |]; discriminate.
  - by injection Hrun as <- <-.
  - destruct (randomMinablePos (setState pos new_Close g))
      as [[pos1 g2]| |] eqn:Hdraw; try discriminate.
    apply randomMinablePos_spec in Hdraw as (l1 & l2 & Hm & ->).
    change (minables g = l1 ++ pos1 :: l2) in Hm.
    assert (Hin1 : In pos1 (minables g)) by (rewrite Hm; apply in_elt).
    intros q Hq Hne Hnot.
    assert (q <> pos1) as Hne1 by (intros ->; done).
    erewrite (IH _ _ _ _ _ _ Hrun q); first last.
    + intros Hin. apply Hnot. rewrite Hm.
      change (In q (l1 ++ l2)) in Hin. apply in_app_or in Hin.
      apply in_or_app. destruct Hin; [by left|right; by right].
    + done.
    + done.
    + rewrite getState_setState_ne; [|by apply Hpool|done|done].
      change (getState (setState pos new_Close g) q = getState g q).
      by apply getState_setState_ne.
    Unshelve.
    * intros p Hp. apply Hpool. rewrite Hm.
      change (In p (l1 ++ l2)) in Hp. apply in_app_or in Hp.
      apply in_or_app. destruct Hp; [by left|right; by right].
    * by apply Hpool.
  - by injection Hrun as <- <-.
Qed.

Lemma generateMine_loop_dimension fuel : forall p s p' s',
  generateMine_loop fuel p s = Returns (p', s') ->
  dimension s' = dimension s.
Proof.
  induction fuel as [|fuel IHf]; intros p s p' s' Hr; simpl in Hr;
    destruct (rejects s p); try (by injection Hr as <- <-).
  - destruct (randomMinablePos _) as [[? ?]| |]; discriminate.
  - destruct (randomMinablePos (setState p new_Close s))
      as [[p1 s2]| |] eqn:Hdr; try discriminate.
    apply randomMinablePos_spec in Hdr as (? & ? & _ & ->).
    by apply IHf in Hr.
Qed.

Lemma generateMine_dimension click g g' :
  Base click g -> generateMine g = Returns g' -> dimension g' = dimension g.
Proof.
  intros HB Hone. unfold generateMine in Hone.
  pose proof (acceptedMine_spec click (fun _ => True)
                (fun _ _ _ _ _ => Logic.I) g HB Logic.I) as Hacc.
  destruct (acceptedMine g) as [[pos gt]| |] eqn:Ha; try done.
  destruct Hacc as (gc & Ht & _).
  pose proof (tentative_Base _ _ _ _ _ Ht) as HBt.
  pose proof (tentative_inField _ _ _ _ _ Ht) as Hint.
  destruct (assignId_frame _ _ _ (Base_total _ _ HBt) Hint Hone)
    as ([Hd _] & _).
  rewrite Hd. unfold acceptedMine in Ha.
  destruct (randomMinablePos g) as [[pos0 g0']| |] eqn:Hdraw; try done.
  apply randomMinablePos_spec in Hdraw as (l1 & l2 & _ & ->).
  by apply generateMine_loop_dimension in Ha.
Qed.

Lemma generateMine_elsewhere click g g' :
  Base click g -> generateMine g = Returns g' ->
  forall q, inField g q -> isMine g q = false -> ~ In q (minables g) ->
    getState g' q = getState g q.
Proof.
  intros HB Hrun q Hq Hm Hnot.
  pose proof (acceptedMine_spec click (fun _ => True)
                (fun _ _ _ _ _ => Logic.I) g HB Logic.I) as Hacc.
  unfold generateMine in Hrun.
  destruct (acceptedMine g) as [[pos gt]| |] eqn:Haccepted; try done.
  destruct Hacc as (gc & Ht & _).
  pose proof (tentative_Base _ _ _ _ _ Ht) as HBt.
  pose proof (tentative_inField _ _ _ _ _ Ht) as Hint.
  assert (Hmt : isMine gt pos = true)
    by (destruct Ht as (-> & _); apply placed_isMine).
  unfold acceptedMine in Haccepted.
  destruct (randomMinablePos g) as [[pos0 g1]| |] eqn:Hdraw; try done.
  apply randomMinablePos_spec in Hdraw as (l1 & l2 & Hpool & ->).
  assert (Hin0 : In pos0 (minables g)) by (rewrite Hpool; apply in_elt).
  assert (q <> pos0) as Hne0 by (intros ->; done).
  assert (Hpos0 : inField g pos0)
    by (apply isEmpty_inField; by apply (base_minables _ _ HB)).
  set (gs := setState pos0 (new_Mine Null)
               (with_minables (l1 ++ l2) (with_drawn (S (drawn g)) g))) in *.
  assert (Hgt : getState gt q = getState g q).
  { assert (Hpool_in : forall p, In p (minables gs) -> inField gs p).
    { intros p Hp. change (inField g p).
      apply isEmpty_inField, (base_minables _ _ HB). rewrite Hpool.
      change (In p (l1 ++ l2)) in Hp. apply in_app_or in Hp.
      apply in_or_app. destruct Hp; [by left|right; by right]. }
    rewrite (generateMine_loop_elsewhere _ _ _ _ _ Hpool_in Hpos0
               Haccepted q Hq Hne0).
    - change (getState (setState pos0 (new_Mine Null) g) q = getState g q).
      by apply getState_setState_ne.
    - intros Hin. apply Hnot. rewrite Hpool.
      change (In q (l1 ++ l2)) in Hin. apply in_app_or in Hin.
      apply in_or_app. destruct Hin; [by left|right; by right]. }
  assert (Hqt : inField gt q).
  { eapply inField_dim; [|exact Hq].
    by apply generateMine_loop_dimension in Haccepted. }
  destruct (assignId_only_mines _ _ _ _ HBt Hint Hmt Hrun) as [Hsame _].
  rewrite Hsame; [done|done|]. unfold isMine. rewrite Hgt. exact Hm.
Qed.

Lemma generateMines_elsewhere click n : forall g g',
  Base click g -> generateMines n g = Returns g' ->
  forall q, inField g q -> isMine g q = false -> ~ In q (minables g) ->
    getState g' q = getState g q.
Proof.
  induction n as [|n IH]; intros g g' HB Hrun q Hq Hm Hnot; simpl in Hrun.
  - by injection Hrun as <-.
  - destruct (generateMine g) as [g1| |] eqn:Hone; try done.
    pose proof (generateMine_elsewhere _ _ _ HB Hone q Hq Hm Hnot) as H1.
    pose proof (generateMine_pool _ _ Hone) as [_ Hincl].
    pose proof (generateMine_inv click (fun _ _ => True)
                  (fun _ _ _ _ _ _ => Logic.I)
                  (fun _ _ _ _ _ _ _ _ => Logic.I) O g HB Logic.I) as Hinv.
    rewrite Hone in Hinv. destruct Hinv as [HB1 _].
    pose proof (generateMine_dimension _ _ _ HB Hone) as Hd.
    rewrite <- H1. apply (IH g1 g' HB1 Hrun).
    + by eapply inField_dim.
    + unfold isMine. by rewrite H1.
    + intros Hin. by apply Hnot, Hincl.
Qed.

(** X10. The cells of the field after [populateMines], compared with the round
    it started from.  A cell next to the first click (the clicked cell
    included) is the very object it was, flag and all.  Any other cell is
    an unflagged mine, or the object it was, or a new unflagged [Close]
    written back after a rejected placement: a flag set before the first
    click is lost when its cell is drawn, and since the counters are not
    touched the count of remaining flags is not given back. *)
Theorem populateMines_cells clickPos g0 g :
  allClosed g0 = true ->
  populateMines clickPos g0 = Returns g ->
  (forall p, inField g0 p -> Vec2.adjacentTo clickPos p = true ->
     getState g p = getState g0 p)
  /\ (forall p, inField g0 p ->
        (isMine g p = true /\ flaggedAt g p = false)
        \/ (isMine g p = false
            /\ (getState g p = getState g0 p
                \/ getState g p = Some new_Close)))
  /\ untouched g0 g.
Proof.
  intros Hall Hrun. split; [|split].
  - intros p Hp Hadj. unfold populateMines in Hrun.
    change (with_minables _ g0) with (pooled clickPos g0) in Hrun.
    apply (generateMines_elsewhere clickPos _ _ _
             (Base_pooled clickPos g0 Hall) Hrun p Hp).
    + apply isEmpty_not_mine.
      by apply (proj1 (allClosed_spec g0) Hall).
    + intros [_ Hin]%(in_eligible g0). congruence.
  - set (I := fun (_ : nat) (s : Game) =>
      dimension s = dimension g0
      /\ forall p, inField g0 p ->
        (isMine s p = true /\ flaggedAt s p = false)
        \/ (isMine s p = false
            /\ (getState s p = getState g0 p
                \/ getState s p = Some new_Close))).
    apply (populateMines_inv clickPos I) in Hrun; try done.
    + by destruct Hrun as [_ [_ H]].
    + intros k s pos gc Hr [Hd Hs].
      split; [by rewrite (reclosed_dimension _ _ _ Hr)|].
      intros p Hp. destruct (decide (p = pos)) as [->|Hne].
      * right. unfold isMine.
        rewrite (reclosed_getState_eq _ _ _ Hr). split; [done|by right].
      * assert (Hps : inField s p) by (by eapply inField_dim).
        unfold isMine, flaggedAt.
        rewrite (reclosed_getState_ne _ _ _ _ Hr Hps Hne). apply (Hs p Hp).
    + intros k gc pos s s' Ht _ Hassign.
      pose proof (tentative_Base _ _ _ _ _ Ht) as HBt.
      pose proof (tentative_inField _ _ _ _ _ Ht) as Hint.
      assert (Hmt : isMine s pos = true)
        by (destruct Ht as (-> & _); apply placed_isMine).
      destruct (assignId_only_mines _ _ _ _ HBt Hint Hmt Hassign)
        as [Hsame Hflag].
      destruct (assignId_frame _ _ _ (Base_total _ _ HBt) Hint Hassign)
        as (Hctors & _).
      destruct Ht as (-> & _ & [Hd Hgc] & _ & Hin' & _).
      split; [by rewrite (proj1 Hctors)|].
      intros p Hp.
      assert (Hpc : inField gc p) by (by eapply inField_dim).
      rewrite (sameCtors_isMine _ _ _ Hctors Hpc), (Hflag p Hpc).
      destruct (decide (p = pos)) as [->|Hne].
      * left. split; [apply placed_isMine|].
        unfold flaggedAt. by rewrite getState_setState_eq.
      * unfold flaggedAt.
        rewrite placed_isMine_ne, (getState_setState_ne pos p) by done.
        destruct (Hgc p Hp) as [Hmine|[Hnm Hcell]]; [by left|].
        right. split; [done|].
        rewrite Hsame; [|done|by rewrite placed_isMine_ne].
        by rewrite (getState_setState_ne pos p).
    + split; [done|]. intros p Hp. right. split; [|by left].
      apply isEmpty_not_mine. by apply (proj1 (allClosed_spec g0) Hall).
  - unfold populateMines in Hrun.
    by apply (generateMines_count clickPos _ g0) in Hrun as (_ & _ & Hu).
Qed.

Lemma populateMines_cells_witness :
  exists g,
    populateMines (Vec2.new 0 0) (newGame 4 4 (replay [0; 1; 5; 4]%nat))
    = Returns g
    /\ getState g (Vec2.new 1 1)
       = getState (newGame 4 4 (replay [0; 1; 5; 4]%nat)) (Vec2.new 1 1).
Proof.
  eexists. split; [vm_compute; reflexivity|].
  refine (proj1 (populateMines_cells (Vec2.new 0 0)
                   (newGame 4 4 (replay [0; 1; 5; 4]%nat)) _ _ _)
            (Vec2.new 1 1) _ _).
  - vm_compute. reflexivity.
  - vm_compute. reflexivity.
  - vm_compute. reflexivity.
  - vm_compute. reflexivity.
Defined.

(** ** Propagation of ids *)

(** X11. Called with a numeric id on a grid whose field slots all hold an
    object, [updateId] returns within its budget.  Outside the field, or
    on a cell that already carries the id, it changes nothing.  Otherwise
    the start cell ends up with the new id, and in every cell of the
    field the constructor and the flag are kept and the id is either kept
    or replaced by the new id; the pool, [currentId] and the counters are
    not touched. *)
Theorem updateId_rewrites_ids_only g pos i from :
  filled g = true ->
  exists g',
    updateId (updateId_fuel g) pos (Num i) from g = Some g'
    /\ (isOutsideField g pos = true -> g' = g)
    /\ (getId g pos = Num i -> g' = g)
    /\ (inField g pos -> getId g' pos = Num i)
    /\ (forall p, inField g p ->
          Cell.ctor <$> getState g' p = Cell.ctor <$> getState g p
          /\ flaggedAt g' p = flaggedAt g p
          /\ (getId g' p = getId g p \/ getId g' p = Num i))
    /\ untouched g g'
    /\ minables g' = minables g /\ currentId g' = currentId g.
Proof.
  intros Ht%filled_total.
  destruct (updateId_runs (updateId_fuel g) pos (Num i) from g Ht)
    as [g' Hrun].
  { pose proof (countDiffer_bound (Num i) g). unfold updateId_fuel. lia. }
  exists g'. split; [done|].
  pose proof (updateId_idsTo _ _ _ _ _ _ Hrun) as Hi.
  destruct (updateId_frontier _ _ _ _ _ _ Ht Hrun) as [Hnew _].
  unfold updateId_fuel in Hrun. rewrite updateId_S in Hrun.
  split; [|split; [|split; [done|split; [|]]]].
  - intros Hout. rewrite Hout in Hrun. simpl in Hrun. by injection Hrun as <-.
  - intros Hid. rewrite Hid in Hrun. unfold loose_neq in Hrun.
    rewrite loose_eq_refl, andb_false_r in Hrun. by injection Hrun as <-.
  - intros p Hp. split; [|split].
    + by apply (idsTo_sameCtors _ _ _ Hi).
    + by apply (idsTo_flaggedAt (Num i)).
    + by apply idsTo_getId.
  - by destruct Hi as [(gr & ->) _].
Qed.

Lemma updateId_rewrites_ids_only_witness :
  exists g',
    updateId (updateId_fuel (newGame 2 0 (replay []))) (Vec2.new 0 0)
      (Num 5) NORTH (newGame 2 0 (replay [])) = Some g'
    /\ getId g' (Vec2.new 0 0) = Num 5.
Proof.
  destruct (updateId_rewrites_ids_only (newGame 2 0 (replay []))
              (Vec2.new 0 0) 5 NORTH) as (g' & Hrun & _ & _ & Hid & _).
  - vm_compute. reflexivity.
  - exists g'. split; [exact Hrun|]. apply Hid. vm_compute. reflexivity.
Defined.

(** ** When a placement is rejected for walling off cells *)

Lemma getCommonIdInDirs_number g pos dir1 dir2 :
  loose_neq (getCommonIdInDirs g pos dir1 dir2) Null = true ->
  isEmpty g (Vec2.add pos dir1) = false
  /\ isEmpty g (Vec2.add pos dir2) = false
  /\ exists i, getId g (Vec2.add pos dir1) = Num i
               /\ getId g (Vec2.add pos dir2) = Num i.
Proof.
  unfold getCommonIdInDirs. cbv zeta.
  destruct (isEmpty g (Vec2.add pos dir1)); [done|].
  destruct (isEmpty g (Vec2.add pos dir2)); [done|]. simpl.
  destruct (loose_eq _ _) eqn:Heq; [|done].
  intros Hnum. split; [done|]. split; [done|].
  destruct (getId g (Vec2.add pos dir1)) as [| |i]; try done.
  exists i. split; [done|].
  destruct (getId g (Vec2.add pos dir2)); try done.
  simpl in Heq. apply Z.eqb_eq in Heq. by subst.
Qed.

(** X12. [willCreateIsland] answers [true] only when two different orthogonal
    neighbours of the position are both non-empty (a mine or outside the
    field) and carry the same numeric id.  So a mine whose orthogonal
    neighbours are all empty cells, or all but one, is never rejected by
    this test; nor is one whose non-empty orthogonal neighbours are mines
    that still have the [null] id. *)
Theorem willCreateIsland_needs_a_pair g pos :
  willCreateIsland g pos = true ->
  exists dir1 dir2 i,
    In dir1 ORTHO_DIRS /\ In dir2 ORTHO_DIRS /\ dir1 <> dir2
    /\ isEmpty g (Vec2.add pos dir1) = false
    /\ isEmpty g (Vec2.add pos dir2) = false
    /\ getId g (Vec2.add pos dir1) = Num i
    /\ getId g (Vec2.add pos dir2) = Num i.
Proof.
  unfold willCreateIsland. cbv zeta.
  destruct (loose_neq (getCommonIdInDirs g pos NORTH SOUTH) Null) eqn:Hns.
  { intros _. apply getCommonIdInDirs_number in Hns as (? & ? & i & ? & ?).
    exists NORTH, SOUTH, i. repeat split; try done; vm_compute; tauto. }
  destruct (loose_neq (getCommonIdInDirs g pos WEST EAST) Null) eqn:Hwe.
  { intros _. apply getCommonIdInDirs_number in Hwe as (? & ? & i & ? & ?).
    exists WEST, EAST, i. repeat split; try done; vm_compute; tauto. }
  unfold Iterator.any. intros (dir & Hdir & Hc)%existsb_exists.
  apply andb_true_iff in Hc as [Hc _].
  apply getCommonIdInDirs_number in Hc as (? & ? & i & ? & ?).
  exists dir, (Vec2.clockwise dir), i.
  split; [done|]. split.
  { apply (in_map Vec2.clockwise) in Hdir. revert Hdir. vm_compute. tauto. }
  split; [|done].
  revert Hdir. unfold ORTHO_DIRS. simpl.
  intros [<-|[<-|[<-|[<-|[]]]]]; discriminate.
Qed.

Lemma willCreateIsland_needs_a_pair_witness :
  exists dir1 dir2 i,
    In dir1 ORTHO_DIRS /\ In dir2 ORTHO_DIRS /\ dir1 <> dir2
    /\ isEmpty (newGame 2 0 (replay [])) (Vec2.add (Vec2.new 0 0) dir1)
       = false
    /\ isEmpty (newGame 2 0 (replay [])) (Vec2.add (Vec2.new 0 0) dir2)
       = false
    /\ getId (newGame 2 0 (replay [])) (Vec2.add (Vec2.new 0 0) dir1) = Num i
    /\ getId (newGame 2 0 (replay [])) (Vec2.add (Vec2.new 0 0) dir2) = Num i.
Proof.
  apply (willCreateIsland_needs_a_pair (newGame 2 0 (replay []))
           (Vec2.new 0 0)).
  vm_compute. reflexivity.
Defined.

(** ** The range of the ids *)

Lemma lowestId_bounds g pos : forall l c,
  0 <= c ->
  (forall dir i, In dir l -> getId g (Vec2.add pos dir) = Num i -> 0 <= i) ->
  0 <= fold_left
         (fun id dir =>
            let neighborId := getId g (Vec2.add pos dir) in
            if loose_neq neighborId Null then Math_min id neighborId else id)
         l c
    <= c.
Proof.
  set (f := fun (id : Z) (dir : Vec2.t) =>
              let neighborId := getId g (Vec2.add pos dir) in
              if loose_neq neighborId Null then Math_min id neighborId
              else id).
  induction l as [|d l IH]; intros c Hc Hall; [simpl; lia|].
  cbn [fold_left].
  assert (Hstep : f c d = match getId g (Vec2.add pos d) with
                          | Num i => Z.min c i
                          | _ => c
                          end).
  { subst f. cbv beta zeta. by destruct (getId g (Vec2.add pos d)). }
  rewrite Hstep.
  destruct (getId g (Vec2.add pos d)) as [| |i] eqn:Hid.
  - apply IH; [done|]. intros; eapply Hall; eauto. by right.
  - apply IH; [done|]. intros; eapply Hall; eauto. by right.
  - assert (0 <= i) by (eapply Hall; [by left|done]).
    assert (0 <= Z.min c i <= c) as Hmin by lia.
    destruct (IH (Z.min c i)) as [Hlo Hhi]; [lia| |lia].
    intros; eapply Hall; eauto. by right.
Qed.

(** The ids of the mines of the field are [null] or numbers from 0 up to
    but not including [currentId]. *)
Definition idsInRange (g : Game) : Prop :=
  forall p, inField g p -> isMine g p = true ->
    getId g p = Null
    \/ exists i, getId g p = Num i /\ 0 <= i < currentId g.

Lemma idsInRange_accept click I gc pos g g' :
  tentative click I gc pos g -> idsInRange gc -> 1 <= currentId gc ->
  assignId pos g = Returns g' ->
  idsInRange g' /\ currentId gc <= currentId g' <= currentId gc + 1.
Proof.
  intros Ht Hgc Hcur Hrun.
  pose proof (tentative_Base _ _ _ _ _ Ht) as HB.
  pose proof (tentative_inField _ _ _ _ _ Ht) as Hin.
  pose proof (Base_total _ _ HB) as Htot.
  assert (Hcg : currentId g = currentId gc) by (by destruct Ht as (-> & _)).
  assert (Hold : forall p, inField g p -> isMine g p = true ->
            getId g p = Null
            \/ exists i, getId g p = Num i /\ 0 <= i < currentId gc).
  { destruct Ht as (-> & _ & _ & _ & Hin' & _). intros p Hp Hm.
    destruct (decide (p = pos)) as [->|Hne].
    - left. unfold getId.
      change (isOutsideField (setState pos (new_Mine Null) gc) pos)
        with (isOutsideField gc pos).
      by rewrite Hin', getState_setState_eq.
    - rewrite placed_isMine_ne in Hm by done.
      rewrite (getId_ext gc) by (done || by apply getState_setState_ne).
      by apply Hgc. }
  destruct (assignId_cases pos g Htot Hin)
    as [[_ Heq]|(_ & g2 & Heq & Hi & _)]; rewrite Heq in Hrun;
    injection Hrun as <-.
  - split; [|lia]. intros p Hp Hm. rewrite Hcg. by apply Hold.
  - cbv zeta in Hi.
    set (low := lowestId g pos (nonEmptyDirs g pos)) in *.
    assert (Hlow : 0 <= low <= currentId gc).
    { subst low. unfold lowestId, Iterator.each. rewrite <- Hcg.
      apply lowestId_bounds; [lia|].
      intros dir i [Hdir He]%in_nonEmptyDirs Hid.
      destruct (isOutsideField g (Vec2.add pos dir)) eqn:Hout.
      - unfold getId in Hid. rewrite Hout in Hid. by injection Hid as <-.
      - destruct (base_total _ _ HB _ Hout) as [?|Hm]; [congruence|].
        destruct (Hold _ Hout Hm) as [Hnull|(j & Hj & ?)]; [congruence|].
        rewrite Hj in Hid. injection Hid as <-. lia. }
    split; [|simpl; lia].
    intros p Hp Hm.
    change (isMine g2 p = true) in Hm. change (inField g2 p) in Hp.
    change (getId g2 p = Null
            \/ exists i, getId g2 p = Num i /\ 0 <= i < currentId g + 1).
    assert (Hp' : inField g p).
    { eapply inField_dim; [|exact Hp]. symmetry. by eapply idsTo_dimension. }
    rewrite (sameCtors_isMine g g2) in Hm
      by (done || by eapply idsTo_sameCtors).
    destruct (idsTo_getId _ _ _ p Hi Hp') as [-> | ->].
    + destruct (Hold p Hp' Hm) as [?|(j & ? & ?)]; [by left|].
      right. exists j. split; [done|lia].
    + right. exists low. split; [done|lia].
Qed.

(** X13. Starting from [currentId = 1] on a round that is all [Close], after
    [n] completed calls of [generateMine] the counter has advanced by at
    most one per call, and every mine carries either [null] or a number
    from 0 up to but not including [currentId]; in particular when
    [populateMines] returns. *)
Theorem ids_stay_in_range clickPos g0 :
  allClosed g0 = true -> currentId g0 = 1 ->
  (forall n g,
     generateMines n (pooled clickPos g0) = Returns g ->
     1 <= currentId g <= 1 + Z.of_nat n /\ idsInRange g)
  /\ (forall g,
        populateMines clickPos g0 = Returns g ->
        1 <= currentId g <= 1 + Z.of_nat (totalMines g0) /\ idsInRange g).
Proof.
  intros Hall Hone.
  assert (Hgen : forall n g,
     generateMines n (pooled clickPos g0) = Returns g ->
     1 <= currentId g <= 1 + Z.of_nat n /\ idsInRange g).
  { intros n g Hrun.
    apply (generateMines_from_start clickPos
             (fun k s => 1 <= currentId s <= 1 + Z.of_nat k
                         /\ idsInRange s)) in Hrun; try done.
    - tauto.
    - intros k s pos gc Hr [Hc Hs].
      split; [by rewrite (reclosed_currentId _ _ _ Hr)|].
      intros p Hp Hm.
      pose proof (reclosed_dimension _ _ _ Hr) as Hd.
      assert (Hps : inField s p) by (by eapply inField_dim; [symmetry|]).
      rewrite (reclosed_isMine _ _ _ _ Hr) in Hm by done.
      rewrite (reclosed_getId_mine _ _ _ _ Hr) by done.
      rewrite (reclosed_currentId _ _ _ Hr). by apply Hs.
    - intros k gc pos s s' Ht _ Hassign.
      pose proof Ht as (_ & _ & [Hc Hs] & _).
      destruct (idsInRange_accept _ _ _ _ _ _ Ht Hs ltac:(lia) Hassign)
        as [Hr Hb].
      split; [lia|done].
    - split; [simpl; lia|]. intros p Hp Hm.
      pose proof (proj1 (allClosed_spec g0) Hall p Hp) as He.
      apply isEmpty_not_mine in He.
      change (isMine (pooled clickPos g0) p) with (isMine g0 p) in Hm.
      congruence. }
  split; [exact Hgen|]. intros g Hrun. by apply (Hgen (totalMines g0)).
Qed.

Lemma ids_stay_in_range_witness :
  exists g,
    populateMines (Vec2.new 0 0) (newGame 4 4 (replay [0; 1; 5; 4]%nat))
    = Returns g
    /\ 1 <= currentId g <= 1 + Z.of_nat 4.
Proof.
  eexists. split; [vm_compute; reflexivity|].
  refine (proj1 (proj2 (ids_stay_in_range (Vec2.new 0 0)
                   (newGame 4 4 (replay [0; 1; 5; 4]%nat)) _ _) _ _)).
  - vm_compute. reflexivity.
  - reflexivity.
  - vm_compute. reflexivity.
Defined.

(** ** The flood leaves no gap *)

Lemma mineCount_from acc (f : Vec2.t -> bool) l :
  (acc <= Iterator.each (fun a count => if f a then S count else count) l acc)%nat
  /\ (Iterator.each (fun a count => if f a then S count else count) l acc = acc
      <-> forall r, In r l -> f r = false).
Proof.
  unfold Iterator.each. revert acc.
  induction l as [|a l IH]; intros acc; simpl.
  - split; [lia|]. split; [by intros _ r []|done].
  - destruct (f a) eqn:Hfa.
    + destruct (IH (S acc)) as [Hle Hiff]. split; [lia|]. split.
      * intros Heq. lia.
      * intros Hall. rewrite (Hall a) in Hfa by (by left). discriminate.
    + destruct (IH acc) as [Hle Hiff]. split; [done|]. split.
      * intros Heq r [<-|Hr]; [done|]. by apply Hiff.
      * intros Hall. apply Hiff. intros; apply Hall; by right.
Qed.

(** [settled g q]: if [q] is [Open] and none of its neighbours is a mine,
    none of its neighbours is still [Close]. *)
Definition settled (g : Game) (q : Vec2.t) : Prop :=
  isOpen g q = true ->
  (forall r, In r (neighbors g q) -> isMine g r = false) ->
  forall r, In r (neighbors g q) -> isEmpty g r = false.

Lemma settled_opens g g' q :
  opens g g' -> inField g q -> settled g q -> isOpen g q = true ->
  settled g' q.
Proof.
  intros Ho Hq Hs Hopen _ Hnone r Hr.
  rewrite (neighbors_dim g g') in Hr, Hnone by apply Ho.
  destruct (isEmpty g' r) eqn:He; [|done].
  apply (opens_isEmpty _ _ _ Ho) in He.
  rewrite Hs in He; try done.
  intros r' Hr'. rewrite <- (opens_isMine g g'); [by apply Hnone|done|].
  by eapply neighbors_inField.
Qed.

Lemma isOpen_setOpen_ne pos q g :
  inField g pos -> inField g q -> q <> pos ->
  isOpen (setState pos new_Open g) q = isOpen g q.
Proof. intros. unfold isOpen. by rewrite getState_setState_ne. Qed.

Lemma opens_stays_open g g' q :
  opens g g' -> inField g q -> isOpen g q = true -> isOpen g' q = true.
Proof.
  intros [_ H] Hq Hopen. unfold isOpen in *.
  destruct (H q Hq) as [-> |[-> _]]; done.
Qed.

Lemma openCell_settles fuel : forall pos g g',
  total g -> inField g pos -> isMine g pos = false ->
  openCell fuel pos g = Some g' ->
  forall q, inField g q -> q = pos \/ isOpen g q = false -> settled g' q.
Proof.
  induction fuel as [|fuel IH]; intros pos g g' Ht Hpos Hm Hrun; [done|].
  rewrite openCell_S in Hrun. cbv zeta in Hrun.
  set (g1 := if flaggedAt g pos then _ else g) in Hrun.
  assert (Hg1 : exists n, g1 = with_numRemainingFlags n g).
  { subst g1. destruct (flaggedAt g pos); [by eexists|].
    exists (numRemainingFlags g). by destruct g. }
  destruct Hg1 as [n Hg1]. clearbody g1. subst g1.
  set (g2 := setState pos new_Open (with_numRemainingFlags n g)) in Hrun.
  assert (Hog : opens g g2)
    by (change (opens g (setState pos new_Open g)); by apply opens_setOpen).
  assert (Ht2 : total g2) by (by eapply opens_total).
  assert (Hfinish : forall g3 : Game,
    (forall q, settled g3 q -> settled
       (with_remainingClearCells (remainingClearCells g3 - 1) g3) q)
    /\ (forall q, settled g3 q -> settled
       (win (with_remainingClearCells (remainingClearCells g3 - 1) g3)) q)).
  { intros g3. split; intros q H; exact H. }
  assert (Hend : forall g3,
            (forall q, inField g q -> q = pos \/ isOpen g q = false ->
               settled g3 q) ->
            (let g4 := with_remainingClearCells (remainingClearCells g3 - 1) g3 in
             if remainingClearCells g4 =? 0 then Some (win g4) else Some g4)
            = Some g' ->
            forall q, inField g q -> q = pos \/ isOpen g q = false ->
              settled g' q).
  { intros g3 H3 Hres q Hq Hcase. cbv zeta in Hres.
    destruct (_ =? 0); injection Hres as <-;
      [apply (proj2 (Hfinish g3))|apply (proj1 (Hfinish g3))]; by apply H3. }
  destruct (Iterator.each _ _ _ =? 0)%nat eqn:Hcount.
  2:{ apply (Hend g2); [|exact Hrun].
      intros q Hq [-> |Hclosed].
      - intros _ Hnone. exfalso. apply Nat.eqb_neq in Hcount. apply Hcount.
        apply (proj2 (mineCount_from O (isMine g2) (neighbors g pos))).
        exact Hnone.
      - destruct (decide (q = pos)) as [->|Hne].
        + intros _ Hnone. exfalso. apply Nat.eqb_neq in Hcount. apply Hcount.
          apply (proj2 (mineCount_from O (isMine g2) (neighbors g pos))).
          exact Hnone.
        + intros Hopen. exfalso.
          change (isOpen (setState pos new_Open g) q = true) in Hopen.
          rewrite isOpen_setOpen_ne in Hopen by done. congruence. }
  apply Nat.eqb_eq in Hcount.
  match type of Hrun with
  | match Iterator.eachM ?f ?l g2 with _ => _ end = _ =>
      destruct (Iterator.eachM f l g2) as [g3|] eqn:Hloop; [|done]
  end.
  apply (Hend g3); [|exact Hrun].
  set (R := fun (rest : list Vec2.t) (s : Game) =>
    opens g2 s /\ total s
    /\ (forall q, inField g q -> isOpen g2 q = false -> settled s q)
    /\ (forall r, In r (neighbors g pos) ->
          In r rest \/ isEmpty s r = false)).
  assert (HR : R [] g3).
  { revert Hloop. apply eachM_rest.
    - intros a rest s s' (Ho & Hts & Hset & Hdone) Hstep.
      destruct (isEmpty s a) eqn:He.
      + pose proof (isEmpty_inField _ _ He) as Has.
        pose proof (isEmpty_not_mine _ _ He) as Hms.
        destruct (openCell_spec _ _ _ _ Hts Has Hms Hstep) as (Ho' & _).
        pose proof (opens_setOpen s a Has Hms) as Hos.
        assert (Hss : opens s s') by (eapply opens_trans; eauto).
        pose proof (IH _ _ _ Hts Has Hms Hstep) as Hnew.
        split; [eapply opens_trans; eauto|].
        split; [eapply opens_total; eauto|]. split.
        * intros q Hq Hclosed.
          assert (Hqs : inField s q) by (eapply inField_dim; [|exact Hq]; apply Ho).
          destruct (isOpen s q) eqn:Hopen.
          -- apply (settled_opens s); try done. by apply Hset.
          -- apply Hnew; [done|by right].
        * intros r Hr. destruct (Hdone r Hr) as [[<-|Hin]|Hne].
          -- right. unfold isEmpty.
             destruct Ho' as [_ Ho']. assert (Has' := Has).
             destruct (Ho' a Has) as [-> |[-> _]];
               rewrite ?getState_setState_eq; simpl; apply andb_false_r.
          -- by left.
          -- right. destruct (isEmpty s' r) eqn:He'; [|done].
             apply (opens_isEmpty _ _ _ Hss) in He'. congruence.
      + injection Hstep as <-. split; [done|]. split; [done|].
        split; [done|]. intros r Hr.
        destruct (Hdone r Hr) as [[<-|Hin]|Hne]; auto.
    - split; [apply opens_refl|]. split; [done|]. split.
      + intros q Hq Hclosed Hopen. congruence.
      + intros r Hr. by left. }
  destruct HR as (Ho3 & Ht3 & Hset & Hdone).
  intros q Hq [-> |Hclosed].
  - intros _ _ r Hr.
    rewrite (neighbors_dim g g3) in Hr by (rewrite (proj1 (proj1 Ho3)); done).
    destruct (Hdone r Hr) as [[]|H]. exact H.
  - destruct (decide (q = pos)) as [->|Hne].
    + intros _ _ r Hr.
      rewrite (neighbors_dim g g3) in Hr
        by (rewrite (proj1 (proj1 Ho3)); done).
      destruct (Hdone r Hr) as [[]|H]. exact H.
    + apply Hset; [done|].
      change (isOpen (setState pos new_Open g) q = false).
      by rewrite isOpen_setOpen_ne.
Qed.

Lemma total_not_empty_not_mine g r :
  total g -> inField g r -> isEmpty g r = false -> isMine g r = false ->
  isOpen g r = true.
Proof.
  intros Ht Hr. destruct (Ht r Hr) as [c Hc].
  unfold isEmpty, isMine, isOpen, instanceof. rewrite Hr, Hc. simpl.
  by destruct (Cell.ctor c).
Qed.

Lemma Base_none_open click g q : Base click g -> inField g q -> isOpen g q = false.
Proof.
  intros HB Hq. destruct (base_total _ _ HB q Hq) as [He|Hm].
  - apply isEmpty_spec in He as (_ & c & Hc & Hk).
    unfold isOpen, instanceof. rewrite Hc. by destruct (Cell.ctor c).
  - apply isMine_spec in Hm as (c & Hc & Hk).
    unfold isOpen, instanceof. rewrite Hc. by destruct (Cell.ctor c).
Qed.

Lemma openCells_settled positions : forall g g',
  total g -> (forall q, inField g q -> settled g q) ->
  openCells positions g = Some g' ->
  forall q, inField g' q -> settled g' q.
Proof.
  induction positions as [|pos rest IH]; intros g g' Ht Hs Hrun;
    [simpl in Hrun|rewrite openCells_cons in Hrun].
  - by injection Hrun as <-.
  - destruct (isEmpty g pos) eqn:He; [|done].
    destruct (openCell (openCell_fuel g) pos g) as [g1|] eqn:Hopen; [|done].
    pose proof (isEmpty_inField _ _ He) as Hpos.
    pose proof (isEmpty_not_mine _ _ He) as Hm.
    destruct (openCell_spec _ _ _ _ Ht Hpos Hm Hopen) as (Ho & _).
    pose proof (opens_setOpen g pos Hpos Hm) as Hos.
    assert (Ho1 : opens g g1) by (eapply opens_trans; eauto).
    apply (IH g1 g' (opens_total _ _ Ho1 Ht)); [|exact Hrun].
    intros q Hq1.
    assert (Hq : inField g q)
      by (eapply inField_dim; [|exact Hq1]; symmetry; apply Ho1).
    destruct (decide (q = pos)) as [->|Hne].
    + apply (openCell_settles _ _ _ _ Ht Hpos Hm Hopen); [done|by left].
    + destruct (isOpen g q) eqn:Hopened.
      * apply (settled_opens g); auto.
      * apply (openCell_settles _ _ _ _ Ht Hpos Hm Hopen); [done|by right].
Qed.

(** X14. After [populateMines] on a round that starts all [Close] and any
    run of [openCell] calls on cells that are [Close] when called, an
    [Open] cell of the field none of whose neighbours is a mine has all
    its neighbours [Open]: the flood never stops short of a cell it
    should reveal. *)
Theorem flood_leaves_no_gap clickPos g0 g positions g' q :
  allClosed g0 = true ->
  populateMines clickPos g0 = Returns g ->
  openCells positions g = Some g' ->
  inField g' q -> isOpen g' q = true ->
  forallb (fun r => negb (isMine g' r)) (neighbors g' q) = true ->
  forallb (isOpen g') (neighbors g' q) = true.
Proof.
  intros Hall Hpop Hplay Hq Hopen Hnone.
  unfold populateMines in Hpop.
  apply (generateMines_count clickPos _ g0) in Hpop as (HB & _ & _);
    [|done].
  pose proof (Base_total _ _ HB) as Ht.
  destruct (openCells_spec _ _ _ Ht Hplay) as (Ho & _).
  pose proof (opens_total _ _ Ho Ht) as Ht'.
  assert (Hs : settled g' q).
  { apply (openCells_settled positions g g'); try done.
    intros p Hp Hpo. by rewrite (Base_none_open _ _ _ HB Hp) in Hpo. }
  rewrite forallb_forall in Hnone. apply forallb_forall. intros r Hr.
  assert (Hmr : isMine g' r = false)
    by (apply negb_true_iff; by apply Hnone).
  apply total_not_empty_not_mine; try done.
  - by eapply neighbors_inField.
  - apply Hs; try done. intros r' Hr'. apply negb_true_iff. by apply Hnone.
Qed.

Lemma flood_leaves_no_gap_witness :
  exists g g',
    populateMines (Vec2.new 0 0) (newGame 4 4 (replay [0; 1; 5; 4]%nat))
    = Returns g
    /\ openCells [Vec2.new 0 0] g = Some g'
    /\ forallb (isOpen g') (neighbors g' (Vec2.new 0 1)) = true.
Proof.
  eexists. eexists. split; [vm_compute; reflexivity|].
  split; [vm_compute; reflexivity|].
  refine (flood_leaves_no_gap (Vec2.new 0 0)
            (newGame 4 4 (replay [0; 1; 5; 4]%nat)) _
            [Vec2.new 0 0] _ (Vec2.new 0 1) _ _ _ _ _ _).
  - vm_compute. reflexivity.
  - vm_compute. reflexivity.
  - vm_compute. reflexivity.
  - vm_compute. reflexivity.
  - vm_compute. reflexivity.
  - vm_compute. reflexivity.
Defined.

(** ** Flags *)

Definition countFlagged (g : Game) : nat :=
  length (List.filter (flaggedAt g) (allPositions (dimension g))).

(** Flags still in hand plus flags standing on the field. *)
Definition flagBalance (g : Game) : Z :=
  numRemainingFlags g + Z.of_nat (countFlagged g).

Lemma countFlagged_change g g' pos :
  dimension g' = dimension g -> inField g pos ->
  flaggedAt g' pos = false ->
  (forall q, inField g q -> q <> pos -> flaggedAt g' q = flaggedAt g q) ->
  Z.of_nat (countFlagged g)
  = Z.of_nat (countFlagged g') + (if flaggedAt g pos then 1 else 0).
Proof.
  intros Hd Hpos Hoff Hother. unfold countFlagged. rewrite Hd.
  destruct (flaggedAt g pos) eqn:Hf.
  - rewrite (filter_length_flip (flaggedAt g') (flaggedAt g) _ pos); try done.
    + lia.
    + apply NoDup_allPositions.
    + by apply in_allPositions.
    + intros b Hb%in_allPositions Hne. symmetry. by apply Hother.
  - rewrite Z.add_0_r. f_equal. f_equal. apply filter_ext_in_list.
    intros b Hb%in_allPositions. destruct (decide (b = pos)) as [->|Hne].
    + congruence.
    + symmetry. by apply Hother.
Qed.

Lemma getState_alter_eq f pos g :
  getState (with_grid (alter f (index_of g pos) (grid g)) g) pos
  = f <$> getState g pos.
Proof. unfold getState. simpl. apply lookup_alter_eq. Qed.

Lemma getState_alter_ne f pos q g :
  inField g pos -> inField g q -> q <> pos ->
  getState (with_grid (alter f (index_of g pos) (grid g)) g) q
  = getState g q.
Proof.
  intros Hp Hq Hne. unfold getState. simpl.
  change (index_of (with_grid _ g) q) with (index_of g q).
  apply lookup_alter_ne. intros Heq. apply Hne. symmetry.
  eauto using index_of_inj.
Qed.

Lemma toggleFlag_balance pos g :
  inField g pos -> getState g pos <> None ->
  flagBalance (toggleFlag pos g) = flagBalance g.
Proof.
  intros Hpos Hsome. destruct (getState g pos) as [c|] eqn:Hc; [|done].
  unfold toggleFlag, flagBalance. destruct (flaggedAt g pos) eqn:Hf.
  - set (g' := with_grid _ g).
    change (numRemainingFlags g + 1 + Z.of_nat (countFlagged g')
            = numRemainingFlags g + Z.of_nat (countFlagged g)).
    rewrite (countFlagged_change g g' pos), Hf; try done; [lia|..].
    + unfold flaggedAt, g'. by rewrite getState_alter_eq, Hc.
    + intros q Hq Hne. unfold flaggedAt, g'.
      by rewrite getState_alter_ne.
  - set (g' := with_grid _ g).
    change (numRemainingFlags g - 1 + Z.of_nat (countFlagged g')
            = numRemainingFlags g + Z.of_nat (countFlagged g)).
    assert (Hpos' : inField g' pos) by exact Hpos.
    assert (Hon : flaggedAt g' pos = true).
    { unfold flaggedAt, g'. by rewrite getState_alter_eq, Hc. }
    rewrite (countFlagged_change g' g pos), Hon; try done; [lia|].
    intros q Hq Hne. unfold flaggedAt, g'.
    by rewrite getState_alter_ne.
Qed.

(** What a call of [openCell] keeps: the size, the flag balance and the
    fields it never writes. *)
Definition kept (g g' : Game) : Prop :=
  dimension g' = dimension g /\ totalMines g' = totalMines g
  /\ flagBalance g' = flagBalance g
  /\ hasGenMines g' = hasGenMines g /\ isLost g' = isLost g
  /\ minables g' = minables g /\ currentId g' = currentId g.

Lemma openCell_kept fuel : forall pos g g',
  inField g pos -> openCell fuel pos g = Some g' -> kept g g'.
Proof.
  induction fuel as [|fuel IH]; intros pos g g' Hpos Hrun; [done|].
  rewrite openCell_S in Hrun. cbv zeta in Hrun.
  set (g1 := if flaggedAt g pos then _ else g) in Hrun.
  assert (Hg1 : g1 = with_numRemainingFlags
                       (numRemainingFlags g
                        + (if flaggedAt g pos then 1 else 0)) g).
  { subst g1. destruct (flaggedAt g pos); [done|].
    rewrite Z.add_0_r. by destruct g. }
  clearbody g1. subst g1.
  set (g2 := setState pos new_Open _) in Hrun.
  assert (H2 : kept g g2).
  { split; [done|]. split; [done|]. split; [|done].
    unfold flagBalance.
    change (numRemainingFlags g2)
      with (numRemainingFlags g + (if flaggedAt g pos then 1 else 0)).
    rewrite (countFlagged_change g g2 pos); try done; [lia|..].
    - unfold flaggedAt, g2. by rewrite getState_setState_eq.
    - intros q Hq Hne. unfold flaggedAt, g2.
      change (getState (setState pos new_Open g) q)
        with (getState
                (setState pos new_Open
                   (with_numRemainingFlags
                      (numRemainingFlags g
                       + (if flaggedAt g pos then 1 else 0)) g)) q).
      rewrite getState_setState_ne; done. }
  assert (Hfinish : forall g3, kept g g3 ->
            (let g4 := with_remainingClearCells (remainingClearCells g3 - 1) g3 in
             if remainingClearCells g4 =? 0 then Some (win g4) else Some g4)
            = Some g' -> kept g g').
  { intros g3 H3 Hres. cbv zeta in Hres.
    destruct (_ =? 0); injection Hres as <-; exact H3. }
  destruct (Iterator.each _ _ _ =? 0)%nat.
  2:{ by apply (Hfinish g2). }
  match type of Hrun with
  | match Iterator.eachM ?f ?l g2 with _ => _ end = _ =>
      destruct (Iterator.eachM f l g2) as [g3|] eqn:Hloop; [|done];
      assert (H3 : kept g g3);
      [revert Hloop; apply eachM_preserves; [|exact H2]|by apply (Hfinish g3)]
  end.
  intros a s s' _ Hs Hstep.
  destruct (isEmpty s a) eqn:He; [|by injection Hstep as <-].
  pose proof (IH _ _ _ (isEmpty_inField _ _ He) Hstep) as Hs'.
  unfold kept in *. intuition congruence.
Qed.

(** X15. The number of flags in hand plus the number of flagged cells of
    the field is kept by [toggleFlag] on a cell that holds an object, by
    every returning call of [openCell] (a flood that opens flagged cells
    hands each flag back), and so by every click on the field once the
    mines are generated. *)
Theorem flags_conserved g pos :
  inField g pos -> getState g pos <> None ->
  flagBalance (toggleFlag pos g) = flagBalance g
  /\ (forall fuel g', openCell fuel pos g = Some g' ->
        flagBalance g' = flagBalance g)
  /\ (forall shiftKey g', hasGenMines g = true ->
        onCanvasClick pos shiftKey g = Returns g' ->
        flagBalance g' = flagBalance g).
Proof.
  intros Hpos Hsome. split; [by apply toggleFlag_balance|]. split.
  - intros fuel g' Hrun. by apply (openCell_kept _ _ _ _ Hpos Hrun).
  - intros shiftKey g' Hgen Hrun. unfold onCanvasClick in Hrun.
    rewrite Hgen in Hrun. cbv zeta in Hrun. cbn [negb] in Hrun.
    destruct shiftKey.
    + destruct (negb _); injection Hrun as <-;
        [by apply toggleFlag_balance|done].
    + destruct (negb (flaggedAt g pos)); [|by injection Hrun as <-].
      destruct (instanceof (getState g pos) Mine);
        [by injection Hrun as <-|].
      destruct (instanceof (getState g pos) Close);
        [|by injection Hrun as <-].
      destruct (openCell _ pos g) as [g2|] eqn:Hopen; [|done].
      injection Hrun as <-. by apply (openCell_kept _ _ _ _ Hpos Hopen).
Qed.

Lemma flags_conserved_witness :
  flagBalance (toggleFlag (Vec2.new 1 1) (newGame 4 4 (replay [0; 1; 5; 4]%nat)))
  = flagBalance (newGame 4 4 (replay [0; 1; 5; 4]%nat)).
Proof.
  refine (proj1 (flags_conserved (newGame 4 4 (replay [0; 1; 5; 4]%nat))
                   (Vec2.new 1 1) _ _)).
  - vm_compute. reflexivity.
  - vm_compute. discriminate.
Defined.

(** X16. [toggleFlag] on a cell of the field whose object has a [flagged]
    property inverts the flag of that cell, keeps its constructor and id,
    leaves every other cell of the field as it is, moves the flag counter
    by one in the matching direction, and applied twice gives back the
    state it started from. *)
Theorem toggleFlag_flips_one_flag g pos c :
  inField g pos -> getState g pos = Some c -> Cell.flagged c <> None ->
  flaggedAt (toggleFlag pos g) pos = negb (flaggedAt g pos)
  /\ getState (toggleFlag pos g) pos
     = Some (Cell.set_flagged (negb (flaggedAt g pos)) c)
  /\ (forall q, inField g q -> q <> pos ->
        getState (toggleFlag pos g) q = getState g q)
  /\ numRemainingFlags (toggleFlag pos g)
     = numRemainingFlags g + (if flaggedAt g pos then 1 else -1)
  /\ toggleFlag pos (toggleFlag pos g) = g.
Proof.
  intros Hpos Hc Hprop.
  assert (Hat : getState (toggleFlag pos g) pos
                = Some (Cell.set_flagged (negb (flaggedAt g pos)) c)).
  { unfold toggleFlag. destruct (flaggedAt g pos);
      change (getState (with_numRemainingFlags ?n ?s) pos)
        with (getState s pos);
      by rewrite getState_alter_eq, Hc. }
  assert (Hflip : flaggedAt (toggleFlag pos g) pos = negb (flaggedAt g pos)).
  { unfold flaggedAt at 1. by rewrite Hat. }
  split; [done|]. split; [done|]. split; [|split].
  - intros q Hq Hne. unfold toggleFlag. destruct (flaggedAt g pos);
      change (getState (with_numRemainingFlags ?n ?s) q)
        with (getState s q);
      by apply getState_alter_ne.
  - unfold toggleFlag. by destruct (flaggedAt g pos).
  - unfold toggleFlag at 1. rewrite Hflip.
    assert (Hb : Cell.flagged c = Some (flaggedAt g pos)).
    { unfold flaggedAt, is_flagged. rewrite Hc.
      by destruct (Cell.flagged c). }
    unfold getState in Hc. unfold toggleFlag.
    destruct (flaggedAt g pos); cbn [negb];
      destruct g as [d m gr pool cid gen lost nf ncl wl src dr];
      unfold with_numRemainingFlags, with_grid, index_of in *; simpl in *;
      f_equal; try lia.
    + apply map_eq. intros j.
      destruct (decide (j = Vec2.x pos + Vec2.y pos * Z.of_nat d))
        as [->|Hne].
      * rewrite !lookup_alter_eq, Hc. simpl. f_equal.
        destruct c as [k i fl]. simpl in Hb. by subst fl.
      * by rewrite !lookup_alter_ne.
    + apply map_eq. intros j.
      destruct (decide (j = Vec2.x pos + Vec2.y pos * Z.of_nat d))
        as [->|Hne].
      * rewrite !lookup_alter_eq, Hc. simpl. f_equal.
        destruct c as [k i fl]. simpl in Hb. by subst fl.
      * by rewrite !lookup_alter_ne.
Qed.

Lemma toggleFlag_flips_one_flag_witness :
  toggleFlag (Vec2.new 1 1)
    (toggleFlag (Vec2.new 1 1) (newGame 4 4 (replay [0; 1; 5; 4]%nat)))
  = newGame 4 4 (replay [0; 1; 5; 4]%nat).
Proof.
  refine (proj2 (proj2 (proj2 (proj2
            (toggleFlag_flips_one_flag
               (newGame 4 4 (replay [0; 1; 5; 4]%nat)) (Vec2.new 1 1)
               new_Close _ _ _))))).
  - vm_compute. reflexivity.
  - vm_compute. reflexivity.
  - vm_compute. discriminate.
Defined.

(** ** The first click *)

Lemma neighbors_adjacent g p r :
  In r (neighbors g p) -> Vec2.adjacentTo p r = true.
Proof.
  intros [_ (dir & Hdir%in_ALL_DIRS & ->)]%in_neighbors.
  apply adjacentTo_chebyshev. revert Hdir.
  unfold chebyshev, Vec2.add; simpl. lia.
Qed.

Lemma populateMines_isLost clickPos g0 g :
  allClosed g0 = true -> populateMines clickPos g0 = Returns g ->
  isLost g = isLost g0.
Proof.
  unfold populateMines. intros Hall Hrun.
  apply (generateMines_from_start clickPos
           (fun _ s => isLost s = isLost g0)) in Hrun; try done.
  - by destruct Hrun.
  - by intros k s pos gc (_ & l & ->) H.
  - intros k gc pos s s' Ht _ Hrun'.
    destruct Ht as (-> & _ & H & _).
    by destruct (assignId_grid_only _ _ _ Hrun') as [gr [-> | ->]].
Qed.

(** X17. The first unshifted click of a round, on an unflagged cell of an
    all-[Close] field, never exhausts the model's budgets; when the mines
    fit it does not lose: it marks the mines as generated, places exactly
    [totalMines] of them, and leaves the clicked cell and every neighbour
    of it [Open]. *)
Theorem first_click_opens_a_patch g0 clickPos :
  allClosed g0 = true -> hasGenMines g0 = false ->
  inField g0 clickPos -> flaggedAt g0 clickPos = false ->
  onCanvasClick clickPos false g0 <> OutOfFuel
  /\ forall g', onCanvasClick clickPos false g0 = Returns g' ->
       isLost g' = isLost g0 /\ hasGenMines g' = true
       /\ countMines g' = totalMines g0
       /\ isOpen g' clickPos = true
       /\ forallb (isOpen g') (neighbors g' clickPos) = true.
Proof.
  intros Hall Hgen Hpos Hflag.
  pose proof (proj1 (allClosed_spec g0) Hall clickPos Hpos) as Hclose.
  apply isEmpty_spec in Hclose as (_ & c & Hc & Hk).
  unfold onCanvasClick. rewrite Hgen, Hflag. cbv zeta. cbn [negb].
  pose proof (populateMines_fuel clickPos g0 Hall) as Hfuel.
  destruct (populateMines clickPos g0) as [g1| |] eqn:Hpop; [|done|done].
  rewrite Hc.
  assert (instanceof (Some c) Mine = false) as ->
    by (unfold instanceof; by rewrite Hk).
  assert (instanceof (Some c) Close = true) as ->
    by (unfold instanceof; by rewrite Hk).
  pose proof (populateMines_isLost _ _ _ Hall Hpop) as Hlost.
  unfold populateMines in Hpop.
  apply (generateMines_count clickPos _ g0) in Hpop as (HB & HM & Hu);
    [|done].
  set (gm := markGenerated g1).
  assert (HBm : Base clickPos gm) by (destruct HB; by split).
  pose proof (Base_total _ _ HBm) as Ht.
  assert (Hposm : inField gm clickPos).
  { eapply inField_dim; [|exact Hpos]. by apply Hu. }
  assert (Hself : Vec2.adjacentTo clickPos clickPos = true).
  { apply adjacentTo_chebyshev. unfold chebyshev. lia. }
  assert (Hm : isMine gm clickPos = false).
  { destruct (isMine gm clickPos) eqn:Hm; [|done].
    apply (base_mines _ _ HBm) in Hm; [congruence|done]. }
  destruct (openCell_enough_fuel _ _ Ht Hposm Hm) as [g2 Hopen].
  rewrite Hopen. cbv iota beta. split; [done|]. intros g' Hret.
  injection Hret as <-.
  destruct (openCell_spec _ _ _ _ Ht Hposm Hm Hopen) as (Ho & _).
  pose proof (opens_setOpen gm clickPos Hposm Hm) as Hos.
  assert (Ho1 : opens gm g2) by (eapply opens_trans; eauto).
  pose proof (openCell_kept _ _ _ _ Hposm Hopen)
    as (Hd & _ & _ & Hg & Hl & _).
  split; [|split; [|split; [|split]]].
  - rewrite Hl. exact Hlost.
  - by rewrite Hg.
  - rewrite (opens_countMines _ _ Ho1). exact HM.
  - apply (opens_stays_open _ _ _ Ho); [exact Hposm|].
    unfold isOpen. by rewrite getState_setState_eq.
  - pose proof (opens_total _ _ Ho1 Ht) as Ht2.
    assert (Hnone : forall r, In r (neighbors g2 clickPos) ->
                      isMine g2 r = false).
    { intros r Hr. rewrite (neighbors_dim gm g2) in Hr by done.
      rewrite (opens_isMine gm g2) by (done || by eapply neighbors_inField).
      destruct (isMine gm r) eqn:Hmr; [|done].
      apply (base_mines _ _ HBm) in Hmr; [|by eapply neighbors_inField].
      apply neighbors_adjacent in Hr. congruence. }
    apply forallb_forall. intros r Hr.
    apply total_not_empty_not_mine; try done.
    + by eapply neighbors_inField.
    + pose proof (openCell_settles _ _ _ _ Ht Hposm Hm Hopen clickPos Hposm
                    (or_introl eq_refl)) as Hs.
      apply Hs; [|exact Hnone|exact Hr].
      apply (opens_stays_open _ _ _ Ho); [exact Hposm|].
      unfold isOpen. by rewrite getState_setState_eq.
    + by apply Hnone.
Qed.

Lemma first_click_opens_a_patch_witness :
  exists g',
    onCanvasClick (Vec2.new 0 0) false (newGame 4 4 (replay [0; 1; 5; 4]%nat))
    = Returns g'
    /\ forallb (isOpen g') (neighbors g' (Vec2.new 0 0)) = true.
Proof.
  eexists. split; [vm_compute; reflexivity|].
  refine (proj2 (proj2 (proj2 (proj2
            (proj2 (first_click_opens_a_patch
                      (newGame 4 4 (replay [0; 1; 5; 4]%nat)) (Vec2.new 0 0)
                      _ _ _ _) _ _))))).
  - vm_compute. reflexivity.
  - vm_compute. reflexivity.
  - vm_compute. reflexivity.
  - vm_compute. reflexivity.
  - vm_compute. reflexivity.
Defined.

(** ** The timer *)

Section TimerFacts.
Import String DecimalString.

Lemma twoDigits_below_100 n :
  (n < 100)%nat -> String.length (Timer.twoDigits n) = 2%nat.
Proof.
  intros Hn.
  assert (Hall : forallb
            (fun k => (String.length (Timer.twoDigits k) =? 2)%nat)
            (seq 0 100) = true) by (vm_compute; reflexivity).
  rewrite forallb_forall in Hall.
  apply Nat.eqb_eq, Hall, in_seq. lia.
Qed.

(** The state after [k] callbacks since the start at [T0]. *)
Definition ticked (T0 : Z) (k : nat) (tm : Timer.t) : Prop :=
  Timer.stopTimer tm = false
  /\ (Timer.seconds tm < 60)%nat
  /\ (60 * Timer.minutes tm + Timer.seconds tm = k)%nat
  /\ Timer.expectedTime tm = 1000 * Z.of_nat k
  /\ Timer.startTime tm - Timer.totalTime tm = T0.

Lemma tickTimer_ticked T0 k now tm :
  ticked T0 k tm -> ticked T0 (S k) (fst (Timer.tickTimer now tm)).
Proof.
  intros (Hs & Hsec & Hk & He & Ht). unfold Timer.tickTimer.
  rewrite Hs. cbn [negb]. cbv zeta.
  destruct (Timer.seconds tm =? 59)%nat eqn:E; simpl;
    [apply Nat.eqb_eq in E|apply Nat.eqb_neq in E];
    unfold ticked; simpl; repeat split; try lia; done.
Qed.

Lemma ticks_ticked T0 times : forall k tm,
  ticked T0 k tm -> ticked T0 (k + List.length times) (Timer.ticks times tm).
Proof.
  unfold Timer.ticks.
  induction times as [|now times IH]; intros k tm H; simpl.
  - by rewrite Nat.add_0_r.
  - replace (k + S (List.length times))%nat
      with (S k + List.length times)%nat by lia.
    apply IH. by apply tickTimer_ticked.
Qed.

Lemma start_ticked T0 tm0 : ticked T0 0 (fst (Timer.start T0 tm0)).
Proof. unfold ticked; simpl. repeat split; lia. Qed.

Lemma ticks_stopped later tm :
  Timer.stopTimer tm = true -> Timer.ticks later tm = tm.
Proof.
  intros Hs. unfold Timer.ticks.
  induction later as [|t later IH]; simpl; [done|].
  unfold Timer.tickTimer at 2. rewrite Hs. exact IH.
Qed.

(** X18. After the timer is started and [tickTimer] has run [k] times,
    at whatever moments, the clock shows [k] seconds: [seconds] stays
    below 60 and [60 * minutes + seconds = k].  The text the next run
    puts on [timerOutput] is the two-digit minutes, a colon and the
    two-digit seconds of [k + 1], five characters long as long as fewer
    than 100 minutes have passed.  A stopped timer is frozen: further
    callbacks change nothing and schedule nothing. *)
Theorem timer_counts_the_ticks T0 tm0 times now later :
  let k := List.length times in
  let tm := Timer.ticks times (fst (Timer.start T0 tm0)) in
  (Timer.seconds tm < 60)%nat
  /\ (60 * Timer.minutes tm + Timer.seconds tm = k)%nat
  /\ (exists tm' out,
        Timer.tickTimer now tm = (tm', Some out)
        /\ Timer.timerOutput out
           = (Timer.twoDigits (S k / 60) ++ ":"
              ++ Timer.twoDigits (S k mod 60))%string
        /\ ((S k < 60 * 100)%nat ->
            String.length (Timer.timerOutput out) = 5%nat))
  /\ Timer.tickTimer now (Timer.stop tm) = (Timer.stop tm, None)
  /\ Timer.ticks later (Timer.stop tm) = Timer.stop tm.
Proof.
  intros k tm.
  pose proof (ticks_ticked T0 times O _ (start_ticked T0 tm0)) as H.
  change (ticked T0 k tm) in H.
  pose proof (tickTimer_ticked T0 k now tm H) as H'.
  destruct H as (Hs & Hsec & Hk & He & Ht).
  split; [done|]. split; [done|]. split; [|split].
  - destruct H' as (_ & Hsec' & Hk' & _).
    unfold Timer.tickTimer in *. rewrite Hs in *. cbn [negb] in *.
    cbv zeta in *. simpl in Hsec', Hk'.
    set (clock := if (Timer.seconds tm =? 59)%nat then _ else _) in *.
    eexists. eexists. split; [reflexivity|]. cbn [Timer.timerOutput].
    assert (Hm : (S k / 60 = fst clock)%nat).
    { symmetry. apply (Nat.div_unique _ _ _ (snd clock)); lia. }
    assert (Hr : (S k mod 60 = snd clock)%nat).
    { symmetry. apply (Nat.mod_unique _ _ (fst clock)); lia. }
    rewrite Hm, Hr. split; [done|]. intros Hlt.
    assert (Hlen : forall a b,
              String.length (a ++ b) = (String.length a + String.length b)%nat).
    { induction a as [|c a IH]; intros b; simpl; [done|]. by rewrite IH. }
    rewrite !Hlen, !twoDigits_below_100; [done|lia|].
    rewrite <- Hm. apply Nat.Div0.div_lt_upper_bound. lia.
  - reflexivity.
  - by apply ticks_stopped.
Qed.

(** X19. The delay each run of [tickTimer] hands to [setTimeout] makes up
    for every delay so far: after a start at [T0] and [k] earlier
    callbacks, a callback running at the moment [now] asks for the next
    one at [T0 + 1000 * (k + 2)], wherever [now] and the earlier moments
    fell.  It also records in [totalTime] the time since the start and
    in [expectedTime] the time the clock shows. *)
Theorem timer_compensates_drift T0 tm0 times now :
  let k := Z.of_nat (List.length times) in
  let tm := Timer.ticks times (fst (Timer.start T0 tm0)) in
  exists tm' out,
    Timer.tickTimer now tm = (tm', Some out)
    /\ now + Timer.timeout out = T0 + 1000 * (k + 2)
    /\ Timer.totalTime tm' = now - T0
    /\ Timer.expectedTime tm' = 1000 * (k + 1)
    /\ snd (Timer.start T0 tm0) = 1000.
Proof.
  intros k tm.
  pose proof (ticks_ticked T0 times O _ (start_ticked T0 tm0)) as H.
  change (ticked T0 (List.length times) tm) in H.
  destruct H as (Hs & Hsec & Hk & He & Ht).
  unfold Timer.tickTimer. rewrite Hs. cbn [negb]. cbv zeta.
  eexists. eexists. split; [reflexivity|]. simpl. unfold k.
  repeat split; lia.
Qed.

End TimerFacts.

(** ** The settings screen *)

Section SettingsFacts.
Import QArith Qround Lqa.




Lemma Qle_bool_false p q : Qle_bool p q = false -> (q < p)%Q.
Proof.
  intros H. apply Qnot_le_lt. intros Hle.
  apply Qle_bool_iff in Hle. congruence.
Qed.

Ltac settings_step :=
  cbv beta iota zeta delta
    [Settings.adjustMinesSlider Settings.dimensionInput_change
     Settings.minesInput_change Settings.handle Settings.saveButton_click
     Settings.newDimension Settings.newTotalMines Settings.minesSliderMax
     Settings.mul Settings.div_by_3 Settings.Math_floor Settings.gt
     Settings.lt Settings.isNaN orb negb].





(** X21. The change handler of [dimensionInput] tests [newDimension]
    where it means the typed value.  When the typed text is not a number
    and [newDimension] is one, [newDimension] becomes [NaN], the maximum
    of the mines slider becomes [NaN] and the number of mines is left as
    it is; and once [newDimension] is [NaN] the next change sets it to 20
    whatever is typed. *)
Theorem dimension_guard_reads_stale_value d m mx typed :
  let s := Settings.make (Settings.Num d) m mx in
  Settings.dimensionInput_change Settings.NaN s
  = Settings.make Settings.NaN m Settings.NaN
  /\ Settings.newDimension
       (Settings.dimensionInput_change typed
          (Settings.dimensionInput_change Settings.NaN s))
     = Settings.Num 20.
Proof.
  intros s. split.
  - unfold s. settings_step. by destruct m.
  - unfold s. settings_step. reflexivity.
Qed.

End SettingsFacts.
